(** * TriangleM script extractor: a shallow embedding of [trianglem_extractor.py]

    The development follows the three classes of the program:
    [MemFSParser] (index scan), [MemBodyExtractor] (stream location,
    decompression and scene splitting) and [TATParser] (dialogue extraction).
    The value computations of [extract_game_files] (file names, routes and the
    inspection loop) are in [Orchestrator].

    Conventions.
    - Python [bytes] are lists of [byte]; Python [str] values are lists of
      Unicode code points (as [Z]), since the program inspects [ord c].
    - Offsets that the program only increments and compares with a length are
      [nat]; offsets it subtracts from ([check_pos], [line_num - 3], the result
      of [str.find]) are [Z].
    - [while] loops are run with a fuel argument; every loop of the program
      is given a fuel that is proved sufficient (it ends with its condition
      false), so the functions below are total and agree with the loops.
    - Calls to [print] are omitted: they do not influence any returned value. *)

From Stdlib Require Import ZArith Lia List Strings.Byte Strings.String.
From stdpp Require Import base decidable option list gmap strings countable.

Local Open Scope Z_scope.

(** ** Python primitives *)

Module Py.

Definition bytes := list byte.
Definition str := list Z.

#[global] Instance byte_eq_dec : EqDecision byte := Byte.byte_eq_dec.

(** [b[i]] as an integer, i.e. the value of one element of a bytes object. *)
Definition ord (b : byte) : Z := Z.of_N (Byte.to_N b).

(** [l[i:j]] for non-negative [i], [j]: clamps at the end of the list and is
    empty when [j <= i]. *)
Definition slice {A} (l : list A) (i j : nat) : list A := take (j - i) (drop i l).

(** [l[a:b]] with Python's treatment of negative and out-of-range indices. *)
Definition norm_index (i : Z) (len : nat) : nat :=
  if i <? 0 then Z.to_nat (Z.max (i + Z.of_nat len) 0)
  else Nat.min (Z.to_nat i) len.

Definition zslice {A} (l : list A) (a b : Z) : list A :=
  slice l (norm_index a (length l)) (norm_index b (length l)).

(** An ASCII literal of the program as a [str]. *)
Definition lit (s : string) : str := map ord (list_byte_of_string s).

(** [while cond: body], run for at most [fuel] iterations. *)
Fixpoint while {S : Type} (fuel : nat) (cond : S -> bool) (body : S -> S) (s : S) : S :=
  match fuel with
  | O => s
  | S fuel' => if cond s then while fuel' cond body (body s) else s
  end.

(** *** [str] methods *)

(** [s.startswith(p)] *)
Fixpoint startswith (p s : str) : bool :=
  match p, s with
  | [], _ => true
  | _ :: _, [] => false
  | a :: p', b :: s' => bool_decide (a = b) && startswith p' s'
  end.

(** [s.endswith(p)] *)
Definition endswith (p s : str) : bool := startswith (rev p) (rev s).

(** [p in s] *)
Fixpoint contains (p s : str) : bool :=
  startswith p s ||
  match s with
  | [] => false
  | _ :: s' => contains p s'
  end.

(** [s.find(p)]: the lowest index where [p] occurs, [-1] when it does not. *)
Fixpoint find (p s : str) : Z :=
  if startswith p s then 0
  else match s with
       | [] => -1
       | _ :: s' => let r := find p s' in if r <? 0 then -1 else r + 1
       end.

(** [str.isspace] on one code point (CPython's [_PyUnicode_IsWhitespace]). *)
Definition isspace (c : Z) : bool :=
  ((0x09 <=? c) && (c <=? 0x0D)) || ((0x1C <=? c) && (c <=? 0x20)) ||
  bool_decide (c = 0x85) || bool_decide (c = 0xA0) || bool_decide (c = 0x1680) ||
  ((0x2000 <=? c) && (c <=? 0x200A)) || bool_decide (c = 0x2028) ||
  bool_decide (c = 0x2029) || bool_decide (c = 0x202F) ||
  bool_decide (c = 0x205F) || bool_decide (c = 0x3000).

Fixpoint lstrip_by (f : Z -> bool) (s : str) : str :=
  match s with
  | [] => []
  | c :: s' => if f c then lstrip_by f s' else s
  end.

Definition rstrip_by (f : Z -> bool) (s : str) : str := rev (lstrip_by f (rev s)).
Definition strip_by (f : Z -> bool) (s : str) : str := rstrip_by f (lstrip_by f s).

(** [s.lstrip()], [s.rstrip()], [s.strip()] *)
Definition lstrip (s : str) : str := lstrip_by isspace s.
Definition rstrip (s : str) : str := rstrip_by isspace s.
Definition strip (s : str) : str := strip_by isspace s.

(** [s.strip(chars)], [s.lstrip(chars)] *)
Definition in_chars (chars : str) (c : Z) : bool := bool_decide (c ∈ chars).
Definition strip_chars (chars s : str) : str := strip_by (in_chars chars) s.
Definition lstrip_chars (chars s : str) : str := lstrip_by (in_chars chars) s.

(** [s.split(sep)] for a one-character separator: never returns an empty list. *)
Fixpoint split (sep : Z) (s : str) : list str :=
  match s with
  | [] => [[]]
  | c :: s' =>
      match split sep s' with
      | [] => [[]]
      | w :: ws => if bool_decide (c = sep) then [] :: w :: ws else (c :: w) :: ws
      end
  end.

(** [sep.join(l)] *)
Fixpoint join (sep : str) (l : list str) : str :=
  match l with
  | [] => []
  | [x] => x
  | x :: l' => x ++ sep ++ join sep l'
  end.

(** [s.replace(tag, '')] for a non-empty [tag]: occurrences are removed from
    left to right without overlap. [skip] counts the code points of a matched
    occurrence that remain to be dropped. *)
Fixpoint remove_from (tag : str) (skip : nat) (s : str) : str :=
  match s with
  | [] => []
  | c :: s' =>
      match skip with
      | S k => remove_from tag k s'
      | O => if startswith tag s then remove_from tag (length tag - 1) s'
             else c :: remove_from tag 0 s'
      end
  end.

Definition remove (tag s : str) : str := remove_from tag 0 s.

(** [str(n)] for a non-negative integer. *)
Fixpoint digits (fuel n : nat) (acc : str) : str :=
  match fuel with
  | O => acc
  | S fuel' =>
      let acc' := (48 + Z.of_nat (n mod 10)) :: acc in
      if (n <? 10)%nat then acc' else digits fuel' (n / 10) acc'
  end.

Definition str_of_nat (n : nat) : str := digits (S n) n [].

(** *** Codecs *)

Definition is_cont (c : Z) : bool := (0x80 <=? c) && (c <? 0xC0).

(** [b.decode('utf-8', errors='ignore')], following CPython's decoder:
    an invalid start byte is dropped alone; a sequence broken at its k-th
    continuation byte loses the k bytes before the offending one; a sequence
    cut off by the end of the input is dropped whole. Overlong forms,
    surrogates and values above U+10FFFF are invalid. *)
Fixpoint utf8_decode_ignore (s : bytes) : str :=
  match s with
  | [] => []
  | b1 :: s1 =>
      let c1 := ord b1 in
      if c1 <? 0x80 then c1 :: utf8_decode_ignore s1
      else if c1 <? 0xC2 then utf8_decode_ignore s1
      else if c1 <? 0xE0 then
        match s1 with
        | [] => []
        | b2 :: s2 =>
            let c2 := ord b2 in
            if is_cont c2
            then ((c1 - 0xC0) * 64 + (c2 - 0x80)) :: utf8_decode_ignore s2
            else utf8_decode_ignore s1
        end
      else if c1 <? 0xF0 then
        match s1 with
        | [] => []
        | b2 :: s2 =>
            let c2 := ord b2 in
            if negb (is_cont c2)
               || (bool_decide (c1 = 0xE0) && (c2 <? 0xA0))
               || (bool_decide (c1 = 0xED) && (0xA0 <=? c2))
            then utf8_decode_ignore s1
            else
              match s2 with
              | [] => []
              | b3 :: s3 =>
                  let c3 := ord b3 in
                  if is_cont c3
                  then ((c1 - 0xE0) * 4096 + (c2 - 0x80) * 64 + (c3 - 0x80))
                         :: utf8_decode_ignore s3
                  else utf8_decode_ignore s2
              end
        end
      else if c1 <? 0xF5 then
        match s1 with
        | [] => []
        | b2 :: s2 =>
            let c2 := ord b2 in
            if negb (is_cont c2)
               || (bool_decide (c1 = 0xF0) && (c2 <? 0x90))
               || (bool_decide (c1 = 0xF4) && (0x90 <=? c2))
            then utf8_decode_ignore s1
            else
              match s2 with
              | [] => []
              | b3 :: s3 =>
                  let c3 := ord b3 in
                  if is_cont c3 then
                    match s3 with
                    | [] => []
                    | b4 :: s4 =>
                        let c4 := ord b4 in
                        if is_cont c4
                        then ((c1 - 0xF0) * 262144 + (c2 - 0x80) * 4096
                              + (c3 - 0x80) * 64 + (c4 - 0x80))
                               :: utf8_decode_ignore s4
                        else utf8_decode_ignore s3
                    end
                  else utf8_decode_ignore s2
              end
        end
      else utf8_decode_ignore s1
  end.

(** [s.encode('utf-8')], for code points that are not surrogates. *)
Definition byte_of_Z (z : Z) : byte :=
  match Byte.of_N (Z.to_N (z mod 256)) with
  | Some b => b
  | None => x00
  end.

Definition utf8_encode_char (c : Z) : bytes :=
  if c <? 0x80 then [byte_of_Z c]
  else if c <? 0x800 then [byte_of_Z (0xC0 + c / 64); byte_of_Z (0x80 + c mod 64)]
  else if c <? 0x10000 then
    [byte_of_Z (0xE0 + c / 4096); byte_of_Z (0x80 + (c / 64) mod 64);
     byte_of_Z (0x80 + c mod 64)]
  else
    [byte_of_Z (0xF0 + c / 262144); byte_of_Z (0x80 + (c / 4096) mod 64);
     byte_of_Z (0x80 + (c / 64) mod 64); byte_of_Z (0x80 + c mod 64)].

Definition utf8_encode (s : str) : bytes := flat_map utf8_encode_char s.

(** [b.decode('utf-16le')] with the default strict error handling: [None]
    stands for the [UnicodeDecodeError] raised on a truncated code unit or an
    unpaired surrogate. *)
Fixpoint utf16le_decode (s : bytes) : option str :=
  match s with
  | [] => Some []
  | [_] => None
  | b0 :: b1 :: rest =>
      let u := ord b0 + 256 * ord b1 in
      if (u <? 0xD800) || (0xDFFF <? u) then cons u <$> utf16le_decode rest
      else if u <? 0xDC00 then
        match rest with
        | c0 :: c1 :: rest' =>
            let v := ord c0 + 256 * ord c1 in
            if (0xDC00 <=? v) && (v <=? 0xDFFF)
            then cons (0x10000 + (u - 0xD800) * 1024 + (v - 0xDC00))
                   <$> utf16le_decode rest'
            else None
        | _ => None
        end
      else None
  end.

(** [struct.unpack('<H', b)[0]] and [struct.unpack('<I', b)[0]]: [None] stands
    for the [struct.error] raised when the buffer has the wrong size. *)
Definition unpack_H (b : bytes) : option Z :=
  match b with
  | [b0; b1] => Some (ord b0 + 256 * ord b1)
  | _ => None
  end.

Definition unpack_I (b : bytes) : option Z :=
  match b with
  | [b0; b1; b2; b3] =>
      Some (ord b0 + 256 * ord b1 + 65536 * ord b2 + 16777216 * ord b3)
  | _ => None
  end.

End Py.

Import Py.

(** ** Exceptions and results *)

(** The error raised by [zlib]: [zlib.error], with zlib's status code
    ([-3] for [Z_DATA_ERROR], [-5] for [Z_BUF_ERROR], [2] for [Z_NEED_DICT]). *)
Record zlib_error := ZlibError { zlib_status : Z }.

(** The exceptions of the program. [MemBodyExtractor] raises three
    [ValueError]s, told apart here by the place that raises them: a wrong
    two-byte header, no stream header in the search window, and a failed
    decompression (carrying the [zlib.error] it reports). [StructError] is the
    [struct.error] of [struct.unpack]. *)
Inductive exn :=
  | HeaderMismatch
  | StreamNotFound
  | DecompressionFailed (e : zlib_error)
  | StructError.

Inductive result (A : Type) :=
  | Ok (a : A)
  | Raise (e : exn).
Arguments Ok {A} a.
Arguments Raise {A} e.

Definition bind {A B} (r : result A) (k : A -> result B) : result B :=
  match r with
  | Ok a => k a
  | Raise e => Raise e
  end.

#[global] Instance result_bind : MBind result := fun A B k r => bind r k.
#[global] Instance result_ret : MRet result := @Ok.

Definition of_option {A} (o : option A) (e : exn) : result A :=
  match o with
  | Some a => Ok a
  | None => Raise e
  end.

(** ** [MemFSParser] *)

Module MemFSParser.

(** One element of [self.files]: a dict with exactly these five keys. *)
Record IndexEntry := {
  path : str;
  metadata_offset : Z;
  val1 : Z;
  val2 : Z;
  path_prefix : Z
}.

Definition SLASH16 : bytes := [x2f; x00].
Definition NUL16 : bytes := [x00; x00].

(** [while end + 1 < len(self.data) and self.data[end:end+2] != b'\x00\x00':
      end += 2] *)
Definition path_end_cond (data : bytes) (e : nat) : bool :=
  (e + 1 <? length data)%nat && negb (bool_decide (slice data e (e + 2) = NUL16)).

Definition path_end (data : bytes) (start : nat) : nat :=
  while (length data) (path_end_cond data) (fun e => (e + 2)%nat) start.

(** ['.tat' in path or '.json' in path or '.armd' in path] *)
Definition is_content_path (p : str) : bool :=
  contains (lit ".tat") p || contains (lit ".json") p || contains (lit ".armd") p.

(** One iteration of the first pass, on the state [(search_pos, paths)]. *)
Definition scan_step (data : bytes) (st : nat * list (nat * str)) : nat * list (nat * str) :=
  let '(search_pos, paths) := st in
  if bool_decide (slice data search_pos (search_pos + 2) = SLASH16) then
    let e := path_end data search_pos in
    let paths' :=
      match utf16le_decode (slice data search_pos e) with
      | Some p => if is_content_path p then paths ++ [(search_pos, p)] else paths
      | None => paths
      end in
    (e, paths')
  else ((search_pos + 1)%nat, paths).

Definition find_paths (data : bytes) : list (nat * str) :=
  snd (while (length data) (fun st => (fst st <? length data)%nat)
             (scan_step data) (0%nat, [])).

(** The body of [for path_offset, path in paths]: [None] is [continue]. *)
Definition entry_of (data : bytes) (path_offset : nat) (p : str)
  : result (option IndexEntry) :=
  let check_pos := Z.of_nat path_offset - 16 in
  if check_pos <? 0 then Ok None
  else
    pp ← of_option (unpack_H (zslice data (check_pos + 8) (check_pos + 10))) StructError;
    d1 ← of_option (unpack_I (zslice data check_pos (check_pos + 4))) StructError;
    d2 ← of_option (unpack_I (zslice data (check_pos + 4) (check_pos + 8))) StructError;
    Ok (Some {| path := p; metadata_offset := check_pos;
                val1 := d1; val2 := d2; path_prefix := pp |}).

Fixpoint entries (data : bytes) (paths : list (nat * str)) (files : list IndexEntry)
  : result (list IndexEntry) :=
  match paths with
  | [] => Ok files
  | (path_offset, p) :: paths' =>
      r ← entry_of data path_offset p;
      match r with
      | None => entries data paths' files
      | Some f => entries data paths' (files ++ [f])
      end
  end.

(** [MemFSParser(memfs_data).get_files()] *)
Definition _parse (data : bytes) : result (list IndexEntry) :=
  entries data (find_paths data) [].

(** *** Definitions used to state the properties of the scan *)

(** What the first pass records about an accepted path. *)
Definition path_found (data : bytes) (entry : nat * str) : Prop :=
  let '(P, p) := entry in
  slice data P (P + 2) = SLASH16 /\
  utf16le_decode (slice data P (path_end data P)) = Some p /\
  is_content_path p = true.

(** Little-endian value of a byte string. *)
Fixpoint le_uint (bs : bytes) : Z :=
  match bs with
  | [] => 0
  | b :: bs' => ord b + 256 * le_uint bs'
  end.

(** The entry the second pass derives from a path at offset [P]. *)
Definition spec_entry (data : bytes) (entry : nat * str) : option IndexEntry :=
  let '(P, p) := entry in
  if (P <? 16)%nat then None
  else Some {| path := p;
               metadata_offset := Z.of_nat P - 16;
               val1 := le_uint (slice data (P - 16) (P - 12));
               val2 := le_uint (slice data (P - 12) (P - 8));
               path_prefix := le_uint (slice data (P - 8) (P - 6)) |}.

End MemFSParser.

(** ** [zlib] *)

(** What zlib's [inflate] reports for a whole input buffer: the stream's end
    marker was reached ([out] is the complete output), the input ran out
    before the end of the stream ([out] is the output produced up to that
    point), or inflation failed with one of zlib's status codes. *)
Inductive inflate_outcome :=
  | StreamEnd (out : bytes)
  | InputExhausted (out : bytes)
  | InflateError (status : Z).

(** The two entry points of the [zlib] module the program uses, over an
    [inflate] taking the window-bits argument ([15]: zlib wrapper, [-15]: raw
    deflate). [zlib.decompress] raises unless the stream is complete;
    [decompressobj(wbits).decompress] returns what has been produced so far and
    raises only on invalid data. *)
Section Zlib.
Variable inflate : Z -> bytes -> inflate_outcome.

Definition zlib_decompress (stream : bytes) : zlib_error + bytes :=
  match inflate 15 stream with
  | StreamEnd out => inr out
  | InputExhausted _ => inl (ZlibError (-5))
  | InflateError status => inl (ZlibError status)
  end.

Definition decompressobj_decompress (wbits : Z) (stream : bytes) : zlib_error + bytes :=
  match inflate wbits stream with
  | StreamEnd out => inr out
  | InputExhausted out => inr out
  | InflateError status => inl (ZlibError status)
  end.
End Zlib.

(** ** [MemBodyExtractor] *)

Module MemBodyExtractor.

Import MemFSParser.

Record t := { data : bytes; compress_offset : nat }.

Definition RZ : bytes := ["R"%byte; "Z"%byte].
Definition MAGIC_9C : bytes := [x78; x9c].
Definition MAGIC_DA : bytes := [x78; xda].
Definition BOM : bytes := [xef; xbb; xbf].
Definition LBRACKET : bytes := ["["%byte].
Definition RBRACKET : bytes := ["]"%byte].

(** [range(a, b)] *)
Definition range (a b : nat) : list nat := seq a (b - a).

Definition magic_at (d : bytes) (i : nat) : bool :=
  bool_decide (slice d i (i + 2) = MAGIC_9C) || bool_decide (slice d i (i + 2) = MAGIC_DA).

(** [for i in range(...): if ...: self.compress_offset = i; return] *)
Fixpoint first_magic (d : bytes) (candidates : list nat) : option nat :=
  match candidates with
  | [] => None
  | i :: rest => if magic_at d i then Some i else first_magic d rest
  end.

Definition _find_deflate_start (d : bytes) : result nat :=
  of_option (first_magic d (range 2 (Nat.min 100 (length d)))) StreamNotFound.

(** [MemBodyExtractor(membody_data)] *)
Definition new (membody_data : bytes) : result t :=
  if bool_decide (slice membody_data 0 2 = RZ) then
    off ← _find_deflate_start membody_data;
    Ok {| data := membody_data; compress_offset := off |}
  else Raise HeaderMismatch.

Section Decompress.
Variable inflate : Z -> bytes -> inflate_outcome.

(** [self.decompress()] *)
Definition decompress (self : t) : result bytes :=
  let stream := drop (compress_offset self) (data self) in
  match zlib_decompress inflate stream with
  | inr decompressed => Ok decompressed
  | inl e =>
      match decompressobj_decompress inflate (-15) stream with
      | inr decompressed => Ok decompressed
      | inl _ => Raise (DecompressionFailed e)
      end
  end.

(** The decode path of the program: [MemBodyExtractor(data).decompress()]. *)
Definition decode (membody_data : bytes) : result bytes :=
  self ← new membody_data; decompress self.
End Decompress.

(** A discovered scene: the header that opens it, the byte range
    [start_pos, next_pos), the bytes [decompressed[start_pos:next_pos]] and
    the key under which they are stored. *)
Record segment := {
  headerText : str;
  startOffset : nat;
  endOffset : nat;
  rawBytes : bytes;
  resolvedFilename : str
}.

(** [while end < len(d) and d[end:end+1] != b']': end += 1] *)
Definition scan_close (d : bytes) (start : nat) : nat :=
  while (length d)
        (fun e => (e <? length d)%nat && negb (bool_decide (slice d e (e + 1) = RBRACKET)))
        (fun e => (e + 1)%nat) start.

(** ['_TOP]' in header or '_START]' in header or '_END]' in header] *)
Definition is_scene_header (header : str) : bool :=
  contains (lit "_TOP]") header || contains (lit "_START]") header
  || contains (lit "_END]") header.

(** The classification in the words of the specification: the text ends with
    one of the three suffixes. *)
Definition ends_with_scene_suffix (text : str) : bool :=
  endswith (lit "_TOP]") text || endswith (lit "_START]") text
  || endswith (lit "_END]") text.

(** A bracketed marker of the data: an open bracket at [p], the first close
    bracket after it at [e], and [text], the decoded bytes from [p] to [e]
    inclusive. *)
Definition marker (d : bytes) (p e : nat) (text : str) : Prop :=
  d !! p = Some "["%byte /\ (p < e < length d)%nat /\ d !! e = Some "]"%byte /\
  (forall k, (p < k < e)%nat -> d !! k <> Some "]"%byte) /\
  text = utf8_decode_ignore (slice d p (e + 1)).

(** The test of the outer loop at [pos]: a bracket is open at [pos], it is
    closed before the end of the data, and the bracketed text is a scene
    header. Returns the end offset and the decoded header. *)
Definition opens_scene (d : bytes) (pos : nat) : option (nat * str) :=
  if bool_decide (slice d pos (pos + 1) = LBRACKET) then
    let e := scan_close d (pos + 1) in
    if (e <? length d)%nat then
      let header := utf8_decode_ignore (slice d pos (e + 1)) in
      if is_scene_header header then Some (e, header) else None
    else None
  else None.

(** The test under which the inner loop breaks at [next_pos]. *)
Definition next_scene_at (d : bytes) (next_pos : nat) : bool :=
  if bool_decide (slice d next_pos (next_pos + 1) = LBRACKET) then
    let check_end := scan_close d (next_pos + 1) in
    if (check_end <? length d)%nat then
      let next_header := utf8_decode_ignore (slice d next_pos (check_end + 1)) in
      is_scene_header next_header
    else false
  else false.

(** [while next_pos < len(d): if <scene header at next_pos>: break; next_pos += 1] *)
Definition scan_next (d : bytes) (start : nat) : nat :=
  while (length d)
        (fun p => (p <? length d)%nat && negb (next_scene_at d p))
        (fun p => (p + 1)%nat) start.

(** [for f in files: if scene_name.split('_')[0] in f['path']: ...; break] *)
Fixpoint match_files (token : str) (files : list IndexEntry) (filename : str) : str :=
  match files with
  | [] => filename
  | f :: files' =>
      if contains token (path f) then lstrip_chars (lit "/") (path f)
      else match_files token files' filename
  end.

Definition resolve_filename (header : str) (files : list IndexEntry) : str :=
  let scene_name := strip_chars (lit "[]") header in
  let filename := scene_name ++ lit ".tat" in
  match_files (hd [] (split 95 scene_name)) files filename.

(** The state of the outer loop: the cursor, the [result] dict, and the list
    of scenes stored so far, in the order of discovery. The list is not a
    variable of the program; it records each assignment [result[filename] =
    file_data] together with the offsets it was computed from. The counter
    [file_num] of the program is never read and is left out. *)
Record split_state := {
  pos : nat;
  result_dict : gmap str bytes;
  found : list segment
}.

Definition split_step (d : bytes) (files : list IndexEntry) (st : split_state)
  : split_state :=
  match opens_scene d (pos st) with
  | Some (e, header) =>
      let start_pos := pos st in
      let next_pos := scan_next d (e + 1) in
      let file_data := slice d start_pos next_pos in
      let filename := resolve_filename header files in
      {| pos := next_pos;
         result_dict := <[filename := file_data]> (result_dict st);
         found := found st ++ [ {| headerText := header; startOffset := start_pos;
                                   endOffset := next_pos; rawBytes := file_data;
                                   resolvedFilename := filename |} ] |}
  | None =>
      {| pos := (pos st + 1)%nat; result_dict := result_dict st; found := found st |}
  end.

Definition split_init (d : bytes) : split_state :=
  {| pos := if bool_decide (slice d 0 3 = BOM) then 3%nat else 0%nat;
     result_dict := ∅; found := [] |}.

Definition split_run (d : bytes) (files : list IndexEntry) : split_state :=
  while (length d) (fun st => (pos st <? length d)%nat) (split_step d files)
        (split_init d).

(** [self.find_file_data(decompressed, files)] *)
Definition find_file_data (d : bytes) (files : list IndexEntry) : gmap str bytes :=
  result_dict (split_run d files).

(** The scenes behind the returned dict, in order. *)
Definition segments (d : bytes) (files : list IndexEntry) : list segment :=
  found (split_run d files).

(** *** Definitions used to state the properties of the splitter *)

(** [chain a segs b]: the segments are non-empty ranges laid end to end from
    offset [a] to offset [b]. *)
Inductive chain : nat -> list segment -> nat -> Prop :=
  | chain_nil a : chain a [] a
  | chain_cons s segs b :
      (startOffset s < endOffset s)%nat ->
      chain (endOffset s) segs b ->
      chain (startOffset s) (s :: segs) b.

(** How the program computes one scene from the position that opens it. *)
Definition scene_of (d : bytes) (files : list IndexEntry) (s : segment) : Prop :=
  exists e, opens_scene d (startOffset s) = Some (e, headerText s) /\
            endOffset s = scan_next d (e + 1) /\
            rawBytes s = slice d (startOffset s) (endOffset s) /\
            resolvedFilename s = resolve_filename (headerText s) files.

(** The dict obtained by performing the assignments of the scenes in order. *)
Definition store (segs : list segment) : gmap str bytes :=
  fold_left (fun m s => <[resolvedFilename s := rawBytes s]> m) segs ∅.

Definition split_inv (d : bytes) (files : list IndexEntry) (st : split_state) : Prop :=
  (pos st <= length d)%nat /\
  Forall (scene_of d files) (found st) /\
  result_dict st = store (found st) /\
  match hd_error (found st) with
  | None => found st = [] /\ forall k, (k < pos st)%nat -> opens_scene d k = None
  | Some s0 =>
      (forall k, (k < startOffset s0)%nat -> opens_scene d k = None) /\
      chain (startOffset s0) (found st) (pos st) /\
      ((pos st < length d)%nat -> is_Some (opens_scene d (pos st)))
  end.

(** The offsets at which a scene starts, read off the payload alone: a scene
    header is recognised at [p], and every scene header recognised at an
    earlier offset is closed before [p] (so [p] is not an open bracket inside
    the brackets of an earlier header). *)
Definition scene_start (d : bytes) (p : nat) : bool :=
  bool_decide (is_Some (opens_scene d p))
  && forallb (fun q => match opens_scene d q with
                       | Some (e, _) => (e <? p)%nat
                       | None => true
                       end) (seq 0 p).

Definition scene_starts (d : bytes) : list nat :=
  List.filter (scene_start d) (seq 0 (length d)).

(** The start of the first scene-boundary marker: the least offset at which a
    scene header is recognised. *)
Definition first_marker (d : bytes) (m : nat) : Prop :=
  is_Some (opens_scene d m) /\ forall k, (k < m)%nat -> opens_scene d k = None.

(** The scene that starts at [p], if a scene header is recognised there. *)
Definition scene_at (d : bytes) (files : list IndexEntry) (p : nat) : option segment :=
  match opens_scene d p with
  | Some (e, header) =>
      let next_pos := scan_next d (e + 1) in
      Some {| headerText := header; startOffset := p; endOffset := next_pos;
              rawBytes := slice d p next_pos;
              resolvedFilename := resolve_filename header files |}
  | None => None
  end.

(** The scenes of a payload, in the order of their offsets. *)
Definition scenes (d : bytes) (files : list IndexEntry) : list segment :=
  omap (scene_at d files) (scene_starts d).

(** Every header recognised before [a] is closed before [a]. *)
Definition closed_before (d : bytes) (a : nat) : Prop :=
  forall q e h, (q < a)%nat -> opens_scene d q = Some (e, h) -> (e < a)%nat.

End MemBodyExtractor.

(** ** [TATParser] *)

Module TATParser.

(** The values stored in a result dict, and the dict itself with its keys in
    insertion order. *)
Inductive value :=
  | VStr (s : str)
  | VInt (n : Z).

Definition pydict := list (string * value).

(** [d.get(k)] *)
Fixpoint dict_get (k : string) (d : pydict) : option value :=
  match d with
  | [] => None
  | (k', v) :: d' => if bool_decide (k' = k) then Some v else dict_get k d'
  end.

Record t := { data : bytes; filename : str; text_content : str }.

(** [TATParser(tat_data, filename)] *)
Definition new (tat_data : bytes) (name : str) : t :=
  {| data := tat_data; filename := name;
     text_content := utf8_decode_ignore tat_data |}.

(** The four glyphs of the script format: fullwidth curly brackets around a
    speaker name, corner brackets around a spoken line. *)
Definition SPEAKER_OPEN : Z := 0xFF5B.
Definition SPEAKER_CLOSE : Z := 0xFF5D.
Definition QUOTE_OPEN : Z := 0x300C.
Definition QUOTE_CLOSE : Z := 0x300D.
Definition NEWLINE : Z := 10.

(** [any(0x3040 <= ord(c) <= 0x9FFF for c in text)] *)
Definition _has_japanese (text : str) : bool :=
  existsb (fun c => (0x3040 <=? c) && (c <=? 0x9FFF)) text.

(** [for line in lines[:20]: if line.startswith('[') and ']' in line:
      return line.strip()] and, after the loop, [return ""]. *)
Fixpoint first_header (lines : list str) : str :=
  match lines with
  | [] => []
  | line :: rest =>
      if startswith (lit "[") line && contains (lit "]") line then strip line
      else first_header rest
  end.

Definition _get_scene_header (self : t) : str :=
  first_header (take 20 (split NEWLINE (text_content self))).

(** [range(start, stop, -1)] *)
Definition range_down (start stop : Z) : list Z :=
  map (fun k => start - Z.of_nat k) (seq 0 (Z.to_nat (start - stop))).

(** [lines[i]]. The program only indexes with [0 <= i < len(lines)] (lemma
    [context_indices_valid]), where no [IndexError] arises; the default covers
    the other indices to keep the function total. *)
Definition getitem (lines : list str) (i : Z) : str :=
  if i <? 0 then [] else nth (Z.to_nat i) lines [].

(** The body of the context loop, from the first index of [indices] on:
    [context_lines.insert(0, ctx_line)], [count += 1], [break] at two. *)
Fixpoint context_loop (lines : list str) (indices : list Z)
    (context_lines : list str) (count : nat) : list str :=
  match indices with
  | [] => context_lines
  | i :: rest =>
      let ctx_line := strip (getitem lines i) in
      let '(context_lines', count') :=
        if negb (bool_decide (ctx_line = [])) && negb (startswith (lit "//") ctx_line)
        then (ctx_line :: context_lines, S count)
        else (context_lines, count) in
      if (2 <=? count')%nat then context_lines'
      else context_loop lines rest context_lines' count'
  end.

Definition build_context (lines : list str) (line_num : nat) : list str :=
  context_loop lines
    (range_down (Z.of_nat line_num - 1) (Z.max 0 (Z.of_nat line_num - 3))) [] 0.

(** [current_speaker or ''] *)
Definition speaker_or_empty (current_speaker : option str) : str :=
  match current_speaker with
  | Some s => s
  | None => []
  end.

(** The dict appended by the dialogue branch. *)
Definition dialogue_record (self : t) (lines : list str) (line_num : nat)
    (current_speaker : option str) (dialogue line : str) : pydict :=
  [ ("file"%string, VStr (filename self));
    ("line"%string, VInt (Z.of_nat line_num + 1));
    ("speaker"%string, VStr (speaker_or_empty current_speaker));
    ("text"%string, VStr dialogue);
    ("full_line"%string, VStr line);
    ("context"%string, VStr (join [NEWLINE] (build_context lines line_num)));
    ("scene"%string, VStr (_get_scene_header self)) ].

(** The dict appended by the narrative branch. *)
Definition narrative_record (self : t) (lines : list str) (line_num : nat)
    (cleaned_text line : str) : pydict :=
  [ ("file"%string, VStr (filename self));
    ("line"%string, VInt (Z.of_nat line_num + 1));
    ("speaker"%string, VStr []);
    ("text"%string, VStr cleaned_text);
    ("full_line"%string, VStr line);
    ("context"%string, VStr (join [NEWLINE] (build_context lines line_num)));
    ("scene"%string, VStr (_get_scene_header self));
    ("type"%string, VStr (lit "narrative")) ].

Definition TAGS : list str :=
  [ lit "<KW>"; lit "<WinClear>"; lit "<WinClear ON>"; lit "<WinClear OFF>";
    lit "</n>"; lit "<TW" ].

(** [for tag in [...]: cleaned_text = cleaned_text.replace(tag, '')] *)
Definition strip_tags (line : str) : str :=
  fold_left (fun cleaned_text tag => remove tag cleaned_text) TAGS line.

(** The variables of the loop in [extract_dialogue]. *)
Record state := {
  current_speaker : option str;
  current_context : list str;
  results : list pydict
}.

Definition init : state :=
  {| current_speaker := None; current_context := []; results := [] |}.

Definition is_speaker_line (line : str) : bool :=
  startswith [SPEAKER_OPEN] line && contains [SPEAKER_CLOSE] line.

Definition has_quotes (line : str) : bool :=
  contains [QUOTE_OPEN] line && contains [QUOTE_CLOSE] line.

(** What the dialogue branch appends for [line], if anything. *)
Definition dialogue_of (self : t) (lines : list str) (line_num : nat)
    (speaker : option str) (line : str) : option pydict :=
  let start := find [QUOTE_OPEN] line + 1 in
  let end_ := find [QUOTE_CLOSE] line in
  if (0 <? start) && (start <? end_) then
    let dialogue := strip (zslice line start end_) in
    if _has_japanese dialogue && (2 <=? length dialogue)%nat
    then Some (dialogue_record self lines line_num speaker dialogue line)
    else None
  else None.

(** What the narrative branch appends for [line], if anything. *)
Definition narrative_of (self : t) (lines : list str) (line_num : nat)
    (line : str) : option pydict :=
  let cleaned_text := strip (strip_tags line) in
  if (4 <=? length cleaned_text)%nat && (length cleaned_text <? 200)%nat
     && _has_japanese cleaned_text && negb (startswith (lit "[") cleaned_text)
  then Some (narrative_record self lines line_num cleaned_text line)
  else None.

Definition append_opt (l : list pydict) (o : option pydict) : list pydict :=
  match o with
  | Some r => l ++ [r]
  | None => l
  end.

(** One iteration of [for line_num, line in enumerate(lines)]. *)
Definition step (self : t) (lines : list str) (line_num : nat)
    (original_line : str) (st : state) : state :=
  let line := rstrip original_line in
  if is_speaker_line line then
    {| current_speaker := Some (strip_chars [SPEAKER_OPEN; SPEAKER_CLOSE] line);
       current_context :=
         current_context st
           ++ [lit "// Line " ++ str_of_nat line_num ++ lit ": " ++ line];
       results := results st |}
  else if has_quotes line then
    {| current_speaker := None;
       current_context := current_context st;
       results :=
         append_opt (results st)
           (dialogue_of self lines line_num (current_speaker st) line) |}
  else if negb (startswith (lit "//") line) && negb (startswith (lit "<") line)
          && negb (startswith [SPEAKER_OPEN] line) && _has_japanese line then
    {| current_speaker := current_speaker st;
       current_context := current_context st;
       results := append_opt (results st) (narrative_of self lines line_num line) |}
  else st.

(** The loop from line [line_num] on, [rest] being the lines not yet seen. *)
Fixpoint run (self : t) (lines : list str) (line_num : nat) (rest : list str)
    (st : state) : state :=
  match rest with
  | [] => st
  | line :: rest' => run self lines (S line_num) rest' (step self lines line_num line st)
  end.

Definition final_state (self : t) : state :=
  let lines := split NEWLINE (text_content self) in
  run self lines 0 lines init.

(** [self.extract_dialogue()] *)
Definition extract_dialogue (self : t) : list pydict := results (final_state self).

(** *** Definitions used to state the properties of the extractor *)

(** What one iteration appends to [results], given the speaker in force. *)
Definition emit (self : t) (lines : list str) (line_num : nat) (speaker : option str)
    (original_line : str) : option pydict :=
  let line := rstrip original_line in
  if is_speaker_line line then None
  else if has_quotes line then dialogue_of self lines line_num speaker line
  else if negb (startswith (lit "//") line) && negb (startswith (lit "<") line)
          && negb (startswith [SPEAKER_OPEN] line) && _has_japanese line
       then narrative_of self lines line_num line
       else None.

(** The speaker in force after one iteration. *)
Definition next_speaker (speaker : option str) (original_line : str) : option str :=
  let line := rstrip original_line in
  if is_speaker_line line then Some (strip_chars [SPEAKER_OPEN; SPEAKER_CLOSE] line)
  else if has_quotes line then None
  else speaker.

(** The state after the first [k] lines. *)
Definition state_after (self : t) (k : nat) : state :=
  let lines := split NEWLINE (text_content self) in
  run self lines 0 (take k lines) init.

(** A context line is kept when it is non-empty and is not a comment. *)
Definition qualifies (ctx_line : str) : bool :=
  negb (bool_decide (ctx_line = [])) && negb (startswith (lit "//") ctx_line).

(** The context in the words of the specification: the last two qualifying
    lines among all the lines before [line_num], however far back. *)
Definition spec_context (lines : list str) (line_num : nat) : list str :=
  let q := List.filter qualifies (map strip (take line_num lines)) in
  drop (length q - 2) q.

(** The three ranges named by the comment of [_has_japanese]: Hiragana,
    Katakana and Kanji. *)
Definition in_japanese_ranges (c : Z) : bool :=
  ((0x3040 <=? c) && (c <=? 0x309F)) || ((0x30A0 <=? c) && (c <=? 0x30FF))
  || ((0x4E00 <=? c) && (c <=? 0x9FFF)).

(** *** Sample texts *)

(** The text [「こんにちは」]. *)
Definition konnichiwa : str :=
  [QUOTE_OPEN; 0x3053; 0x3093; 0x306B; 0x3061; 0x306F; QUOTE_CLOSE].

(** [TATParser(text.encode('utf-8'), 'a.tat')] *)
Definition parser_of (text : str) : t := new (utf8_encode text) (lit "a.tat").

(** The text [｛N｝], a newline, and [「あ」]. *)
Definition named_short_quote : str :=
  [SPEAKER_OPEN; 78; SPEAKER_CLOSE; NEWLINE; QUOTE_OPEN; 0x3042; QUOTE_CLOSE].

(** Four lines: [a], a comment, an empty line, and [「こんにちは」]. *)
Definition far_context : str :=
  lit "a" ++ [NEWLINE] ++ lit "// c" ++ [NEWLINE] ++ [NEWLINE] ++ konnichiwa.

End TATParser.

(** ** [inflate], after RFC 1950 and RFC 1951

    [inflate] is a parameter of the body decoder. To evaluate the program on
    concrete bodies, this module gives an executable [inflate] for whole
    input buffers, following the order in which zlib consumes bits and
    reports errors. The fuel of its loops bounds their iterations: every
    iteration consumes at least one bit or records at least one code length. *)

Module Inflate.

Definition Z_DATA_ERROR : Z := -3.
Definition Z_NEED_DICT : Z := 2.

(** The input as a sequence of bits, least significant bit of each byte
    first. *)
Definition byte_bits (b : byte) : list bool :=
  map (fun i => Z.testbit (ord b) (Z.of_nat i)) (seq 0 8).

Definition bits_of (s : bytes) : list bool := flat_map byte_bits s.

(** An [n]-bit integer, least significant bit first; [None] when fewer than
    [n] bits are left. *)
Fixpoint read_bits (n : nat) (bs : list bool) : option (Z * list bool) :=
  match n with
  | O => Some (0, bs)
  | S n' =>
      match bs with
      | [] => None
      | b :: bs' =>
          match read_bits n' bs' with
          | Some (v, rest) => Some (Z.b2z b + 2 * v, rest)
          | None => None
          end
      end
  end.

(** Up to [n] whole bytes from a byte-aligned bit sequence. *)
Fixpoint read_bytes (n : nat) (bs : list bool) : bytes * list bool :=
  match n with
  | O => ([], bs)
  | S n' =>
      match read_bits 8 bs with
      | Some (v, rest) =>
          let '(out, rest') := read_bytes n' rest in (byte_of_Z v :: out, rest')
      | None => ([], bs)
      end
  end.

(** Drop the bits left in the current byte. *)
Definition align (bs : list bool) : list bool := drop (length bs mod 8) bs.

(** The Adler-32 checksum. *)
Definition adler32 (bs : bytes) : Z :=
  let '(a, b) :=
    fold_left (fun '(a, b) x =>
                 let a' := (a + ord x) mod 65521 in (a', (b + a') mod 65521))
              bs (1, 0) in
  b * 65536 + a.

(** *** Huffman codes *)

(** A canonical code: for each code length from 1 up to the longest one in
    use, the number of symbols of that length; and the symbols ordered by
    length, then by value. *)
Record code := { counts : list Z; symbols : list Z }.

Definition count_of (lens : list Z) (len : Z) : Z :=
  Z.of_nat (length (List.filter (fun l => l =? len) lens)).

Definition symbols_of (lens : list Z) (len : Z) : list Z :=
  map (fun p => Z.of_nat (fst p))
      (List.filter (fun p => snd p =? len) (combine (seq 0 (length lens)) lens)).

Definition max_len (lens : list Z) : Z := fold_left Z.max lens 0.

Definition lengths_upto (m : Z) : list Z := map (fun i => Z.of_nat i + 1) (seq 0 (Z.to_nat m)).

(** A code with no symbol still takes one bit before it is found invalid. *)
Definition code_of (lens : list Z) : code :=
  let m := max_len lens in
  if m =? 0 then {| counts := [0]; symbols := [] |}
  else {| counts := map (count_of lens) (lengths_upto m);
          symbols := flat_map (symbols_of lens) (lengths_upto m) |}.

(** The number of code words still free after assigning all lengths:
    negative when the lengths are over-subscribed, positive when the code is
    incomplete. *)
Definition left_over (lens : list Z) : Z :=
  fold_left (fun left len => 2 * left - count_of lens len) (lengths_upto 15) 1.

Definition over_subscribed (lens : list Z) : bool :=
  existsb (fun m => fold_left (fun left len => 2 * left - count_of lens len)
                              (lengths_upto m) 1 <? 0)
          (lengths_upto 15).

Inductive kind := CODES | LENS | DISTS.

(** [inflate_table]: [None] when zlib rejects the set of lengths. *)
Definition build (k : kind) (lens : list Z) : option code :=
  if max_len lens =? 0 then Some (code_of lens)
  else if over_subscribed lens then None
  else if (0 <? left_over lens)
          && (match k with CODES => true | _ => negb (max_len lens =? 1) end)
       then None
       else Some (code_of lens).

Inductive decoded :=
  | Symbol (sym : Z) (rest : list bool)
  | NeedInput
  | Invalid.

(** Decode one symbol, one bit at a time, first bit most significant. *)
Fixpoint decode_from (cnts : list Z) (syms : list Z) (c first index : Z)
    (bs : list bool) : decoded :=
  match cnts with
  | [] => Invalid
  | count :: cnts' =>
      match bs with
      | [] => NeedInput
      | b :: bs' =>
          let c := c + Z.b2z b in
          if c - count <? first
          then Symbol (nth (Z.to_nat (index + (c - first))) syms 0) bs'
          else decode_from cnts' syms (2 * c) (2 * (first + count)) (index + count) bs'
      end
  end.

Definition decode (h : code) (bs : list bool) : decoded :=
  decode_from (counts h) (symbols h) 0 0 0 bs.

(** *** Blocks *)

Definition LBASE : list Z :=
  [3; 4; 5; 6; 7; 8; 9; 10; 11; 13; 15; 17; 19; 23; 27; 31; 35; 43; 51; 59; 67; 83;
   99; 115; 131; 163; 195; 227; 258].
Definition LEXT : list nat :=
  [0; 0; 0; 0; 0; 0; 0; 0; 1; 1; 1; 1; 2; 2; 2; 2; 3; 3; 3; 3; 4; 4; 4; 4; 5; 5; 5; 5;
   0]%nat.
Definition DBASE : list Z :=
  [1; 2; 3; 4; 5; 7; 9; 13; 17; 25; 33; 49; 65; 97; 129; 193; 257; 385; 513; 769;
   1025; 1537; 2049; 3073; 4097; 6145; 8193; 12289; 16385; 24577].
Definition DEXT : list nat :=
  [0; 0; 0; 0; 1; 1; 2; 2; 3; 3; 4; 4; 5; 5; 6; 6; 7; 7; 8; 8; 9; 9; 10; 10; 11; 11;
   12; 12; 13; 13]%nat.
Definition ORDER : list nat :=
  [16; 17; 18; 0; 8; 7; 9; 6; 10; 5; 11; 4; 12; 3; 13; 2; 14; 1; 15]%nat.

Definition FIXED_LENS : list Z :=
  repeat 8 144 ++ repeat 9 112 ++ repeat 7 24 ++ repeat 8 8.
Definition FIXED_DISTS : list Z := repeat 5 32.

(** The state of decoding inside the blocks. The output is kept reversed. *)
Inductive step_result :=
  | Done (rout : bytes) (rest : list bool)
  | Short (rout : bytes)
  | Bad.

(** [len] bytes copied from [dist] bytes back, one at a time. *)
Fixpoint copy_match (len : nat) (dist : nat) (rout : bytes) : bytes :=
  match len with
  | O => rout
  | S len' => copy_match len' dist (nth (dist - 1) rout x00 :: rout)
  end.

(** The symbols of one compressed block, up to its end-of-block symbol. *)
Fixpoint symbols_loop (fuel : nat) (lit dist : code) (bs : list bool) (rout : bytes)
  : step_result :=
  match fuel with
  | O => Bad
  | S fuel' =>
      match decode lit bs with
      | NeedInput => Short rout
      | Invalid => Bad
      | Symbol sym bs1 =>
          if sym <? 256 then symbols_loop fuel' lit dist bs1 (byte_of_Z sym :: rout)
          else if sym =? 256 then Done rout bs1
          else if 286 <=? sym then Bad
          else
            let i := Z.to_nat (sym - 257) in
            match read_bits (nth i LEXT 0%nat) bs1 with
            | None => Short rout
            | Some (lx, bs2) =>
                match decode dist bs2 with
                | NeedInput => Short rout
                | Invalid => Bad
                | Symbol dsym bs3 =>
                    if 30 <=? dsym then Bad
                    else
                      let j := Z.to_nat dsym in
                      match read_bits (nth j DEXT 0%nat) bs3 with
                      | None => Short rout
                      | Some (dx, bs4) =>
                          let d := nth j DBASE 0 + dx in
                          if Z.of_nat (length rout) <? d then Bad
                          else symbols_loop fuel' lit dist bs4
                                 (copy_match (Z.to_nat (nth i LBASE 0 + lx)) (Z.to_nat d) rout)
                      end
                end
            end
      end
  end.

(** The code lengths of a dynamic block's header, read with the code-length
    code [cl]; [have] holds the lengths read so far, in reverse. A repeat of
    the previous length with no previous length, or a repeat running past
    [total], is invalid. When no code-length symbol has a code ([cl] is
    [None]), zlib reads each length as a zero on one bit. *)
Inductive lens_result :=
  | Lens (lens : list Z) (rest : list bool)
  | LensShort
  | LensBad.

Fixpoint read_lens (fuel : nat) (cl : option code) (total : nat) (have : list Z)
    (bs : list bool) : lens_result :=
  match fuel with
  | O => LensBad
  | S fuel' =>
      if (total <=? length have)%nat then Lens (rev have) bs
      else
        match cl with
        | None =>
            match bs with
            | [] => LensShort
            | _ :: bs' => read_lens fuel' cl total (0 :: have) bs'
            end
        | Some h =>
            match decode h bs with
            | NeedInput => LensShort
            | Invalid => LensBad
            | Symbol sym bs1 =>
                if sym <? 16 then read_lens fuel' cl total (sym :: have) bs1
                else
                  let '(nbits, base) :=
                    if sym =? 16 then (2%nat, 3)
                    else if sym =? 17 then (3%nat, 3) else (7%nat, 11) in
                  match read_bits nbits bs1 with
                  | None => LensShort
                  | Some (x, bs2) =>
                      if (sym =? 16) && bool_decide (have = []) then LensBad
                      else
                        let v := if sym =? 16 then hd 0 have else 0 in
                        let n := Z.to_nat (base + x) in
                        if (total <? length have + n)%nat then LensBad
                        else read_lens fuel' cl total (repeat v n ++ have) bs2
                  end
            end
        end
  end.

Fixpoint set_lens (order : list nat) (vals : list Z) (acc : list Z) : list Z :=
  match order, vals with
  | o :: order', v :: vals' => set_lens order' vals' (<[o := v]> acc)
  | _, _ => acc
  end.

Fixpoint read_many (n : nat) (width : nat) (bs : list bool)
  : option (list Z * list bool) :=
  match n with
  | O => Some ([], bs)
  | S n' =>
      match read_bits width bs with
      | None => None
      | Some (v, rest) =>
          match read_many n' width rest with
          | None => None
          | Some (vs, rest') => Some (v :: vs, rest')
          end
      end
  end.

(** The header of a dynamic block: the two codes, or why there are none. *)
Inductive header_result :=
  | Codes (lit dist : code) (rest : list bool)
  | HeaderShort
  | HeaderBad.

Definition dynamic_header (bs : list bool) : header_result :=
  match read_bits 14 bs with
  | None => HeaderShort
  | Some (v, bs1) =>
      let nlen := v mod 32 + 257 in
      let ndist := (v / 32) mod 32 + 1 in
      let ncode := (v / 1024) mod 16 + 4 in
      if (286 <? nlen) || (30 <? ndist) then HeaderBad
      else
        match read_many (Z.to_nat ncode) 3 bs1 with
        | None => HeaderShort
        | Some (vals, bs2) =>
            let cl_lens := set_lens ORDER vals (repeat 0 19) in
            match build CODES cl_lens with
            | None => HeaderBad
            | Some h =>
                let cl := if max_len cl_lens =? 0 then None else Some h in
                let total := Z.to_nat (nlen + ndist) in
                match read_lens (S total) cl total [] bs2 with
                | LensShort => HeaderShort
                | LensBad => HeaderBad
                | Lens lens bs3 =>
                    if nth 256 lens 0 =? 0 then HeaderBad
                    else
                      match build LENS (take (Z.to_nat nlen) lens),
                            build DISTS (drop (Z.to_nat nlen) lens) with
                      | Some lit, Some dist => Codes lit dist bs3
                      | _, _ => HeaderBad
                      end
                end
            end
        end
  end.

(** The blocks of a deflate stream. *)
Fixpoint blocks (fuel : nat) (bs : list bool) (rout : bytes) : step_result :=
  match fuel with
  | O => Bad
  | S fuel' =>
      match read_bits 3 bs with
      | None => Short rout
      | Some (v, bs1) =>
          let last := v mod 2 =? 1 in
          let continue (r : step_result) : step_result :=
            match r with
            | Done rout' rest => if last then Done rout' (align rest)
                                 else blocks fuel' rest rout'
            | other => other
            end in
          match v / 2 with
          | 0 =>
              match read_bits 32 (align bs1) with
              | None => Short rout
              | Some (w, bs2) =>
                  let len := w mod 65536 in
                  let nlen := w / 65536 in
                  if len + nlen =? 65535 then
                    let '(chunk, bs3) := read_bytes (Z.to_nat len) bs2 in
                    if (Z.of_nat (length chunk) <? len) then Short (rev chunk ++ rout)
                    else continue (Done (rev chunk ++ rout) bs3)
                  else Bad
              end
          | 1 =>
              continue (symbols_loop (S (length bs1)) (code_of FIXED_LENS)
                          (code_of FIXED_DISTS) bs1 rout)
          | 2 =>
              match dynamic_header bs1 with
              | HeaderShort => Short rout
              | HeaderBad => Bad
              | Codes lit dist bs2 =>
                  continue (symbols_loop (S (length bs2)) lit dist bs2 rout)
              end
          | _ => Bad
          end
      end
  end.

Definition raw (bs : list bool) : step_result := blocks (S (length bs)) bs [].

(** The zlib wrapper: the two header bytes (checked modulo 31, method 8,
    window at most 32 KiB, preset dictionary not supplied), the deflate
    stream, and the big-endian Adler-32 of the output. *)
Definition wrapped (bs : list bool) : inflate_outcome :=
  match read_bits 16 bs with
  | None => InputExhausted []
  | Some (v, bs1) =>
      let cmf := v mod 256 in
      let flg := v / 256 in
      if negb ((cmf * 256 + flg) mod 31 =? 0) then InflateError Z_DATA_ERROR
      else if negb (cmf mod 16 =? 8) then InflateError Z_DATA_ERROR
      else if 7 <? cmf / 16 then InflateError Z_DATA_ERROR
      else if (flg / 32) mod 2 =? 1 then
        match read_bits 32 bs1 with
        | None => InputExhausted []
        | Some _ => InflateError Z_NEED_DICT
        end
      else
        match raw bs1 with
        | Bad => InflateError Z_DATA_ERROR
        | Short rout => InputExhausted (rev rout)
        | Done rout rest =>
            match read_bytes 4 rest with
            | ([a3; a2; a1; a0], _) =>
                if ((ord a3 * 256 + ord a2) * 256 + ord a1) * 256 + ord a0
                   =? adler32 (rev rout)
                then StreamEnd (rev rout) else InflateError Z_DATA_ERROR
            | _ => InputExhausted (rev rout)
            end
        end
  end.

(** [inflate] for a whole buffer: raw deflate for a negative [wbits], the
    zlib format otherwise. *)
Definition inflate (wbits : Z) (s : bytes) : inflate_outcome :=
  if wbits <? 0 then
    match raw (bits_of s) with
    | Bad => InflateError Z_DATA_ERROR
    | Short rout => InputExhausted (rev rout)
    | Done rout _ => StreamEnd (rev rout)
    end
  else wrapped (bits_of s).

End Inflate.

(** A sample payload, and the stream [zlib.compress(b'hello')]. *)
Definition hello : bytes := list_byte_of_string "hello".

Definition hello_stream : bytes :=
  [x78; x9c; xcb; x48; xcd; xc9; xc9; x07; x00; x06; x2c; x02; x15].

(** ** [extract_game_files]: the parts that compute on values

    The function reads the two files of each volume, calls the three classes
    above and writes reports. Directory traversal, file writes and [print] are
    not modelled; the computations below are. *)

Module Orchestrator.

(** [b.decode('utf-8')] with the default strict error handling: [None] stands
    for the [UnicodeDecodeError] raised at the first invalid, overlong,
    surrogate or truncated sequence. *)
Fixpoint utf8_decode_strict (s : bytes) : option str :=
  match s with
  | [] => Some []
  | b1 :: s1 =>
      let c1 := ord b1 in
      if c1 <? 0x80 then cons c1 <$> utf8_decode_strict s1
      else if c1 <? 0xC2 then None
      else if c1 <? 0xE0 then
        match s1 with
        | b2 :: s2 =>
            let c2 := ord b2 in
            if is_cont c2
            then cons ((c1 - 0xC0) * 64 + (c2 - 0x80)) <$> utf8_decode_strict s2
            else None
        | [] => None
        end
      else if c1 <? 0xF0 then
        match s1 with
        | b2 :: b3 :: s3 =>
            let c2 := ord b2 in
            let c3 := ord b3 in
            if negb (is_cont c2)
               || (bool_decide (c1 = 0xE0) && (c2 <? 0xA0))
               || (bool_decide (c1 = 0xED) && (0xA0 <=? c2))
               || negb (is_cont c3)
            then None
            else cons ((c1 - 0xE0) * 4096 + (c2 - 0x80) * 64 + (c3 - 0x80))
                   <$> utf8_decode_strict s3
        | _ => None
        end
      else if c1 <? 0xF5 then
        match s1 with
        | b2 :: b3 :: b4 :: s4 =>
            let c2 := ord b2 in
            let c3 := ord b3 in
            let c4 := ord b4 in
            if negb (is_cont c2)
               || (bool_decide (c1 = 0xF0) && (c2 <? 0x90))
               || (bool_decide (c1 = 0xF4) && (0x90 <=? c2))
               || negb (is_cont c3) || negb (is_cont c4)
            then None
            else cons ((c1 - 0xF0) * 262144 + (c2 - 0x80) * 4096
                       + (c3 - 0x80) * 64 + (c4 - 0x80))
                   <$> utf8_decode_strict s4
        | _ => None
        end
      else None
  end.

(** [s.replace(old, new)] for one-character [old] and [new]. *)
Definition replace_char (old new : Z) (s : str) : str :=
  map (fun c => if bool_decide (c = old) then new else c) s.

(** [safe_filename = filename.replace('/', '_').replace('\\', '_')], then
    [if not safe_filename.endswith('.tat'): safe_filename += '.tat']. *)
Definition safe_filename (filename : str) : str :=
  let safe := replace_char 92 95 (replace_char 47 95 filename) in
  if endswith (lit ".tat") safe then safe else safe ++ lit ".tat".

(** [route = f['path'].split('/')[1]] when ['/' in f['path']], ['(root)']
    otherwise; [None] stands for an [IndexError]. *)
Definition route_of (path : str) : option str :=
  if contains (lit "/") path then split 47 path !! 1%nat
  else Some (lit "(root)").

(** [f"{pos:06x}"]: lower-case hexadecimal, at least six digits. *)
Definition hex_digit (n : nat) : Z :=
  if (n <? 10)%nat then 48 + Z.of_nat n else 87 + Z.of_nat n.

Fixpoint hex_digits (fuel n : nat) (acc : str) : str :=
  match fuel with
  | O => acc
  | S fuel' =>
      let acc' := hex_digit (n mod 16) :: acc in
      if (n <? 16)%nat then acc' else hex_digits fuel' (n / 16) acc'
  end.

Definition hex6 (n : nat) : str :=
  let h := hex_digits (S n) n [] in
  repeat 48 (6 - length h) ++ h.

(** The line written for a run of text found at [pos]:
    [f"0x{pos:06x}: {text}\n"]. *)
Definition inspect_line (pos : nat) (text : str) : str :=
  lit "0x" ++ hex6 pos ++ lit ": " ++ text ++ [10].

(** [while end < len(d) and d[end] != 0: end += 1] *)
Definition scan_nul (d : bytes) (start : nat) : nat :=
  while (length d)
        (fun e => (e <? length d)%nat
                  && negb (bool_decide (ord <$> d !! e = Some 0)))
        (fun e => (e + 1)%nat) start.

(** [any(0x3040 <= ord(c) <= 0x9FFF for c in text)] *)
Definition any_japanese (text : str) : bool :=
  existsb (fun c => (0x3040 <=? c) && (c <=? 0x9FFF)) text.

(** One iteration of the loop that lists printable strings, on the state
    [(pos, lines written so far)]. Whatever is raised inside the [try] (a
    [UnicodeDecodeError]) is caught by [except: pos += 1]. *)
Definition inspect_step (d : bytes) (st : nat * list str) : nat * list str :=
  let '(pos, written) := st in
  match d !! pos with
  | Some b =>
      if 0xE0 <=? ord b then
        let e := scan_nul d pos in
        if (3 <? Z.of_nat e - Z.of_nat pos) then
          match utf8_decode_strict (slice d pos e) with
          | Some text =>
              (e, if any_japanese text then written ++ [inspect_line pos text]
                  else written)
          | None => ((pos + 1)%nat, written)
          end
        else (e, written)
      else ((pos + 1)%nat, written)
  | None => ((pos + 1)%nat, written)
  end.

(** [while pos < len(decompressed) - 20: ...], from [pos = 0]. *)
Definition inspect_run (d : bytes) : nat * list str :=
  while (length d)
        (fun st => Z.of_nat (fst st) <? Z.of_nat (length d) - 20)
        (inspect_step d) (0%nat, []).

(** The lines written under "Printable strings:". *)
Definition inspect_lines (d : bytes) : list str := snd (inspect_run d).

(** *** Definitions used to state the properties of the inspection loop *)

(** What stands behind a line written by the inspection loop. *)
Definition reported (d : bytes) (line : str) : Prop :=
  exists (pos e : nat) (b : byte) (text : str),
    line = inspect_line pos text /\
    (Z.of_nat pos < Z.of_nat (length d) - 20) /\
    d !! pos = Some b /\ 0xE0 <= ord b /\
    e = scan_nul d pos /\ (pos + 4 <= e <= length d)%nat /\
    (forall k, (pos <= k < e)%nat -> d !! k <> Some x00) /\
    utf8_decode_strict (slice d pos e) = Some text /\
    utf8_decode_ignore (slice d pos e) = text /\
    any_japanese text = true.

End Orchestrator.

(** ** Further definitions used to state properties *)

Section IndexSamples.
Import MemFSParser.

(** The accepted paths with the end of the bytes each one consumed: they
    follow each other without overlap, and the scan has passed them. *)
Definition paths_ordered (data : bytes) (st : nat * list (nat * str)) : Prop :=
  (forall i P p P' p', snd st !! i = Some (P, p) -> snd st !! S i = Some (P', p') ->
                       (path_end data P <= P')%nat) /\
  (forall P p, (P, p) ∈ snd st -> (path_end data P <= fst st)%nat).

(** An index of 16 zero bytes followed by the paths [/a.tat] and [/b.json] in
    UTF-16LE, each closed by a two-byte terminator. *)
Definition sample_index : bytes :=
  repeat x00 16
  ++ [x2f; x00; x61; x00; x2e; x00; x74; x00; x61; x00; x74; x00] ++ [x00; x00]
  ++ [x2f; x00; x62; x00; x2e; x00; x6a; x00; x73; x00; x6f; x00; x6e; x00]
  ++ [x00; x00].

End IndexSamples.

Section DialogueSamples.
Import TATParser.

(** Strictly increasing line numbers. *)
Definition increasing (ks : list nat) : Prop :=
  forall i j a b, (i < j)%nat -> ks !! i = Some a -> ks !! j = Some b -> (a < b)%nat.

(** The text [｛Name｝], a newline, and [「こんにちは」<KW>]. *)
Definition named_greeting : str :=
  [SPEAKER_OPEN] ++ lit "Name" ++ [SPEAKER_CLOSE; NEWLINE] ++ konnichiwa ++ lit "<KW>".

(** Three lines of ASCII text: a scene header, tagged text and a comment. *)
Definition ascii_script : str :=
  lit "[A_TOP]" ++ [NEWLINE] ++ lit "<KW> plain text, no kana" ++ [NEWLINE]
  ++ lit "// comment".

(** [text.replace('\n', '\r\n')]: the same text with Windows line endings. *)
Definition to_crlf (text : str) : str :=
  flat_map (fun c => if bool_decide (c = NEWLINE) then [13; NEWLINE] else [c]) text.

(** A line, or the same line followed by a carriage return. *)
Definition same_line (l' l : str) : Prop := l' = l \/ l' = l ++ [13].

End DialogueSamples.

(** * Properties *)

(** ** Loops and slices *)

Section While.
Context {S : Type} (cond : S -> bool) (body : S -> S).

(** The invariant rule with a variant: when every iteration keeps [I] and
    lowers the measure, a fuel at least the initial measure runs the loop to
    the point where its condition fails. *)
Lemma while_rule (I : S -> Prop) (m : S -> nat) :
  (forall s, I s -> cond s = true -> I (body s) /\ (m (body s) < m s)%nat) ->
  forall fuel s, I s -> (m s <= fuel)%nat ->
    I (while fuel cond body s) /\ cond (while fuel cond body s) = false.
Proof.
  intros Hstep fuel. induction fuel as [|fuel IH]; intros s HI Hm; simpl.
  - split; [done|]. destruct (cond s) eqn:Hc; [|done].
    destruct (Hstep s HI Hc) as [_ Hlt]. lia.
  - destruct (cond s) eqn:Hc; [|done].
    destruct (Hstep s HI Hc) as [HI' Hlt]. apply IH; [done|lia].
Qed.
End While.

Lemma slice_one {A} (l : list A) (i : nat) (x : A) :
  slice l i (i + 1) = [x] <-> l !! i = Some x.
Proof.
  unfold slice. replace (i + 1 - i)%nat with 1%nat by lia.
  assert (l !! i = drop i l !! 0%nat) as ->
    by (rewrite lookup_drop; f_equal; lia).
  destruct (drop i l) as [|y t]; simpl; [naive_solver|].
  rewrite take_0. naive_solver.
Qed.

Lemma slice_length {A} (l : list A) (i j : nat) :
  (i <= j)%nat -> (j <= length l)%nat -> length (slice l i j) = (j - i)%nat.
Proof. intros. unfold slice. rewrite length_take, length_drop. lia. Qed.

Lemma slice_lookup {A} (l : list A) (i j k : nat) :
  (k < j - i)%nat -> slice l i j !! k = l !! (i + k)%nat.
Proof. intros. unfold slice. rewrite lookup_take_lt by done. apply lookup_drop. Qed.

(** ** Text: searching and decoding *)

Lemma startswith_spec p s : startswith p s = true <-> exists post, s = p ++ post.
Proof.
  revert s. induction p as [|a p IH]; intros s; simpl.
  - split; eauto.
  - destruct s as [|b s]; simpl.
    + split; [done|]. by intros [? ?].
    + rewrite andb_true_iff, bool_decide_eq_true, IH. split.
      * intros [-> [post ->]]. eauto.
      * intros [post [= -> ->]]. eauto.
Qed.

Lemma contains_spec p s :
  contains p s = true <-> exists pre post, s = pre ++ p ++ post.
Proof.
  induction s as [|b s IH]; simpl.
  - rewrite orb_false_r, startswith_spec. split.
    + intros [post ->]. by exists [], post.
    + intros (pre & post & H). symmetry in H.
      apply app_eq_nil in H as [-> H]. eauto.
  - rewrite orb_true_iff, startswith_spec, IH. split.
    + intros [[post ->]|(pre & post & ->)]; [by exists [], post|by exists (b :: pre), post].
    + intros ([|b' pre] & post & H); simpl in H; [eauto|].
      injection H as -> ->. eauto.
Qed.

Lemma endswith_spec p s : endswith p s = true <-> exists pre, s = pre ++ p.
Proof.
  unfold endswith. rewrite startswith_spec. split.
  - intros [post H]. exists (rev post).
    apply (f_equal (@rev Z)) in H. by rewrite rev_involutive, rev_app_distr, rev_involutive in H.
  - intros [pre ->]. exists (rev pre). by rewrite rev_app_distr.
Qed.

(** When the last code point of [p] occurs in [s] only at the very end, [p]
    can occur in [s] only as a suffix. *)
Lemma contains_endswith p' s' c :
  c ∉ s' -> contains (p' ++ [c]) (s' ++ [c]) = endswith (p' ++ [c]) (s' ++ [c]).
Proof.
  intros Hc. apply eq_true_iff_eq. rewrite contains_spec, endswith_spec. split.
  - intros (pre & post & H). exists pre.
    destruct post as [|x post _] using rev_ind; [by rewrite app_nil_r in H|].
    exfalso. apply Hc.
    rewrite !app_assoc in H. apply app_inj_tail in H as [-> _].
    rewrite !elem_of_app, list_elem_of_singleton. auto.
  - intros [pre H]. exists pre, []. by rewrite app_nil_r.
Qed.

Ltac chunk_skip n :=
  exists n, []; simpl; rewrite ?take_0, ?drop_0;
  split; [lia|]; split; [done|]; right;
  split; [repeat constructor; unfold is_cont in *; lia|constructor].
Ltac chunk_emit n :=
  exists n; eexists [_]; simpl; rewrite ?take_0, ?drop_0;
  split; [lia|]; split; [done|]; right;
  split; repeat constructor; unfold is_cont in *; lia.

(** One step of the decoder: it consumes [n >= 1] bytes and emits either the
    single ASCII byte it consumed, or, from bytes that are all outside ASCII,
    at most one code point outside ASCII. *)
Lemma utf8_decode_chunk s :
  s <> [] ->
  exists n out,
    (0 < n <= length s)%nat /\
    utf8_decode_ignore s = out ++ utf8_decode_ignore (drop n s) /\
    ((exists b, take n s = [b] /\ ord b < 128 /\ out = [ord b]) \/
     (Forall (fun b => 128 <= ord b) (take n s) /\ Forall (fun c => 128 <= c) out)).
Proof.
  destruct s as [|b1 s1]; [done|]. intros _.
  cbn [utf8_decode_ignore]. cbv zeta.
  destruct (ord b1 <? 128) eqn:H1.
  { exists 1%nat, [ord b1]. simpl. split; [lia|]. split; [done|].
    left. exists b1. rewrite take_0. repeat split. lia. }
  apply Z.ltb_ge in H1.
  destruct (ord b1 <? 194) eqn:H2; [chunk_skip 1%nat|].
  apply Z.ltb_ge in H2.
  destruct (ord b1 <? 224) eqn:H3.
  { destruct s1 as [|b2 s2]; [chunk_skip 1%nat|].
    destruct (is_cont (ord b2)) eqn:Hc2; [|chunk_skip 1%nat].
    apply andb_true_iff in Hc2 as [Ha Hb]. apply Z.leb_le in Ha.
    chunk_emit 2%nat. }
  apply Z.ltb_ge in H3.
  destruct (ord b1 <? 240) eqn:H4.
  { destruct s1 as [|b2 s2]; [chunk_skip 1%nat|].
    destruct (negb (is_cont (ord b2)) || _ || _) eqn:Hbad; [chunk_skip 1%nat|].
    apply orb_false_iff in Hbad as [Hbad Hed].
    apply orb_false_iff in Hbad as [Hc2 He0].
    apply negb_false_iff, andb_true_iff in Hc2 as [Ha Hb]. apply Z.leb_le in Ha.
    assert (ord b1 = 224 -> 160 <= ord b2) as Hlow.
    { intros Heq. apply andb_false_iff in He0 as [He0|He0].
      - by apply bool_decide_eq_false in He0.
      - by apply Z.ltb_ge in He0. }
    destruct s2 as [|b3 s3]; [chunk_skip 2%nat|].
    destruct (is_cont (ord b3)) eqn:Hc3; [|chunk_skip 2%nat].
    apply andb_true_iff in Hc3 as [Ha3 Hb3]. apply Z.leb_le in Ha3.
    chunk_emit 3%nat. }
  apply Z.ltb_ge in H4.
  destruct (ord b1 <? 245) eqn:H5; [|chunk_skip 1%nat].
  destruct s1 as [|b2 s2]; [chunk_skip 1%nat|].
  destruct (negb (is_cont (ord b2)) || _ || _) eqn:Hbad; [chunk_skip 1%nat|].
  apply orb_false_iff in Hbad as [Hbad Hed].
  apply orb_false_iff in Hbad as [Hc2 He0].
  apply negb_false_iff, andb_true_iff in Hc2 as [Ha Hb]. apply Z.leb_le in Ha.
  assert (ord b1 = 240 -> 144 <= ord b2) as Hlow.
  { intros Heq. apply andb_false_iff in He0 as [He0|He0].
    - by apply bool_decide_eq_false in He0.
    - by apply Z.ltb_ge in He0. }
  destruct s2 as [|b3 s3]; [chunk_skip 2%nat|].
  destruct (is_cont (ord b3)) eqn:Hc3; [|chunk_skip 2%nat].
  apply andb_true_iff in Hc3 as [Ha3 Hb3]. apply Z.leb_le in Ha3.
  destruct s3 as [|b4 s4]; [chunk_skip 3%nat|].
  destruct (is_cont (ord b4)) eqn:Hc4; [|chunk_skip 3%nat].
  apply andb_true_iff in Hc4 as [Ha4 Hb4]. apply Z.leb_le in Ha4.
  chunk_emit 4%nat.
Qed.

(** A final ASCII byte is always decoded, as the last code point of the text;
    every ASCII code point before it stems from a byte of that value. *)
Lemma utf8_decode_snoc_ascii s b :
  ord b < 128 ->
  exists t, utf8_decode_ignore (s ++ [b]) = t ++ [ord b] /\
            forall c, c ∈ t -> c < 128 -> exists b', b' ∈ s /\ ord b' = c.
Proof.
  intros Hb. remember (length s) as len eqn:Hlen.
  revert s Hlen. induction len as [len IH] using lt_wf_ind. intros s ->.
  destruct (utf8_decode_chunk (s ++ [b])) as (n & out & Hn & Hdec & Hcase);
    [by destruct s|].
  rewrite Hdec. destruct Hcase as [(b0 & Htake & Hb0 & ->)|[Hin Hout]].
  - assert (n = 1%nat) as ->.
    { apply (f_equal length) in Htake. rewrite length_take in Htake.
      simpl in Htake. lia. }
    destruct s as [|b1 s1]; cbn [app take drop] in *; rewrite ?take_0, ?drop_0 in *;
      simplify_eq.
    + exists []. split; [done|]. intros c Hc. by apply elem_of_nil in Hc.
    + destruct (IH (length s1)) with (s := s1) as (t & -> & Ht); [simpl; lia|done|].
      exists (ord b0 :: t). split; [done|].
      intros c Hc Hlt. apply elem_of_cons in Hc as [->|Hc].
      * exists b0. split; [apply list_elem_of_here|done].
      * destruct (Ht c Hc Hlt) as (b' & Hb' & <-).
        exists b'. split; [by apply list_elem_of_further|done].
  - assert (n <= length s)%nat as Hle.
    { destruct (decide (n <= length s)%nat) as [|Hgt]; [done|]. exfalso.
      rewrite list.Forall_forall in Hin.
      assert (128 <= ord b); [|lia]. apply Hin.
      apply list_elem_of_lookup. exists (length s).
      rewrite lookup_take_lt by lia. by apply list_lookup_middle. }
    rewrite drop_app_le by done.
    destruct (IH (length (drop n s))) with (s := drop n s) as (t & -> & Ht);
      [rewrite length_drop; lia|done|].
    exists (out ++ t). split; [by rewrite app_assoc|].
    intros c Hc Hlt. apply elem_of_app in Hc as [Hc|Hc].
    + rewrite list.Forall_forall in Hout. specialize (Hout c Hc). lia.
    + destruct (Ht c Hc Hlt) as (b' & Hb' & <-).
      exists b'. split; [|done].
      rewrite <- (take_drop n s). apply elem_of_app. by right.
Qed.

Lemma ord_inj b b' : ord b = ord b' -> b = b'.
Proof.
  unfold ord. intros H. apply N2Z.inj in H.
  apply (f_equal Byte.of_N) in H. rewrite !Byte.of_to_N in H. by simplify_eq.
Qed.

(** ** The scene splitter *)

Section Splitter.
Import MemFSParser MemBodyExtractor.
Implicit Types (d : bytes) (files : list IndexEntry) (st : split_state).

(** [scan_close] stops at the first close bracket at or after [start], or at
    the end of the data. *)
Lemma scan_close_spec d start :
  let e := scan_close d start in
  (start <= e)%nat /\
  (forall k, (start <= k < e)%nat -> d !! k <> Some "]"%byte) /\
  ((e < length d)%nat -> d !! e = Some "]"%byte) /\
  ((start <= length d)%nat -> (e <= length d)%nat).
Proof.
  unfold scan_close.
  set (cond := fun e : nat => _).
  destruct (while_rule cond (fun e => (e + 1)%nat)
              (fun e => (start <= e)%nat /\
                        (forall k, (start <= k < e)%nat -> d !! k <> Some "]"%byte) /\
                        ((start <= length d)%nat -> (e <= length d)%nat))
              (fun e => (length d - e)%nat)) with (fuel := length d) (s := start)
    as [(H1 & H2 & H3) Hc].
  - intros e (Hle & Hno & Hlen) Hcond. unfold cond in Hcond.
    apply andb_true_iff in Hcond as [Hlt Hne].
    apply Nat.ltb_lt in Hlt. apply negb_true_iff, bool_decide_eq_false in Hne.
    unfold RBRACKET in Hne. rewrite slice_one in Hne.
    split; [|lia]. split; [lia|]. split; [|lia].
    intros k Hk. destruct (decide (k = e)) as [->|]; [done|]. apply Hno. lia.
  - split; [lia|]. split; [intros; lia|done].
  - lia.
  - cbv zeta. set (e := while _ _ _ _) in *.
    split; [done|]. split; [done|]. split; [|done].
    intros Hlt. unfold cond in Hc. apply andb_false_iff in Hc as [Hc|Hc].
    + apply Nat.ltb_ge in Hc. lia.
    + apply negb_false_iff, bool_decide_eq_true in Hc. unfold RBRACKET in Hc. by apply slice_one in Hc.
Qed.

(** The two scans test scene headers in the same way. *)
Lemma next_scene_at_opens d p :
  next_scene_at d p = bool_decide (is_Some (opens_scene d p)).
Proof.
  unfold next_scene_at, opens_scene.
  repeat case_match; simplify_eq; symmetry;
    try (apply bool_decide_eq_true; eauto; fail);
    apply bool_decide_eq_false; by intros [? ?].
Qed.

Lemma opens_scene_bounds d p e h :
  opens_scene d p = Some (e, h) ->
  (p < e < length d)%nat /\ d !! p = Some "["%byte /\ d !! e = Some "]"%byte /\
  e = scan_close d (p + 1) /\ h = utf8_decode_ignore (slice d p (e + 1)) /\
  is_scene_header h = true.
Proof.
  unfold opens_scene. intros H.
  destruct (bool_decide _) eqn:Hb; [|done].
  apply bool_decide_eq_true in Hb. unfold LBRACKET in Hb. apply slice_one in Hb.
  destruct (_ <? _)%nat eqn:Hlt; [|done]. apply Nat.ltb_lt in Hlt.
  destruct (is_scene_header _) eqn:Hs; [|done]. simplify_eq.
  destruct (scan_close_spec d (p + 1)) as (H1 & H2 & H3 & H4).
  repeat split; try done; try lia. by apply H3.
Qed.

Lemma scan_next_spec d start :
  (start <= length d)%nat ->
  let p := scan_next d start in
  (start <= p <= length d)%nat /\
  (forall k, (start <= k < p)%nat -> opens_scene d k = None) /\
  ((p < length d)%nat -> is_Some (opens_scene d p)).
Proof.
  intros Hstart. unfold scan_next.
  set (cond := fun p : nat => _).
  destruct (while_rule cond (fun p => (p + 1)%nat)
              (fun p => (start <= p <= length d)%nat /\
                        (forall k, (start <= k < p)%nat -> opens_scene d k = None))
              (fun p => (length d - p)%nat)) with (fuel := length d) (s := start)
    as [(H1 & H2) Hc].
  - intros p (Hle & Hno) Hcond. unfold cond in Hcond.
    apply andb_true_iff in Hcond as [Hlt Hne].
    apply Nat.ltb_lt in Hlt. apply negb_true_iff in Hne.
    rewrite next_scene_at_opens in Hne. apply bool_decide_eq_false in Hne.
    split; [|lia]. split; [lia|].
    intros k Hk. destruct (decide (k = p)) as [->|]; [|apply Hno; lia].
    destruct (opens_scene d p); [|done]. exfalso; eauto.
  - split; [lia|]. intros; lia.
  - lia.
  - cbv zeta. set (q := while _ _ _ _) in *.
    split; [done|]. split; [done|].
    intros Hlt. unfold cond in Hc. apply andb_false_iff in Hc as [Hc|Hc].
    + apply Nat.ltb_ge in Hc. lia.
    + apply negb_false_iff in Hc. rewrite next_scene_at_opens in Hc.
      by apply bool_decide_eq_true in Hc.
Qed.
End Splitter.

Section SplitterLoop.
Import MemFSParser MemBodyExtractor.
Implicit Types (d : bytes) (files : list IndexEntry) (st : split_state).

Lemma chain_le a segs b : chain a segs b -> (a <= b)%nat.
Proof. induction 1; lia. Qed.

Lemma chain_snoc a segs b s :
  chain a segs b -> startOffset s = b -> (startOffset s < endOffset s)%nat ->
  chain a (segs ++ [s]) (endOffset s).
Proof.
  induction 1 as [a|s' segs b Hlt Hch IH]; intros Hs Hlt'; simpl.
  - subst a. by repeat constructor.
  - constructor; [done|]. by apply IH.
Qed.

Lemma chain_head a segs b s : chain a segs b -> hd_error segs = Some s -> startOffset s = a.
Proof. destruct 1; simpl; naive_solver. Qed.

Lemma chain_last a segs b s : chain a segs b -> list.last segs = Some s -> endOffset s = b.
Proof.
  induction 1 as [a|s' segs b Hlt Hch IH]; [done|].
  destruct segs as [|s'' segs]; simpl in *.
  - inversion Hch; naive_solver.
  - apply IH.
Qed.

Lemma chain_adjacent a segs b i s s' :
  chain a segs b -> segs !! i = Some s -> segs !! S i = Some s' ->
  endOffset s = startOffset s'.
Proof.
  intros Hch. revert i. induction Hch as [a|s0 segs b Hlt Hch IH]; intros i Hi Hi'; [done|].
  destruct i as [|i]; simpl in *.
  - simplify_eq. symmetry. eapply chain_head; [done|]. by destruct segs; simplify_eq.
  - eauto.
Qed.

Lemma chain_cover a segs b k :
  chain a segs b ->
  (exists s, s ∈ segs /\ (startOffset s <= k < endOffset s)%nat) <-> (a <= k < b)%nat.
Proof.
  induction 1 as [a|s0 segs b Hlt Hch IH].
  - split; [|lia]. intros (s & Hs & _). by apply elem_of_nil in Hs.
  - apply chain_le in Hch as Hle. split.
    + intros (s & Hs & Hk). apply elem_of_cons in Hs as [->|Hs]; [lia|].
      assert (endOffset s0 <= k < b)%nat by (apply IH; eauto). lia.
    + intros Hk. destruct (decide (k < endOffset s0)%nat).
      * exists s0. split; [apply elem_of_cons; by left|lia].
      * destruct IH as [_ IH]. destruct IH as (s & Hs & Hk'); [lia|].
        exists s. split; [apply elem_of_cons; by right|done].
Qed.

Lemma split_init_inv d files : split_inv d files (split_init d).
Proof.
  unfold split_inv, split_init; simpl. repeat split; try done.
  - case_bool_decide as Hb; [|lia].
    apply (f_equal length) in Hb. unfold slice in Hb.
    rewrite length_take, length_drop in Hb. change (length BOM) with 3%nat in Hb. lia.
  - intros k Hk. case_bool_decide as Hb; [|lia].
    unfold opens_scene. case_bool_decide as Hk'; [|done]. exfalso.
    unfold LBRACKET in Hk'. apply slice_one in Hk'.
    assert (slice d 0 3 !! k = d !! k) as Hl by (apply (slice_lookup d 0 3 k); lia).
    rewrite Hb in Hl. pose proof (eq_trans Hl Hk') as Hx.
    destruct k as [|[|[|k]]]; simpl in Hx; try done; lia.
Qed.

Lemma split_step_inv d files st :
  split_inv d files st -> (pos st <? length d)%nat = true ->
  split_inv d files (split_step d files st) /\
  (length d - pos (split_step d files st) < length d - pos st)%nat.
Proof.
  intros (Hpos & Hall & Hres & Hhead) Hlt. apply Nat.ltb_lt in Hlt.
  unfold split_step. destruct (opens_scene d (pos st)) as [[e h]|] eqn:Hopen.
  - apply opens_scene_bounds in Hopen as Hb. destruct Hb as (Hpe & _).
    destruct (scan_next_spec d (e + 1)) as (Hn1 & Hn2 & Hn3); [lia|].
    set (next_pos := scan_next d (e + 1)) in *.
    set (s := Build_segment _ _ _ _ _).
    assert (scene_of d files s) as Hs by (exists e; by repeat split).
    split; [|simpl; lia].
    unfold split_inv; simpl. split; [lia|]. split; [by apply Forall_app_2; [|constructor]|].
    split; [unfold store; by rewrite Hres, fold_left_app|].
    destruct (found st) as [|s0 segs] eqn:Hf; simpl in *.
    + destruct Hhead as [_ Hnone]. split; [done|]. split; [|done].
      apply (chain_snoc (pos st) [] (pos st) s); [constructor|done|simpl; lia].
    + destruct Hhead as (Hnone & Hch & _). split; [done|]. split; [|done].
      apply (chain_snoc (startOffset s0) (s0 :: segs) (pos st) s); [done|done|simpl; lia].
  - split; [|simpl; lia]. unfold split_inv; simpl.
    split; [lia|]. split; [done|]. split; [done|].
    destruct (hd_error (found st)) as [s0|] eqn:Hh.
    + destruct Hhead as (_ & _ & Hsome). destruct (Hsome Hlt) as [? ?]; congruence.
    + destruct Hhead as [Hnil Hnone]. split; [done|].
      intros k Hk. destruct (decide (k = pos st)) as [->|]; [done|]. apply Hnone. lia.
Qed.

Lemma split_run_inv d files :
  split_inv d files (split_run d files) /\ pos (split_run d files) = length d.
Proof.
  unfold split_run.
  destruct (while_rule (fun st => (pos st <? length d)%nat) (split_step d files)
              (split_inv d files) (fun st => (length d - pos st)%nat))
    with (fuel := length d) (s := split_init d) as [Hinv Hc].
  - intros st Hi Hcond. by apply split_step_inv.
  - apply split_init_inv.
  - lia.
  - split; [done|]. apply Nat.ltb_ge in Hc. destruct Hinv as [? _]. lia.
Qed.


Lemma store_snoc segs s :
  store (segs ++ [s]) = <[resolvedFilename s := rawBytes s]> (store segs).
Proof. unfold store. by rewrite fold_left_app. Qed.

Lemma store_lookup segs name :
  store segs !! name
  = rawBytes <$> list.last (filter (fun s => resolvedFilename s = name) segs).
Proof.
  induction segs as [|s segs IH] using rev_ind; [done|].
  rewrite store_snoc, list.filter_app, list.filter_cons, list.filter_nil.
  destruct (decide (resolvedFilename s = name)) as [Heq|Hne].
  - rewrite last_snoc. subst name. by rewrite lookup_insert_eq.
  - rewrite app_nil_r, lookup_insert_ne by done. apply IH.
Qed.

Lemma store_size segs : (size (store segs) <= length segs)%nat.
Proof.
  induction segs as [|s segs IH] using rev_ind; [done|].
  rewrite store_snoc, length_app, map_size_insert. simpl.
  destruct (store segs !! resolvedFilename s); unfold id; lia.
Qed.

Lemma store_size_collision segs i j s s' :
  (i < j)%nat -> segs !! i = Some s -> segs !! j = Some s' ->
  resolvedFilename s = resolvedFilename s' ->
  (size (store segs) < length segs)%nat.
Proof.
  revert i j s s'. induction segs as [|s1 segs IH] using rev_ind; [done|].
  intros i j s s' Hij Hi Hj Heq.
  rewrite store_snoc, length_app, map_size_insert. simpl.
  pose proof (store_size segs) as Hsz.
  apply lookup_lt_Some in Hj as Hjlen. rewrite length_app in Hjlen. simpl in Hjlen.
  destruct (decide (j = length segs)) as [->|Hne].
  - rewrite lookup_app_l in Hi by lia.
    rewrite list_lookup_middle in Hj by done. simplify_eq.
    assert (is_Some (store segs !! resolvedFilename s')) as [v Hv].
    { rewrite store_lookup, <- Heq, fmap_is_Some.
      destruct (list.last (filter _ segs)) eqn:Hl; [done|].
      apply last_None in Hl.
      assert (s ∈ filter (fun s0 => resolvedFilename s0 = resolvedFilename s) segs) as Hin
        by (apply list_elem_of_filter; split; [done|by eapply list_elem_of_lookup_2]).
      rewrite Hl in Hin. by apply elem_of_nil in Hin. }
    rewrite Hv. unfold id. lia.
  - rewrite lookup_app_l in Hi by lia. rewrite lookup_app_l in Hj by lia.
    specialize (IH i j s s' Hij Hi Hj Heq).
    destruct (store segs !! resolvedFilename s1); unfold id; lia.
Qed.

Lemma slice_snoc {A} (l : list A) (i j : nat) (x : A) :
  (i <= j)%nat -> l !! j = Some x -> slice l i (j + 1) = slice l i j ++ [x].
Proof.
  intros Hij Hx. unfold slice.
  replace (j + 1 - i)%nat with (S (j - i)) by lia.
  apply take_S_r. rewrite lookup_drop. rewrite <- Hx. f_equal. lia.
Qed.

Lemma marker_scan_close d p e text : marker d p e text -> scan_close d (p + 1) = e.
Proof.
  intros (Hp & Hpe & He & Hno & _).
  destruct (scan_close_spec d (p + 1)) as (H1 & H2 & H3 & H4).
  set (e' := scan_close d (p + 1)) in *.
  destruct (Nat.lt_trichotomy e' e) as [Hlt|[Heq|Hgt]]; [|done|].
  - exfalso. apply (Hno e'); [lia|]. apply H3. lia.
  - exfalso. apply (H2 e); [lia|done].
Qed.

Lemma opens_scene_marker d p e text :
  opens_scene d p = Some (e, text) -> marker d p e text.
Proof.
  intros H. apply opens_scene_bounds in H as (Hpe & Hp & He & -> & -> & _).
  destruct (scan_close_spec d (p + 1)) as (H1 & H2 & H3 & H4).
  repeat split; try done; try lia. intros k Hk. apply H2. lia.
Qed.

(** The decoded text of a marker has its only close bracket at the end. *)
Lemma marker_text d p e text :
  marker d p e text -> exists t, text = t ++ [93] /\ 93 ∉ t.
Proof.
  intros (Hp & Hpe & He & Hno & ->).
  rewrite (slice_snoc d p e "]"%byte) by (done || lia).
  destruct (utf8_decode_snoc_ascii (slice d p e) "]"%byte) as (t & Ht & Hasc); [done|].
  exists t. split; [done|]. intros Hin.
  destruct (Hasc 93 Hin) as (b' & Hb' & Hord); [lia|].
  apply (ord_inj b' "]"%byte) in Hord. subst b'.
  apply list_elem_of_lookup in Hb' as [k Hk].
  assert (k < e - p)%nat as Hlt.
  { apply lookup_lt_Some in Hk. rewrite slice_length in Hk; lia. }
  rewrite slice_lookup in Hk by done.
  destruct k as [|k].
  - rewrite Nat.add_0_r in Hk. by pose proof (eq_trans (eq_sym Hp) Hk).
  - by apply (Hno (p + S k)%nat); [lia|].
Qed.

Lemma is_scene_header_marker d p e text :
  marker d p e text -> is_scene_header text = ends_with_scene_suffix text.
Proof.
  intros Hm. destruct (marker_text d p e text Hm) as (t & -> & Ht).
  unfold is_scene_header, ends_with_scene_suffix.
  change (lit "_TOP]") with (lit "_TOP" ++ [93]).
  change (lit "_START]") with (lit "_START" ++ [93]).
  change (lit "_END]") with (lit "_END" ++ [93]).
  by rewrite !contains_endswith.
Qed.

(** C7. For a bracketed marker of the data, both scans (the one that opens a
    scene and the one that looks for the next boundary) classify it as a scene
    boundary exactly when its decoded text, brackets included, ends with
    [_TOP]], [_START]] or [_END]]. The test is the function
    [is_scene_header] of the decoded text alone. *)
Theorem scene_boundary_classification d p e text :
  marker d p e text ->
  is_scene_header text = ends_with_scene_suffix text /\
  (opens_scene d p = Some (e, text) <-> ends_with_scene_suffix text = true) /\
  next_scene_at d p = ends_with_scene_suffix text.
Proof.
  intros Hm. pose proof (is_scene_header_marker d p e text Hm) as Heq.
  pose proof (marker_scan_close d p e text Hm) as Hsc.
  destruct Hm as (Hp & Hpe & He & Hno & Htext).
  assert (opens_scene d p = if is_scene_header text then Some (e, text) else None) as Ho.
  { unfold opens_scene. rewrite bool_decide_eq_true_2 by (by apply slice_one).
    rewrite Hsc, <- Htext. by destruct (Nat.ltb_spec e (length d)); [|lia]. }
  split; [done|]. split.
  - rewrite Ho, <- Heq. by destruct (is_scene_header text).
  - rewrite next_scene_at_opens, Ho, <- Heq.
    destruct (is_scene_header text).
    + apply bool_decide_eq_true. eauto.
    + apply bool_decide_eq_false. by intros [? ?].
Qed.

Lemma scene_boundary_classification_witness :
  let d := list_byte_of_string "ab[A_TOP]cd" in
  marker d 2 8 (lit "[A_TOP]") /\
  opens_scene d 2 = Some (8%nat, lit "[A_TOP]") /\
  next_scene_at d 2 = true.
Proof.
  cbv zeta.
  assert (marker (list_byte_of_string "ab[A_TOP]cd") 2 8 (lit "[A_TOP]")) as Hm.
  { repeat split; try (simpl; lia).
    intros k Hk. do 9 (destruct k as [|k]; [simpl; try lia; congruence|]). lia. }
  destruct (scene_boundary_classification _ _ _ _ Hm) as (_ & Hopen & Hnext).
  split; [exact Hm|]. split; [by apply Hopen|by rewrite Hnext].
Defined.

End SplitterLoop.

(** ** The scenes of a payload *)

Section SceneStarts.
Import MemFSParser MemBodyExtractor.
Implicit Types (d : bytes) (files : list IndexEntry).

Lemma scene_start_spec d p :
  scene_start d p = true <->
  is_Some (opens_scene d p) /\
  forall q e h, (q < p)%nat -> opens_scene d q = Some (e, h) -> (e < p)%nat.
Proof.
  unfold scene_start. rewrite andb_true_iff, bool_decide_eq_true, forallb_forall.
  split; intros [Ho Hall]; (split; [done|]).
  - intros q e h Hq Hopen. specialize (Hall q). rewrite Hopen in Hall.
    apply Nat.ltb_lt, Hall, in_seq. lia.
  - intros q Hq. apply in_seq in Hq. destruct (opens_scene d q) as [[e h]|] eqn:Hopen; [|done].
    apply Nat.ltb_lt. eapply Hall; [|done]. lia.
Qed.


Lemma opens_inside_header d a ea ha q e h :
  opens_scene d a = Some (ea, ha) -> opens_scene d q = Some (e, h) ->
  (a < q <= ea)%nat -> (e <= ea)%nat.
Proof.
  intros Ha Hq Hrange.
  apply opens_scene_marker in Ha as (_ & _ & Hea & _).
  apply opens_scene_marker in Hq as (Hq0 & Hqe & _ & Hno & _).
  destruct (decide (e <= ea)%nat); [done|]. exfalso.
  destruct (decide (q = ea)) as [->|]; [congruence|].
  apply (Hno ea); [lia|done].
Qed.

Lemma filter_seq_none (f : nat -> bool) a n :
  (forall k, (a <= k < a + n)%nat -> f k = false) -> List.filter f (seq a n) = [].
Proof.
  revert a. induction n as [|n IH]; intros a H; [done|]. simpl.
  rewrite H by lia. apply IH. intros k Hk. apply H. lia.
Qed.

Lemma chain_starts d files a segs b :
  chain a segs b -> Forall (scene_of d files) segs -> closed_before d a ->
  List.filter (scene_start d) (seq a (b - a)) = map startOffset segs /\ closed_before d b.
Proof.
  induction 1 as [a|s segs b Hlt Hch IH]; intros Hall Hcl.
  - by rewrite Nat.sub_diag.
  - apply list.Forall_cons in Hall as [(e & Hopen & Hnext & _) Hall].
    pose proof (opens_scene_bounds _ _ _ _ Hopen) as (Hpe & _).
    destruct (scan_next_spec d (e + 1)) as (Hn1 & Hn2 & _); [lia|].
    rewrite <- Hnext in Hn1, Hn2.
    apply chain_le in Hch as Hle.
    assert (closed_before d (endOffset s)) as Hcl'.
    { intros q e' h' Hq Hq'.
      destruct (decide (q < startOffset s)%nat) as [Hlt0|];
        [pose proof (Hcl q e' h' Hlt0 Hq'); lia|].
      destruct (decide (q = startOffset s)) as [->|]; [simplify_eq; lia|].
      destruct (decide (q <= e)%nat).
      - pose proof (opens_inside_header d _ _ _ q e' h' Hopen Hq'). lia.
      - rewrite Hn2 in Hq' by lia. done. }
    destruct (IH Hall Hcl') as [IHf IHc]. split; [|done].
    replace (b - startOffset s)%nat
      with (1 + (endOffset s - S (startOffset s)) + (b - endOffset s))%nat by lia.
    rewrite !seq_app, !List.filter_app. simpl.
    replace (scene_start d (startOffset s)) with true
      by (symmetry; apply scene_start_spec; split; [eauto|done]).
    rewrite filter_seq_none.
    + simpl. f_equal. rewrite <- IHf. do 2 f_equal. lia.
    + intros k Hk. apply not_true_is_false. rewrite scene_start_spec.
      intros [[[e' h'] Hk'] Hclk].
      destruct (decide (k <= e)%nat).
      * assert (startOffset s < k)%nat as Hsk by lia.
        pose proof (Hclk (startOffset s) e (headerText s) Hsk Hopen). lia.
      * rewrite Hn2 in Hk' by lia. done.
Qed.

Lemma segments_starts d files : map startOffset (segments d files) = scene_starts d.
Proof.
  unfold segments, scene_starts.
  destruct (split_run_inv d files) as [(Hpos & Hall & Hres & Hhead) Hend].
  rewrite Hend in Hhead.
  destruct (hd_error (found (split_run d files))) as [s0|] eqn:Hh.
  - destruct Hhead as (Hnone & Hch & _).
    apply chain_le in Hch as Hle.
    destruct (chain_starts d files _ _ _ Hch Hall) as [Hf _].
    { intros q e h Hq Hopen. rewrite Hnone in Hopen by done. done. }
    rewrite <- Hf.
    assert (seq 0 (length d)
            = seq 0 (startOffset s0) ++ seq (startOffset s0) (length d - startOffset s0))
      as -> by (rewrite <- seq_app; f_equal; lia).
    rewrite List.filter_app, (filter_seq_none _ 0 (startOffset s0)); [done|].
    intros k Hk. apply not_true_is_false. rewrite scene_start_spec.
    intros [[x Hx] _]. rewrite Hnone in Hx by lia. done.
  - destruct Hhead as [-> Hnone]. simpl. symmetry. apply filter_seq_none.
    intros k Hk. apply not_true_is_false. rewrite scene_start_spec.
    intros [[x Hx] _]. rewrite Hnone in Hx by lia. done.
Qed.

Lemma scene_of_scene_at d files s :
  scene_of d files s -> scene_at d files (startOffset s) = Some s.
Proof.
  intros (e & Hopen & Hnext & Hraw & Hname). unfold scene_at. rewrite Hopen. cbv zeta.
  rewrite <- Hnext, <- Hraw, <- Hname. by destruct s.
Qed.

Lemma scene_at_starts d files segs :
  Forall (scene_of d files) segs -> omap (scene_at d files) (map startOffset segs) = segs.
Proof.
  induction 1 as [|s segs Hs Hall IH]; [done|].
  simpl in *. rewrite (scene_of_scene_at d files s Hs). simpl. f_equal. exact IH.
Qed.

Lemma segments_scenes d files : segments d files = scenes d files.
Proof.
  unfold scenes. rewrite <- (segments_starts d files).
  symmetry. apply scene_at_starts. unfold segments.
  by destruct (split_run_inv d files) as [(_ & Hall & _) _].
Qed.

Lemma first_marker_head d files m :
  first_marker d m ->
  exists s0, hd_error (segments d files) = Some s0 /\ startOffset s0 = m /\
             chain m (segments d files) (length d).
Proof.
  intros [[x Hm] Hnone]. unfold segments.
  destruct (split_run_inv d files) as [(Hpos & Hall & Hres & Hhead) Hend].
  rewrite Hend in Hhead.
  destruct (hd_error (found (split_run d files))) as [s0|] eqn:Hh.
  - destruct Hhead as (Hnone0 & Hch & _). exists s0. split; [done|].
    assert (startOffset s0 = m) as <-; [|done].
    assert (s0 ∈ found (split_run d files)) as Hin
      by (destruct (found _); simplify_eq/=; apply list_elem_of_here).
    rewrite list.Forall_forall in Hall. destruct (Hall s0 Hin) as (e & Hopen & _).
    destruct (Nat.lt_trichotomy (startOffset s0) m) as [Hlt|[Heq|Hgt]]; [|done|].
    + rewrite Hnone in Hopen by done. done.
    + rewrite Hnone0 in Hm by done. done.
  - destruct Hhead as [_ Hnone0].
    pose proof (opens_scene_bounds _ _ _ _ (eq_trans Hm (f_equal Some (surjective_pairing x)))).
    rewrite Hnone0 in Hm by lia. done.
Qed.

End SceneStarts.

Section SplitterOutput.
Import MemFSParser MemBodyExtractor.
Implicit Types (d : bytes) (files : list IndexEntry).

Lemma first_marker_exists d k :
  is_Some (opens_scene d k) -> exists m, (m <= k)%nat /\ first_marker d m.
Proof.
  induction k as [k IH] using lt_wf_ind. intros Hk.
  destruct (decide (Forall (fun j => opens_scene d j = None) (seq 0 k))) as [Hall|Hex].
  - exists k. split; [lia|]. split; [done|]. intros j Hj.
    rewrite list.Forall_forall in Hall. apply Hall, elem_of_seq. lia.
  - apply not_Forall_Exists in Hex; [|intros j; apply _].
    apply list.Exists_exists in Hex as (j & Hj & Hopen). apply elem_of_seq in Hj.
    destruct (IH j) as (m & Hm & Hfirst); [lia| |].
    + simpl in Hopen. destruct (opens_scene d j); [eauto|exfalso; by apply Hopen].
    + exists m. split; [lia|done].
Qed.

Lemma last_filter_lookup {A} (P : A -> Prop) `{!forall x, Decision (P x)} (l : list A) (s : A) :
  list.last (filter P l) = Some s <->
  exists j, l !! j = Some s /\ P s /\
            forall j' s', (j < j')%nat -> l !! j' = Some s' -> ~ P s'.
Proof.
  induction l as [|x l IH] using rev_ind.
  - split; [done|]. intros (j & Hj & _). by rewrite lookup_nil in Hj.
  - rewrite list.filter_app, list.filter_cons, list.filter_nil.
    destruct (decide (P x)) as [Hx|Hx].
    + rewrite last_snoc. split.
      * intros [= <-]. exists (length l). split; [by apply list_lookup_middle|].
        split; [done|]. intros j' s' Hj' Hl. apply lookup_lt_Some in Hl.
        rewrite length_app in Hl. simpl in Hl. lia.
      * intros (j & Hj & Hs & Hlast).
        destruct (decide (j = length l)) as [->|Hne].
        -- rewrite list_lookup_middle in Hj by done. by simplify_eq.
        -- exfalso. apply lookup_lt_Some in Hj as Hlen. rewrite length_app in Hlen.
           simpl in Hlen. apply (Hlast (length l) x); [lia| |done].
           by apply list_lookup_middle.
    + rewrite app_nil_r, IH. split.
      * intros (j & Hj & Hs & Hlast). exists j.
        split; [by apply lookup_app_l_Some|]. split; [done|].
        intros j' s' Hj' Hl. apply lookup_app_Some in Hl as [Hl|[_ Hl]]; [eauto|].
        apply list_lookup_singleton_Some in Hl as [_ <-]. done.
      * intros (j & Hj & Hs & Hlast).
        apply lookup_app_Some in Hj as [Hj|[_ Hj]].
        -- exists j. split; [done|]. split; [done|].
           intros j' s' Hj' Hl. apply (Hlast j' s' Hj'). by apply lookup_app_l_Some.
        -- apply list_lookup_singleton_Some in Hj as [_ <-]. done.
Qed.

Lemma store_nodup segs s :
  NoDup (map resolvedFilename segs) -> s ∈ segs ->
  store segs !! resolvedFilename s = Some (rawBytes s).
Proof.
  induction segs as [|x segs IH] using rev_ind; intros Hnd Hs.
  - by apply elem_of_nil in Hs.
  - rewrite map_app in Hnd. apply list.NoDup_app in Hnd as (Hnd & Hdisj & _).
    rewrite store_snoc. apply elem_of_app in Hs as [Hs|Hs].
    + rewrite lookup_insert_ne; [by apply IH|].
      intros Heq. apply (Hdisj (resolvedFilename s)).
      * apply list_elem_of_fmap. eauto.
      * rewrite <- Heq. simpl. apply list_elem_of_here.
    + apply list_elem_of_singleton in Hs as ->. by rewrite lookup_insert_eq.
Qed.

Lemma omap_lookup_all {A B} (f : A -> option B) (g : A -> B) (l : list A) :
  (forall x, x ∈ l -> f x = Some (g x)) -> omap f l = map g l.
Proof.
  induction l as [|x l IH]; intros H; [done|]. simpl.
  rewrite (H x) by apply list_elem_of_here. simpl. f_equal.
  apply IH. intros y Hy. apply H. by apply list_elem_of_further.
Qed.

(** C1. The scenes found by the splitter are the scenes of the payload, and
    the returned dict is the result of storing them in order. They are
    contiguous and ordered: each one ends where the next starts and the last
    one ends at the length of the payload; every scene is a non-empty range
    whose bytes are the corresponding slice of the payload. Whenever a scene
    header is recognised anywhere in the payload there is a first such
    marker, the first scene starts there, and the scenes together cover
    exactly the offsets from that marker to the end of the payload; without
    any marker there is no scene. *)
Theorem segments_contiguous d files :
  let segs := segments d files in
  segs = scenes d files /\
  find_file_data d files = store segs /\
  (forall i s s', segs !! i = Some s -> segs !! S i = Some s' ->
                  endOffset s = startOffset s') /\
  (forall s, list.last segs = Some s -> endOffset s = length d) /\
  (forall s, s ∈ segs ->
     (startOffset s < endOffset s <= length d)%nat /\
     rawBytes s = slice d (startOffset s) (endOffset s)) /\
  (forall k, is_Some (opens_scene d k) -> exists m, (m <= k)%nat /\ first_marker d m) /\
  (forall m, first_marker d m ->
     (exists s0, hd_error segs = Some s0 /\ startOffset s0 = m) /\
     (forall k, (exists s, s ∈ segs /\ (startOffset s <= k < endOffset s)%nat)
                <-> (m <= k < length d)%nat)) /\
  (segs = [] <-> forall k, opens_scene d k = None).
Proof.
  cbv zeta. split; [apply segments_scenes|].
  pose proof (first_marker_head d files) as Hfirst.
  pose proof (first_marker_exists d) as Hex.
  unfold find_file_data, segments in *.
  destruct (split_run_inv d files) as [(Hpos & Hall & Hres & Hhead) Hend].
  rewrite Hend in *. set (segs := found (split_run d files)) in *. clearbody segs.
  split; [done|].
  assert (forall s, s ∈ segs ->
            (startOffset s < endOffset s <= length d)%nat /\
            rawBytes s = slice d (startOffset s) (endOffset s)) as Hseg.
  { intros s Hs. rewrite list.Forall_forall in Hall.
    destruct (Hall s Hs) as (e & Hopen & Hnext & Hraw & _).
    apply opens_scene_bounds in Hopen as (Hpe & _).
    destruct (scan_next_spec d (e + 1)) as (Hn & _); [lia|].
    rewrite <- Hnext in Hn. split; [lia|done]. }
  assert (forall m, first_marker d m ->
     (exists s0, hd_error segs = Some s0 /\ startOffset s0 = m) /\
     (forall k, (exists s, s ∈ segs /\ (startOffset s <= k < endOffset s)%nat)
                <-> (m <= k < length d)%nat)) as Hcover.
  { intros m Hm. destruct (Hfirst m Hm) as (s0 & Hh0 & Hs0 & Hch).
    split; [eauto|]. intros k. by apply chain_cover. }
  assert (segs = [] <-> forall k, opens_scene d k = None) as Hnil.
  { split.
    - intros -> k. destruct (opens_scene d k) as [x|] eqn:Hk; [|done].
      destruct (Hex k) as (m & _ & Hm); [by rewrite Hk|].
      by destruct (Hcover m Hm) as [(s0 & ? & _) _].
    - intros Hnone. destruct (hd_error segs) as [s0|] eqn:Hh; [|by destruct segs].
      assert (s0 ∈ segs) as Hin by (destruct segs; simplify_eq/=; apply list_elem_of_here).
      rewrite list.Forall_forall in Hall. destruct (Hall s0 Hin) as (e & Hopen & _).
      by rewrite Hnone in Hopen. }
  destruct (hd_error segs) as [s0|] eqn:Hh.
  - destruct Hhead as (Hnone & Hch & _).
    split; [intros i s s'; by apply chain_adjacent with (1 := Hch)|].
    split; [intros s; by apply chain_last with (1 := Hch)|].
    done.
  - destruct Hhead as [-> _].
    split; [intros i s s' Hi; by rewrite lookup_nil in Hi|].
    split; [done|]. done.
Qed.

(** C10. The returned dict is keyed by resolved filename and holds, under
    each name, the bytes of the last scene of the payload that resolves to
    that name: the last scene of every name is present, every entry is such a
    scene, and an earlier scene with the same name is overwritten. The dict
    never has more entries than the payload has scenes, and has strictly
    fewer as soon as two scenes share a name. *)
Theorem find_file_data_last_wins d files :
  let out := find_file_data d files in
  let sc := scenes d files in
  length sc = length (scene_starts d) /\
  (forall name,
     out !! name
     = rawBytes <$> list.last (filter (fun s => resolvedFilename s = name) sc)) /\
  (forall j s, sc !! j = Some s ->
     (forall j' s', (j < j')%nat -> sc !! j' = Some s' ->
                    resolvedFilename s' <> resolvedFilename s) ->
     out !! resolvedFilename s = Some (rawBytes s)) /\
  (forall name v, out !! name = Some v ->
     exists j s, sc !! j = Some s /\ resolvedFilename s = name /\ v = rawBytes s /\
       forall j' s', (j < j')%nat -> sc !! j' = Some s' -> resolvedFilename s' <> name) /\
  (size out <= length sc)%nat /\
  (forall i j s s', (i < j)%nat -> sc !! i = Some s -> sc !! j = Some s' ->
     resolvedFilename s = resolvedFilename s' -> (size out < length sc)%nat).
Proof.
  cbv zeta. rewrite <- (segments_scenes d files).
  split; [by rewrite <- (segments_starts d files), length_map|].
  unfold find_file_data, segments.
  destruct (split_run_inv d files) as [(_ & _ & -> & _) _].
  set (segs := found (split_run d files)). clearbody segs.
  split; [apply store_lookup|].
  split; [|split; [|split; [apply store_size|intros i j s s'; apply store_size_collision]]].
  - intros j s Hj Hlast. rewrite store_lookup.
    rewrite (proj2 (last_filter_lookup (fun s0 => resolvedFilename s0 = resolvedFilename s)
                      segs s)); [done|].
    exists j. split; [done|]. split; [done|]. done.
  - intros name v. rewrite store_lookup.
    destruct (list.last _) as [s|] eqn:Hl; [|done]. intros [= <-].
    apply last_filter_lookup in Hl as (j & Hj & Hs & Hlast).
    exists j, s. split; [done|]. split; [done|]. split; [done|]. done.
Qed.

(** Two scenes with the same header: one entry, holding the second scene. *)
Example find_file_data_collision :
  let d := list_byte_of_string "[A_TOP]x[A_TOP]yz" in
  scene_starts d = [0; 8]%nat /\
  length (segments d []) = 2%nat /\
  map_to_list (find_file_data d [])
  = [(lit "A_TOP.tat", list_byte_of_string "[A_TOP]yz")].
Proof. vm_compute. done. Qed.

(** An open bracket inside the brackets of a scene header starts no scene of
    its own, although a scene header is recognised there. *)
Example nested_bracket_one_scene :
  let d := list_byte_of_string "[x[A_TOP]yz" in
  is_Some (opens_scene d 2) /\ scene_starts d = [0%nat] /\
  map rawBytes (segments d []) = [d].
Proof. vm_compute. repeat split. eauto. Qed.

End SplitterOutput.

(** ** The index scan *)

Section IndexScan.
Import MemFSParser.
Implicit Types (data : bytes) (paths : list (nat * str)).

(** [path_end] leaves its start only in steps of two, and stops where the
    loop condition fails. *)
Lemma path_end_spec data start :
  let e := path_end data start in
  (e = start \/ (start + 2 <= e)%nat) /\ path_end_cond data e = false.
Proof.
  unfold path_end.
  apply (while_rule (path_end_cond data) (fun e => (e + 2)%nat)
           (fun e => e = start \/ (start + 2 <= e)%nat)
           (fun e => (length data - e)%nat)).
  - intros e He Hc. unfold path_end_cond in Hc.
    apply andb_true_iff in Hc as [Hlt _]. apply Nat.ltb_lt in Hlt.
    split; lia.
  - by left.
  - lia.
Qed.

Lemma slash_cond data p :
  slice data p (p + 2) = SLASH16 -> path_end_cond data p = true /\ (p + 2 <= length data)%nat.
Proof.
  intros H. assert (p + 2 <= length data)%nat as Hlen.
  { apply (f_equal length) in H. unfold slice in H.
    rewrite length_take, length_drop in H. change (length SLASH16) with 2%nat in H. lia. }
  split; [|done]. unfold path_end_cond. rewrite H.
  apply andb_true_iff. split; [apply Nat.ltb_lt; lia|done].
Qed.

Lemma scan_step_spec data st :
  Forall (path_found data) (snd st) -> (fst st < length data)%nat ->
  Forall (path_found data) (snd (scan_step data st)) /\
  (fst st < fst (scan_step data st))%nat.
Proof.
  destruct st as [search_pos paths]. simpl. intros Hall Hlt.
  unfold scan_step. case_bool_decide as Hs; simpl; [|split; [done|lia]].
  destruct (slash_cond data search_pos Hs) as [Hc Hlen].
  destruct (path_end_spec data search_pos) as [[He|He] Hc'].
  { rewrite He in Hc'. congruence. }
  split; [|simpl; lia]. simpl.
  destruct (utf16le_decode _) as [p|] eqn:Hdec; [|done].
  destruct (is_content_path p) eqn:Hcp; [|done].
  apply Forall_app_2; [done|]. by repeat constructor.
Qed.

Lemma find_paths_spec data : Forall (path_found data) (find_paths data).
Proof.
  unfold find_paths.
  apply (while_rule (fun st => (fst st <? length data)%nat) (scan_step data)
           (fun st => Forall (path_found data) (snd st))
           (fun st => (length data - fst st)%nat)).
  - intros st Hall Hc. apply Nat.ltb_lt in Hc.
    destruct (scan_step_spec data st Hall Hc). split; [done|lia].
  - constructor.
  - simpl. lia.
Qed.

(** The first pass runs until the cursor has passed the end of the data. *)
Lemma find_paths_exit data :
  (length data
   <= fst (while (length data) (fun st => (fst st <? length data)%nat)
             (scan_step data) (0%nat, [])))%nat.
Proof.
  destruct (while_rule (fun st => (fst st <? length data)%nat) (scan_step data)
              (fun st => Forall (path_found data) (snd st))
              (fun st => (length data - fst st)%nat))
    with (fuel := length data) (s := (0%nat, @nil (nat * str))) as [_ Hc].
  - intros st Hall Hc. apply Nat.ltb_lt in Hc.
    destruct (scan_step_spec data st Hall Hc). split; [done|lia].
  - constructor.
  - simpl. lia.
  - by apply Nat.ltb_ge in Hc.
Qed.

Lemma zslice_nonneg {A} (l : list A) (a b : Z) :
  0 <= a <= b -> b <= Z.of_nat (length l) ->
  zslice l a b = slice l (Z.to_nat a) (Z.to_nat b).
Proof.
  intros Ha Hb. unfold zslice, norm_index.
  destruct (Z.ltb_spec a 0); [lia|]. destruct (Z.ltb_spec b 0); [lia|].
  f_equal; lia.
Qed.

Lemma ord_range b : 0 <= ord b < 256.
Proof. unfold ord. pose proof (Byte.to_N_bounded b). lia. Qed.

Lemma unpack_H_le bs : length bs = 2%nat -> unpack_H bs = Some (le_uint bs).
Proof.
  destruct bs as [|b0 [|b1 [|]]]; try done. intros _. simpl. f_equal. lia.
Qed.

Lemma unpack_I_le bs : length bs = 4%nat -> unpack_I bs = Some (le_uint bs).
Proof.
  destruct bs as [|b0 [|b1 [|b2 [|b3 [|]]]]]; try done. intros _. simpl. f_equal. lia.
Qed.

Lemma le_uint_range bs : 0 <= le_uint bs < 256 ^ Z.of_nat (length bs).
Proof.
  induction bs as [|b bs IH]; [simpl; lia|].
  cbn [le_uint length]. rewrite Nat2Z.inj_succ, Z.pow_succ_r by lia.
  pose proof (ord_range b). lia.
Qed.

Lemma entry_of_spec data P p :
  (P <= length data)%nat -> entry_of data P p = Ok (spec_entry data (P, p)).
Proof.
  intros HP. unfold entry_of, spec_entry.
  destruct (Z.ltb_spec (Z.of_nat P - 16) 0) as [Hneg|Hpos];
    destruct (Nat.ltb_spec P 16) as [Hlt|Hge]; try lia; [done|].
  rewrite !zslice_nonneg by lia.
  replace (Z.to_nat (Z.of_nat P - 16)) with (P - 16)%nat by lia.
  replace (Z.to_nat (Z.of_nat P - 16 + 4)) with (P - 12)%nat by lia.
  replace (Z.to_nat (Z.of_nat P - 16 + 8)) with (P - 8)%nat by lia.
  replace (Z.to_nat (Z.of_nat P - 16 + 10)) with (P - 6)%nat by lia.
  rewrite unpack_H_le by (rewrite slice_length; lia).
  rewrite !unpack_I_le by (rewrite slice_length; lia).
  done.
Qed.

Lemma entries_spec data paths files :
  Forall (fun e => (fst e <= length data)%nat) paths ->
  entries data paths files = Ok (files ++ omap (spec_entry data) paths).
Proof.
  revert files. induction paths as [|[P p] paths IH]; intros files Hall; simpl.
  - by rewrite app_nil_r.
  - apply list.Forall_cons in Hall as [HP Hall]. simpl in HP.
    rewrite entry_of_spec by done. simpl.
    destruct (Nat.ltb_spec P 16); simpl.
    + by apply IH.
    + rewrite IH by done. by rewrite <- app_assoc.
Qed.

(** C6. Parsing never fails. The entries are, in scan order, those of the
    accepted paths whose offset [P] is at least 16; a path with [P - 16 < 0]
    yields no entry and no error. For every entry, [metadata_offset = P - 16
    >= 0]; [val1], [val2] are the little-endian 32-bit values of the four
    bytes at [metadata_offset] and [metadata_offset + 4], and [path_prefix] is
    the little-endian 16-bit value of the two bytes at [metadata_offset + 8]. *)
Theorem index_entry_metadata data :
  exists files,
    _parse data = Ok files /\
    files = omap (spec_entry data) (find_paths data) /\
    (forall P p, (P, p) ∈ find_paths data -> (P < 16)%nat ->
                 spec_entry data (P, p) = None) /\
    (forall f, f ∈ files ->
       exists P, (P, path f) ∈ find_paths data /\
         path_found data (P, path f) /\
         metadata_offset f = Z.of_nat P - 16 /\ 0 <= metadata_offset f /\
         let mo := Z.to_nat (metadata_offset f) in
         length (slice data mo (mo + 4)) = 4%nat /\
         val1 f = le_uint (slice data mo (mo + 4)) /\ 0 <= val1 f < 2 ^ 32 /\
         length (slice data (mo + 4) (mo + 8)) = 4%nat /\
         val2 f = le_uint (slice data (mo + 4) (mo + 8)) /\ 0 <= val2 f < 2 ^ 32 /\
         length (slice data (mo + 8) (mo + 10)) = 2%nat /\
         path_prefix f = le_uint (slice data (mo + 8) (mo + 10)) /\
         0 <= path_prefix f < 2 ^ 16).
Proof.
  pose proof (find_paths_spec data) as Hfound.
  assert (Forall (fun e => (fst e + 2 <= length data)%nat) (find_paths data)) as Hlen.
  { eapply list.Forall_impl; [exact Hfound|]. intros [P p] (Hs & _). simpl.
    by apply slash_cond in Hs as [_ ?]. }
  exists (omap (spec_entry data) (find_paths data)).
  split.
  { unfold _parse. rewrite entries_spec; [done|].
    eapply list.Forall_impl; [exact Hlen|]. simpl. intros; lia. }
  split; [done|]. split.
  { intros P p _ HP. unfold spec_entry. by destruct (Nat.ltb_spec P 16); [|lia]. }
  intros f Hf. apply list_elem_of_omap in Hf as ([P p] & Hin & Hspec).
  unfold spec_entry in Hspec. destruct (Nat.ltb_spec P 16) as [|Hge]; [done|].
  injection Hspec as <-. cbn [path metadata_offset val1 val2 path_prefix].
  rewrite list.Forall_forall in Hfound, Hlen.
  pose proof (Hlen _ Hin) as HP. simpl in HP.
  exists P. split; [done|]. split; [by apply Hfound|]. split; [done|]. split; [lia|].
  cbv zeta. replace (Z.to_nat (Z.of_nat P - 16)) with (P - 16)%nat by lia.
  replace (P - 16 + 4)%nat with (P - 12)%nat by lia.
  replace (P - 16 + 8)%nat with (P - 8)%nat by lia.
  replace (P - 16 + 10)%nat with (P - 6)%nat by lia.
  assert (length (slice data (P - 16) (P - 12)) = 4%nat) as L1 by (rewrite slice_length; lia).
  assert (length (slice data (P - 12) (P - 8)) = 4%nat) as L2 by (rewrite slice_length; lia).
  assert (length (slice data (P - 8) (P - 6)) = 2%nat) as L3 by (rewrite slice_length; lia).
  pose proof (le_uint_range (slice data (P - 16) (P - 12))) as R1.
  pose proof (le_uint_range (slice data (P - 12) (P - 8))) as R2.
  pose proof (le_uint_range (slice data (P - 8) (P - 6))) as R3.
  rewrite L1 in R1. rewrite L2 in R2. rewrite L3 in R3.
  change (256 ^ Z.of_nat 4) with (2 ^ 32) in *. change (256 ^ Z.of_nat 2) with (2 ^ 16) in *.
  repeat split; try done; lia.
Qed.

End IndexScan.

(** ** The body decoder *)

Section BodyDecoder.
Import MemBodyExtractor.
Variable inflate : Z -> bytes -> inflate_outcome.

Lemma slice_app_r {A} (pre l : list A) (i j : nat) :
  slice (pre ++ l) (length pre + i) (length pre + j) = slice l i j.
Proof.
  unfold slice. rewrite drop_app_add. f_equal. lia.
Qed.

Lemma magic_at_app_r pre d i : magic_at (pre ++ d) (length pre + i) = magic_at d i.
Proof.
  unfold magic_at.
  replace (length pre + i + 2)%nat with (length pre + (i + 2))%nat by lia.
  by rewrite slice_app_r.
Qed.

Lemma magic_at_length d i : magic_at d i = true -> (i + 2 <= length d)%nat.
Proof.
  unfold magic_at. intros H.
  assert (length (slice d i (i + 2)) = 2%nat) as Hl.
  { apply orb_true_iff in H as [H|H]; apply bool_decide_eq_true in H; by rewrite H. }
  unfold slice in Hl. rewrite length_take, length_drop in Hl. lia.
Qed.

(** The scan returns the first candidate at which a stream header starts. *)
Lemma first_magic_seq d a k n :
  (forall i, (a <= i < a + k)%nat -> magic_at d i = false) ->
  magic_at d (a + k) = true -> (k < n)%nat ->
  first_magic d (seq a n) = Some (a + k)%nat.
Proof.
  revert a n. induction k as [|k IH]; intros a n Hno Hyes Hlt.
  - destruct n as [|n]; [lia|]. simpl. rewrite Nat.add_0_r in *. by rewrite Hyes.
  - destruct n as [|n]; [lia|]. simpl. rewrite Hno by lia.
    replace (a + S k)%nat with (S a + k)%nat in * by lia.
    apply IH; [|done|lia]. intros i Hi. apply Hno. lia.
Qed.

Lemma first_magic_none d l :
  (forall i, i ∈ l -> magic_at d i = false) -> first_magic d l = None.
Proof.
  induction l as [|i l IH]; intros H; [done|]. simpl.
  rewrite H by apply list_elem_of_here. apply IH.
  intros j Hj. apply H. by apply list_elem_of_further.
Qed.

Lemma first_magic_some d l i :
  first_magic d l = Some i -> i ∈ l /\ magic_at d i = true.
Proof.
  induction l as [|j l IH]; [done|]. simpl.
  destruct (magic_at d j) eqn:Hj.
  - intros [= ->]. split; [apply list_elem_of_here|done].
  - intros H. destruct (IH H). split; [by apply list_elem_of_further|done].
Qed.

(** The invariant of a constructed body: the signature, and the offset of
    the first stream header in the window [2, 100). *)
Lemma new_spec membody_data self :
  new membody_data = Ok self ->
  data self = membody_data /\ slice membody_data 0 2 = RZ /\
  (2 <= compress_offset self < 100)%nat /\
  magic_at membody_data (compress_offset self) = true.
Proof.
  unfold new. case_bool_decide as Hrz; [|done].
  unfold _find_deflate_start.
  destruct (first_magic _ _) as [off|] eqn:Hoff; [|done].
  simpl. intros [= <-]. simpl.
  apply first_magic_some in Hoff as [Hin Hm].
  unfold range in Hin. apply list_elem_of_In, in_seq in Hin.
  repeat split; try done; lia.
Qed.

(** C2 (amended). Let [stream] be a zlib stream for [B] (one that
    [zlib.decompress] turns back into [B], as [zlib.compress(B)] is) that
    starts with one of the two recognised headers, as the default compression
    level produces. If fewer than 98 header bytes [H] stand between the
    signature and the stream, and no recognised header starts within them,
    then decoding [RZ ++ H ++ stream] returns exactly [B]. *)
Theorem roundtrip (stream B H : bytes) :
  zlib_decompress inflate stream = inr B ->
  magic_at stream 0 = true ->
  (length H < 98)%nat ->
  (forall i, (i < length H)%nat -> magic_at (H ++ stream) i = false) ->
  decode inflate (RZ ++ H ++ stream) = Ok B.
Proof.
  intros Hz Hmagic Hlen Hno.
  pose proof (magic_at_length _ _ Hmagic) as Hstream.
  assert (first_magic (RZ ++ H ++ stream)
            (range 2 (Nat.min 100 (length (RZ ++ H ++ stream))))
          = Some (2 + length H)%nat) as Hoff.
  { unfold range. apply first_magic_seq.
    - intros i Hi. replace i with (length RZ + (i - 2))%nat by (simpl; lia).
      rewrite magic_at_app_r. apply Hno. lia.
    - change 2%nat with (length RZ) at 1. rewrite magic_at_app_r.
      rewrite <- (Nat.add_0_r (length H)). by rewrite magic_at_app_r.
    - rewrite !length_app. change (length RZ) with 2%nat. lia. }
  assert (drop (2 + length H) (RZ ++ H ++ stream) = stream) as Hdrop.
  { change (2 + length H)%nat with (length RZ + length H)%nat.
    rewrite app_assoc, <- length_app. by rewrite drop_app_length. }
  unfold decode, new. rewrite bool_decide_eq_true_2 by done.
  unfold _find_deflate_start. rewrite Hoff.
  cbn [mbind result_bind bind of_option]. unfold decompress.
  cbn [data compress_offset]. by rewrite Hdrop, Hz.
Qed.

(** C3 (amended). [decompress] first tries [zlib.decompress] on
    [data[compress_offset:]] and returns its output if it succeeds; otherwise
    it tries the raw-deflate decompressor object and returns its output if it
    does not raise; it raises [DecompressionFailed], carrying the error of the
    first attempt, exactly when both attempts raise. A returned value is the
    whole output of one attempt: of a complete zlib stream, or of a raw
    deflate stream that ended or whose input ran out. *)
Theorem decompress_attempts (self : t) :
  let stream := drop (compress_offset self) (data self) in
  (forall out, zlib_decompress inflate stream = inr out ->
               decompress inflate self = Ok out) /\
  (forall e out, zlib_decompress inflate stream = inl e ->
                 decompressobj_decompress inflate (-15) stream = inr out ->
                 decompress inflate self = Ok out) /\
  (forall err, decompress inflate self = Raise err <->
               exists e e', err = DecompressionFailed e /\
                            zlib_decompress inflate stream = inl e /\
                            decompressobj_decompress inflate (-15) stream = inl e') /\
  (forall out, decompress inflate self = Ok out ->
               inflate 15 stream = StreamEnd out \/
               ((forall o, inflate 15 stream <> StreamEnd o) /\
                (inflate (-15) stream = StreamEnd out \/
                 inflate (-15) stream = InputExhausted out))).
Proof.
  cbv zeta. unfold decompress, zlib_decompress, decompressobj_decompress.
  set (stream := drop _ _).
  destruct (inflate 15 stream) as [o|o|z] eqn:H15;
    destruct (inflate (-15) stream) as [o'|o'|z'] eqn:H15';
    (split; [intros ? [= <-] || intros ? [=]; done|]);
    (split; [intros ? ? [= <-] [= <-] || intros ? ? [=] || intros ? ? ? [=]; done|]);
    (split; [split; [intros [=]; subst; eauto|intros (? & ? & -> & [=] & [=]); by subst]|]);
    intros out [= <-]; eauto; right; (split; [done|]); eauto.
Qed.
End BodyDecoder.

Lemma roundtrip_witness :
  MemBodyExtractor.decode Inflate.inflate
    (MemBodyExtractor.RZ ++ [x00; x01] ++ hello_stream)
  = Ok hello.
Proof.
  apply (roundtrip Inflate.inflate hello_stream hello [x00; x01]).
  - vm_compute. reflexivity.
  - vm_compute. reflexivity.
  - simpl. lia.
  - intros i Hi. destruct i as [|[|i]]; [reflexivity|reflexivity|simpl in Hi; lia].
Defined.

(** C2 as stated fails: with 98 header bytes the stream header lies outside
    the search window, and header bytes that themselves contain [78 9c] make
    the scan stop before the stream; in both cases decoding raises. *)
Lemma roundtrip_counterexample :
  zlib_decompress Inflate.inflate hello_stream = inr hello /\
  MemBodyExtractor.decode Inflate.inflate
    (MemBodyExtractor.RZ ++ repeat x00 98 ++ hello_stream)
  = Raise StreamNotFound /\
  MemBodyExtractor.decode Inflate.inflate
    (MemBodyExtractor.RZ ++ [x78; x9c] ++ hello_stream)
  = Raise (DecompressionFailed (ZlibError (-3))).
Proof. vm_compute. repeat split. Qed.

(** C3 as stated fails: for this body the zlib attempt raises, the raw
    attempt reads a stored block announcing 156 bytes of which 5 are present,
    and [decompress] returns those 5 bytes. *)
Lemma decompress_partial_output :
  let body := MemBodyExtractor.RZ ++ [x78; x9c; x00; x63; xff] ++ hello in
  let self := {| MemBodyExtractor.data := body; MemBodyExtractor.compress_offset := 2 |} in
  MemBodyExtractor.new body = Ok self /\
  Inflate.inflate 15 (drop 2 body) = InflateError (-3) /\
  Inflate.inflate (-15) (drop 2 body) = InputExhausted hello /\
  MemBodyExtractor.decompress Inflate.inflate self = Ok hello.
Proof. vm_compute. repeat split. Qed.

(** [Inflate.inflate] on streams written by zlib: a stored block
    ([zlib.compress(b'hello', 0)]), a block with the fixed code
    ([zlib.compress(b'hello')]) and a block with a dynamic code
    ([zlib.compress(b'bdbbabdaabadbacabcaa')]). *)
Example inflate_stored :
  Inflate.inflate 15
    [x78; x01; x01; x05; x00; xfa; xff; x68; x65; x6c; x6c; x6f; x06; x2c; x02; x15]
  = StreamEnd hello.
Proof. vm_compute. reflexivity. Qed.

Example inflate_fixed : Inflate.inflate 15 hello_stream = StreamEnd hello.
Proof. vm_compute. reflexivity. Qed.

Example inflate_dynamic :
  Inflate.inflate 15
    [x78; x9c; x05; xc1; x01; x01; x00; x00; x08; xc3; xa0; xac; xcc; xf7; xcf; x20;
     xb4; xd2; xc8; x72; x3a; x1e; x50; x93; x07; xa9]
  = StreamEnd (list_byte_of_string "bdbbabdaabadbacabcaa").
Proof. vm_compute. reflexivity. Qed.

(** ** The dialogue extractor *)

Section Dialogue.
Import TATParser.
Implicit Types (self : t) (lines rest : list str) (st : state) (r : pydict).

Lemma step_results self lines n line st :
  results (step self lines n line st)
  = append_opt (results st) (emit self lines n (current_speaker st) line).
Proof. unfold step, emit. by repeat case_match. Qed.

Lemma step_speaker self lines n line st :
  current_speaker (step self lines n line st) = next_speaker (current_speaker st) line.
Proof. unfold step, next_speaker. by repeat case_match. Qed.

Lemma run_app self lines n l1 l2 st :
  run self lines n (l1 ++ l2) st
  = run self lines (n + length l1) l2 (run self lines n l1 st).
Proof.
  revert n st. induction l1 as [|x l1 IH]; intros n st; simpl.
  - by rewrite Nat.add_0_r.
  - rewrite IH. f_equal. lia.
Qed.

Lemma state_after_all self :
  state_after self (length (split NEWLINE (text_content self))) = final_state self.
Proof. unfold state_after, final_state. by rewrite firstn_all. Qed.

Lemma state_after_S self k line :
  split NEWLINE (text_content self) !! k = Some line ->
  state_after self (S k)
  = step self (split NEWLINE (text_content self)) k line (state_after self k).
Proof.
  intros Hk. unfold state_after. cbv zeta.
  rewrite (take_S_r _ _ _ Hk), run_app. simpl.
  apply lookup_lt_Some in Hk. rewrite length_take. by rewrite Nat.min_l by lia.
Qed.

(** Every record of the output was appended by the iteration of some line. *)
Lemma extract_dialogue_emitted self r :
  r ∈ extract_dialogue self ->
  exists k line,
    split NEWLINE (text_content self) !! k = Some line /\
    emit self (split NEWLINE (text_content self)) k
         (current_speaker (state_after self k)) line = Some r.
Proof.
  unfold extract_dialogue. rewrite <- state_after_all.
  set (lines := split NEWLINE (text_content self)).
  assert (forall k, (k <= length lines)%nat ->
            r ∈ results (state_after self k) ->
            exists j line, lines !! j = Some line /\
              emit self lines j (current_speaker (state_after self j)) line = Some r)
    as H; [|by apply H].
  induction k as [|k IH]; intros Hk Hr.
  - by apply elem_of_nil in Hr.
  - destruct (lookup_lt_is_Some_2 lines k) as [line Hline]; [lia|].
    rewrite (state_after_S self k line Hline), step_results in Hr.
    fold lines in Hr.
    destruct (emit self lines k _ line) as [r'|] eqn:He; simpl in Hr.
    + apply elem_of_app in Hr as [Hr|Hr]; [apply IH; [lia|done]|].
      apply list_elem_of_singleton in Hr as ->. eauto.
    + apply IH; [lia|done].
Qed.

Lemma emit_cases self lines n speaker line r :
  emit self lines n speaker line = Some r ->
  (exists dialogue, r = dialogue_record self lines n speaker dialogue (rstrip line)) \/
  (exists cleaned_text, r = narrative_record self lines n cleaned_text (rstrip line)).
Proof.
  unfold emit, dialogue_of, narrative_of. intros H.
  repeat case_match; simplify_eq; eauto.
Qed.

(** The sample parsers hold the sample texts. *)
Example sample_texts :
  text_content (parser_of konnichiwa) = konnichiwa /\
  text_content (parser_of named_short_quote) = named_short_quote /\
  text_content (parser_of far_context) = far_context.
Proof. vm_compute. repeat split. Qed.

Lemma results_grow self (j k : nat) :
  (j <= k <= length (split NEWLINE (text_content self)))%nat ->
  exists l, results (state_after self k) = results (state_after self j) ++ l.
Proof.
  intros [Hjk Hk]. induction k as [|k IH].
  - assert (j = 0%nat) as -> by lia. exists []. by rewrite app_nil_r.
  - destruct (decide (j = S k)) as [->|Hne]; [exists []; by rewrite app_nil_r|].
    destruct IH as [l Hl]; [lia|lia|].
    destruct (lookup_lt_is_Some_2 (split NEWLINE (text_content self)) k) as [line Hline];
      [lia|].
    rewrite (state_after_S self k line Hline), step_results, Hl.
    destruct (emit _ _ _ _ _) as [r|]; simpl; [|eauto].
    exists (l ++ [r]). by rewrite app_assoc.
Qed.

Lemma emitted_in_output self (k : nat) (line : str) r :
  split NEWLINE (text_content self) !! k = Some line ->
  emit self (split NEWLINE (text_content self)) k
       (current_speaker (state_after self k)) line = Some r ->
  r ∈ extract_dialogue self.
Proof.
  intros Hk He. unfold extract_dialogue. rewrite <- state_after_all.
  apply lookup_lt_Some in Hk as Hlen.
  destruct (results_grow self (S k) (length (split NEWLINE (text_content self))))
    as [l ->]; [lia|].
  rewrite (state_after_S self k line Hk), step_results, He. simpl.
  apply elem_of_app. left. apply elem_of_app. right. apply list_elem_of_here.
Qed.

Lemma dialogue_of_type self lines (k : nat) speaker (line : str) r :
  dialogue_of self lines k speaker line = Some r -> dict_get "type" r = None.
Proof. unfold dialogue_of. intros H. repeat case_match; by simplify_eq. Qed.

Lemma narrative_of_type self lines (k : nat) (line : str) r :
  narrative_of self lines k line = Some r ->
  dict_get "type" r = Some (VStr (lit "narrative")).
Proof. unfold narrative_of. intros H. repeat case_match; by simplify_eq. Qed.

(** C8 (amended). Every record of the output was emitted for some line by
    the dialogue rule (the line, right-trimmed, is not a speaker line and
    contains both quotation glyphs) or by the narrative rule (it is not a
    speaker line and lacks a quotation glyph). A record emitted by the
    dialogue rule has no [type] key; a record emitted by the narrative rule
    has [type = 'narrative']. Conversely, whatever either rule emits for a
    line is a record of the output, with that [type]. *)
Theorem record_type self :
  let lines := split NEWLINE (text_content self) in
  let speaker_at := fun k : nat => current_speaker (state_after self k) in
  (forall r, r ∈ extract_dialogue self ->
     exists (k : nat) (line : str),
       lines !! k = Some line /\ is_speaker_line (rstrip line) = false /\
       ((has_quotes (rstrip line) = true /\
         dialogue_of self lines k (speaker_at k) (rstrip line) = Some r /\
         dict_get "type" r = None) \/
        (has_quotes (rstrip line) = false /\
         narrative_of self lines k (rstrip line) = Some r /\
         dict_get "type" r = Some (VStr (lit "narrative"))))) /\
  (forall (k : nat) (line : str) r,
     lines !! k = Some line -> is_speaker_line (rstrip line) = false ->
     has_quotes (rstrip line) = true ->
     dialogue_of self lines k (speaker_at k) (rstrip line) = Some r ->
     r ∈ extract_dialogue self /\ dict_get "type" r = None /\
     exists dialogue, r = dialogue_record self lines k (speaker_at k) dialogue (rstrip line)) /\
  (forall (k : nat) (line : str) r,
     lines !! k = Some line -> is_speaker_line (rstrip line) = false ->
     has_quotes (rstrip line) = false ->
     startswith (lit "//") (rstrip line) = false ->
     startswith (lit "<") (rstrip line) = false ->
     startswith [SPEAKER_OPEN] (rstrip line) = false ->
     _has_japanese (rstrip line) = true ->
     narrative_of self lines k (rstrip line) = Some r ->
     r ∈ extract_dialogue self /\ dict_get "type" r = Some (VStr (lit "narrative")) /\
     exists cleaned_text, r = narrative_record self lines k cleaned_text (rstrip line)).
Proof.
  cbv zeta. split; [|split].
  - intros r Hr. apply extract_dialogue_emitted in Hr as (k & line & Hk & He).
    exists k, line. split; [done|]. unfold emit in He.
    destruct (is_speaker_line (rstrip line)); [done|]. split; [done|].
    destruct (has_quotes (rstrip line)).
    + left. split; [done|]. split; [done|]. by eapply dialogue_of_type.
    + right. split; [done|]. destruct (_ && _); [|done].
      split; [done|]. by eapply narrative_of_type.
  - intros k line r Hk Hs Hq Hd. split; [|split].
    + apply (emitted_in_output self k line r Hk). unfold emit. by rewrite Hs, Hq.
    + by eapply dialogue_of_type.
    + unfold dialogue_of in Hd. repeat case_match; simplify_eq. eauto.
  - intros k line r Hk Hs Hq H1 H2 H3 H4 Hn. split; [|split].
    + apply (emitted_in_output self k line r Hk). unfold emit.
      by rewrite Hs, Hq, H1, H2, H3, H4.
    + by eapply narrative_of_type.
    + unfold narrative_of in Hn. repeat case_match; simplify_eq. eauto.
Qed.

Lemma record_type_witness :
  let self := parser_of konnichiwa in
  let r := dialogue_record self [konnichiwa] 0 None
             [0x3053; 0x3093; 0x306B; 0x3061; 0x306F] konnichiwa in
  r ∈ extract_dialogue self /\ dict_get "type" r = None /\
  exists dialogue, r = dialogue_record self (split NEWLINE (text_content self)) 0
                         (current_speaker (state_after self 0)) dialogue (rstrip konnichiwa).
Proof.
  cbv zeta.
  destruct (record_type (parser_of konnichiwa)) as (_ & Hdialogue & _).
  apply (Hdialogue 0%nat konnichiwa); vm_compute; reflexivity.
Defined.

(** C8 as stated fails: the record of a dialogue line carries no [type]. *)
Lemma record_type_counterexample :
  exists r, extract_dialogue (parser_of konnichiwa) = [r] /\
            dict_get "text" r = Some (VStr [0x3053; 0x3093; 0x306B; 0x3061; 0x306F]) /\
            dict_get "type" r = None.
Proof. eexists. vm_compute. repeat split. Qed.

(** C5 (amended). The speaker starts empty. A speaker line sets it; any other
    line containing both quotation glyphs resets it to empty, whether or not
    the line yields a record, so it is empty after every line that yields a
    dialogue record; every remaining line leaves it unchanged. *)
Theorem speaker_tracking self k line :
  split NEWLINE (text_content self) !! k = Some line ->
  let lines := split NEWLINE (text_content self) in
  let before := state_after self k in
  let after := state_after self (S k) in
  current_speaker (state_after self 0) = None /\
  (is_speaker_line (rstrip line) = true ->
   current_speaker after = Some (strip_chars [SPEAKER_OPEN; SPEAKER_CLOSE] (rstrip line))) /\
  (is_speaker_line (rstrip line) = false -> has_quotes (rstrip line) = true ->
   current_speaker after = None) /\
  (is_speaker_line (rstrip line) = false -> has_quotes (rstrip line) = false ->
   current_speaker after = current_speaker before) /\
  (forall dialogue,
     results after
     = results before
       ++ [dialogue_record self lines k (current_speaker before) dialogue (rstrip line)] ->
     current_speaker after = None).
Proof.
  intros Hk. cbv zeta. rewrite (state_after_S self k line Hk).
  rewrite step_speaker, step_results. unfold next_speaker.
  split; [done|].
  assert (forall (l : list pydict) x, l = l ++ [x] -> False) as Hsnoc.
  { intros l x H. apply (f_equal length) in H. rewrite length_app in H. simpl in H. lia. }
  destruct (is_speaker_line (rstrip line)) eqn:Hs;
    destruct (has_quotes (rstrip line)) eqn:Hq;
    (split; [done|]); (split; [done|]); (split; [done|]); intros dialogue; try done;
    unfold emit; rewrite Hs, ?Hq; simpl; intros H; try (by apply Hsnoc in H).
  case_match; [|by apply Hsnoc in H].
  unfold narrative_of in H. case_match; [|by apply Hsnoc in H].
  cbn [append_opt] in H. apply app_inv_head in H.
  by apply (f_equal (map (@length _))) in H.
Qed.

Lemma speaker_tracking_witness :
  current_speaker (state_after (parser_of named_short_quote) 2) = None.
Proof.
  assert (split NEWLINE (text_content (parser_of named_short_quote)) !! 1%nat
          = Some [QUOTE_OPEN; 0x3042; QUOTE_CLOSE]) as Hk by reflexivity.
  destruct (speaker_tracking (parser_of named_short_quote) 1 _ Hk)
    as (_ & _ & Hreset & _).
  apply Hreset; reflexivity.
Defined.

(** C5 as stated fails: the second line is not a speaker line and yields no
    record (its quoted text has length 1), yet the speaker set by the first
    line is reset. *)
Lemma speaker_reset_counterexample :
  let self := parser_of named_short_quote in
  current_speaker (state_after self 1) = Some [78] /\
  is_speaker_line [QUOTE_OPEN; 0x3042; QUOTE_CLOSE] = false /\
  results (state_after self 2) = results (state_after self 1) /\
  current_speaker (state_after self 2) = None.
Proof. vm_compute. repeat split. Qed.

Lemma range_down_two (n : nat) :
  (3 <= n)%nat ->
  range_down (Z.of_nat n - 1) (Z.max 0 (Z.of_nat n - 3))
  = [Z.of_nat n - 1; Z.of_nat n - 2].
Proof.
  intros Hn. unfold range_down.
  replace (Z.to_nat (Z.of_nat n - 1 - Z.max 0 (Z.of_nat n - 3))) with 2%nat by lia.
  simpl. f_equal; [lia|]. f_equal. lia.
Qed.

(** The indices the context loop reads are those of earlier lines. *)
Lemma context_indices_valid (n : nat) i :
  i ∈ range_down (Z.of_nat n - 1) (Z.max 0 (Z.of_nat n - 3)) -> 0 < i < Z.of_nat n.
Proof.
  unfold range_down. intros Hi. apply list_elem_of_fmap in Hi as (k & -> & Hk).
  apply list_elem_of_In, in_seq in Hk. lia.
Qed.

(** From the fourth line on, the context is made of the qualifying lines
    among the two lines just before, in their original order. *)
Lemma build_context_window lines (n : nat) :
  (3 <= n)%nat ->
  build_context lines n
  = List.filter qualifies [strip (getitem lines (Z.of_nat n - 2));
                           strip (getitem lines (Z.of_nat n - 1))].
Proof.
  intros Hn. unfold build_context. rewrite range_down_two by done.
  cbn [context_loop List.filter]. fold (qualifies (strip (getitem lines (Z.of_nat n - 1)))).
  destruct (qualifies (strip (getitem lines (Z.of_nat n - 1)))) eqn:Q1; cbn [Nat.leb];
    fold (qualifies (strip (getitem lines (Z.of_nat n - 2))));
    by destruct (qualifies (strip (getitem lines (Z.of_nat n - 2)))) eqn:Q2.
Qed.

Lemma record_fields self lines n speaker line r :
  emit self lines n speaker line = Some r ->
  dict_get "line" r = Some (VInt (Z.of_nat n + 1)) /\
  dict_get "context" r = Some (VStr (join [NEWLINE] (build_context lines n))).
Proof. intros H. by apply emit_cases in H as [[? ->]|[? ->]]. Qed.

(** C9 (amended). For a record on line [n + 1] with [n >= 3] (the fourth line
    of the text or later), the context consists of those of the two lines
    just before it that, once trimmed, are non-empty and do not start with
    [//], in their original order and joined by a newline. The walk never
    goes further back than these two lines. *)
Theorem context_window self r (n : nat) :
  r ∈ extract_dialogue self ->
  dict_get "line" r = Some (VInt (Z.of_nat n + 1)) ->
  (3 <= n)%nat ->
  let lines := split NEWLINE (text_content self) in
  dict_get "context" r
  = Some (VStr (join [NEWLINE]
                  (List.filter qualifies [strip (getitem lines (Z.of_nat n - 2));
                                          strip (getitem lines (Z.of_nat n - 1))]))).
Proof.
  intros Hr Hline Hn. cbv zeta.
  apply extract_dialogue_emitted in Hr as (k & line & _ & He).
  apply record_fields in He as [Hl Hc].
  rewrite Hl in Hline. injection Hline as Hline. assert (k = n) as -> by lia.
  by rewrite Hc, build_context_window.
Qed.

Lemma context_window_witness :
  exists r, extract_dialogue (parser_of far_context) = [r] /\
            dict_get "context" r = Some (VStr []).
Proof.
  eexists. split; [vm_compute; reflexivity|].
  match goal with |- dict_get _ ?r = _ =>
    rewrite (context_window (parser_of far_context) r 3)
  end.
  - vm_compute. reflexivity.
  - vm_compute. apply list_elem_of_here.
  - vm_compute. reflexivity.
  - lia.
Defined.

(** C9 as stated fails: the nearest preceding qualifying line, [a], is three
    lines back; the specification's context holds it, the record's does not. *)
Lemma context_counterexample :
  let self := parser_of far_context in
  let lines := split NEWLINE (text_content self) in
  exists r, extract_dialogue self = [r] /\
            dict_get "line" r = Some (VInt 4) /\
            dict_get "context" r = Some (VStr []) /\
            spec_context lines 3 = [lit "a"].
Proof. eexists. vm_compute. repeat split. Qed.

Lemma has_japanese_spec text :
  _has_japanese text = true <-> exists c, c ∈ text /\ 0x3040 <= c <= 0x9FFF.
Proof.
  unfold _has_japanese. rewrite existsb_exists. split.
  - intros (c & Hin & Hc). exists c. split; [by apply list_elem_of_In|lia].
  - intros (c & Hin & Hc). exists c. split; [by apply list_elem_of_In|lia].
Qed.

Lemma in_japanese_ranges_accepted text :
  existsb in_japanese_ranges text = true -> _has_japanese text = true.
Proof.
  unfold _has_japanese. rewrite !existsb_exists. intros (c & Hin & Hc).
  exists c. split; [done|]. unfold in_japanese_ranges in Hc. lia.
Qed.

(** C4, at the failing input: the line [「ㄅㄆ」] (two Bopomofo letters, U+3105
    and U+3106, between the quotation glyphs) has no code point in the three
    ranges, and the extractor emits a dialogue record for it. *)
Theorem dialogue_outside_ranges :
  let tat_data := [xe3; x80; x8c; xe3; x84; x85; xe3; x84; x86; xe3; x80; x8d] in
  let self := new tat_data (lit "a.tat") in
  text_content self = [QUOTE_OPEN; 0x3105; 0x3106; QUOTE_CLOSE] /\
  existsb in_japanese_ranges [0x3105; 0x3106] = false /\
  exists r, extract_dialogue self = [r] /\
            dict_get "text" r = Some (VStr [0x3105; 0x3106]) /\
            dict_get "type" r = None.
Proof. cbv zeta. split; [|split]; [by vm_compute..|]. eexists. vm_compute. repeat split. Qed.

End Dialogue.

(** ** Trimming and searching *)

Lemma lstrip_by_split f (s : str) :
  exists dropped, s = dropped ++ lstrip_by f s /\ Forall (fun c => f c = true) dropped.
Proof.
  induction s as [|c s (dropped & Hs & Hall)]; simpl.
  - by exists [].
  - destruct (f c) eqn:Hc.
    + exists (c :: dropped). split; [by rewrite Hs at 1|by constructor].
    + by exists [].
Qed.

Lemma lstrip_by_head f (s : str) c t : lstrip_by f s = c :: t -> f c = false.
Proof.
  induction s as [|a s IH]; simpl; [done|].
  destruct (f a) eqn:Ha; [done|]. by intros [= <- _].
Qed.

Lemma lstrip_by_id f (s : str) c t : s = c :: t -> f c = false -> lstrip_by f s = s.
Proof. intros -> Hc. simpl. by rewrite Hc. Qed.

Lemma lstrip_by_snoc f (s : str) c :
  f c = false -> lstrip_by f (s ++ [c]) = lstrip_by f s ++ [c].
Proof.
  intros Hc. induction s as [|a s IH]; simpl.
  - by rewrite Hc.
  - by destruct (f a).
Qed.

Lemma rstrip_by_split f (s : str) :
  exists dropped, s = rstrip_by f s ++ dropped /\ Forall (fun c => f c = true) dropped.
Proof.
  unfold rstrip_by. destruct (lstrip_by_split f (rev s)) as (dropped & Hs & Hall).
  exists (rev dropped). split.
  - rewrite <- rev_app_distr, <- Hs. by rewrite rev_involutive.
  - apply list.Forall_forall. intros c Hc.
    rewrite list.Forall_forall in Hall. apply Hall.
    apply list_elem_of_In. apply list_elem_of_In, in_rev in Hc. done.
Qed.

Lemma rstrip_by_cons f (s : str) c :
  f c = false -> rstrip_by f (c :: s) = c :: rstrip_by f s.
Proof.
  intros Hc. unfold rstrip_by. simpl.
  by rewrite lstrip_by_snoc, rev_app_distr by done.
Qed.

Lemma rstrip_by_idemp f (s : str) : rstrip_by f (rstrip_by f s) = rstrip_by f s.
Proof.
  unfold rstrip_by. rewrite rev_involutive.
  destruct (lstrip_by f (rev s)) as [|c t] eqn:H; [done|].
  apply lstrip_by_head in H as Hc. simpl. by rewrite Hc.
Qed.

(** Trimming twice is trimming once. *)
Lemma strip_by_idemp f (s : str) : strip_by f (strip_by f s) = strip_by f s.
Proof.
  unfold strip_by.
  destruct (lstrip_by f s) as [|c t] eqn:H; [done|].
  apply lstrip_by_head in H as Hc.
  rewrite rstrip_by_cons by done. simpl. rewrite Hc.
  by rewrite <- rstrip_by_cons, rstrip_by_idemp by done.
Qed.

Lemma lstrip_by_elem f (s : str) c : c ∈ lstrip_by f s -> c ∈ s.
Proof.
  destruct (lstrip_by_split f s) as (dropped & Hs & _). intros Hc.
  rewrite Hs. apply elem_of_app. by right.
Qed.

Lemma rstrip_by_elem f (s : str) c : c ∈ rstrip_by f s -> c ∈ s.
Proof.
  destruct (rstrip_by_split f s) as (dropped & Hs & _). intros Hc.
  rewrite Hs. apply elem_of_app. by left.
Qed.

Lemma strip_by_elem f (s : str) c : c ∈ strip_by f s -> c ∈ s.
Proof. intros Hc. by apply (lstrip_by_elem f), (rstrip_by_elem f). Qed.

(** Trimming keeps every code point that is not trimmed away. *)
Lemma strip_by_keeps f (s : str) c : c ∈ s -> f c = false -> c ∈ strip_by f s.
Proof.
  intros Hin Hc. unfold strip_by.
  destruct (lstrip_by_split f s) as (d1 & Hs1 & Hall1).
  destruct (rstrip_by_split f (lstrip_by f s)) as (d2 & Hs2 & Hall2).
  rewrite Hs1, Hs2 in Hin. rewrite !elem_of_app in Hin.
  rewrite list.Forall_forall in Hall1, Hall2.
  destruct Hin as [Hin|[Hin|Hin]]; [|done|].
  - specialize (Hall1 _ Hin). congruence.
  - specialize (Hall2 _ Hin). congruence.
Qed.

Lemma slice_elem {A} (l : list A) (i j : nat) (x : A) : x ∈ slice l i j -> x ∈ l.
Proof.
  unfold slice. intros H.
  eapply elem_of_sublist; [exact H|].
  etrans; [apply sublist_take|apply sublist_drop].
Qed.

Lemma zslice_elem {A} (l : list A) (a b : Z) (x : A) : x ∈ zslice l a b -> x ∈ l.
Proof. apply slice_elem. Qed.

Lemma remove_from_elem tag skip (s : str) c : c ∈ remove_from tag skip s -> c ∈ s.
Proof.
  revert skip. induction s as [|a s IH]; intros skip; simpl; [done|].
  destruct skip as [|k].
  - destruct (startswith tag (a :: s)).
    + intros H. apply list_elem_of_further. by eapply IH.
    + intros H. apply elem_of_cons in H as [->|H]; [apply list_elem_of_here|].
      apply list_elem_of_further. by eapply IH.
  - intros H. apply list_elem_of_further. by eapply IH.
Qed.

Lemma split_elem sep (s w : str) c : w ∈ split sep s -> c ∈ w -> c ∈ s.
Proof.
  revert w. induction s as [|a s IH]; intros w; simpl.
  - intros Hw Hc. apply list_elem_of_singleton in Hw as ->. done.
  - destruct (split sep s) as [|w0 ws] eqn:Hsplit.
    + intros Hw Hc. apply list_elem_of_singleton in Hw as ->. by apply elem_of_nil in Hc.
    + case_bool_decide as Ha.
      * intros Hw Hc. apply elem_of_cons in Hw as [->|Hw]; [by apply elem_of_nil in Hc|].
        apply list_elem_of_further. by apply (IH w).
      * intros Hw Hc. apply elem_of_cons in Hw as [->|Hw].
        -- apply elem_of_cons in Hc as [->|Hc]; [apply list_elem_of_here|].
           apply list_elem_of_further. apply (IH w0); [apply list_elem_of_here|done].
        -- apply list_elem_of_further. apply (IH w); [by apply list_elem_of_further|done].
Qed.

Lemma contains_char c (s : str) : contains [c] s = true <-> c ∈ s.
Proof.
  rewrite contains_spec. split.
  - intros (pre & post & ->). rewrite !elem_of_app. right. left. apply list_elem_of_here.
  - intros H. apply list_elem_of_split in H as (pre & post & ->). by exists pre, post.
Qed.

Lemma split_no_sep sep (a : str) : sep ∉ a -> split sep a = [a].
Proof.
  induction a as [|c a IH]; [done|]. intros H.
  apply not_elem_of_cons in H as [Hc Ha]. simpl. rewrite IH by done.
  by rewrite bool_decide_eq_false_2 by done.
Qed.

Lemma split_nonempty sep (s : str) : split sep s <> [].
Proof. destruct s as [|c s]; [done|]. simpl. destruct (split sep s); [done|]. by case_bool_decide. Qed.

Lemma split_app_sep sep (a t : str) :
  sep ∉ a -> split sep (a ++ sep :: t) = a :: split sep t.
Proof.
  induction a as [|c a IH]; intros H.
  - simpl. pose proof (split_nonempty sep t). destruct (split sep t); [done|].
    by rewrite bool_decide_eq_true_2.
  - apply not_elem_of_cons in H as [Hc Ha]. simpl. rewrite IH by done.
    by rewrite bool_decide_eq_false_2 by done.
Qed.

Lemma split_parts_no_sep sep (s w : str) : w ∈ split sep s -> sep ∉ w.
Proof.
  revert w. induction s as [|c s IH]; intros w; simpl.
  - intros Hw. apply list_elem_of_singleton in Hw as ->. apply not_elem_of_nil.
  - destruct (split sep s) as [|w0 ws] eqn:Hs.
    + intros Hw. apply list_elem_of_singleton in Hw as ->. apply not_elem_of_nil.
    + case_bool_decide as Hc; intros Hw; apply elem_of_cons in Hw as [->|Hw].
      * apply not_elem_of_nil.
      * by apply IH.
      * apply not_elem_of_cons. split; [done|]. apply IH, list_elem_of_here.
      * apply IH. by apply list_elem_of_further.
Qed.

Lemma slice_slice_app {A} (l : list A) (a m b : nat) :
  (a <= m <= b)%nat -> (b <= length l)%nat -> slice l a m ++ slice l m b = slice l a b.
Proof.
  intros H Hb. unfold slice.
  rewrite <- (take_drop (m - a) (drop a l)) at 2.
  rewrite take_app_ge by (rewrite length_take, length_drop; lia).
  rewrite length_take, length_drop, drop_drop.
  replace (a + (m - a))%nat with m by lia.
  do 2 f_equal. lia.
Qed.

Lemma ord_zero b : ord b = 0 -> b = x00.
Proof. intros H. by apply (ord_inj b x00). Qed.

(** ** More on the body decoder *)

Section BodyConstruction.
Import MemBodyExtractor.

Lemma first_magic_seq_least d a n i :
  first_magic d (seq a n) = Some i ->
  (a <= i < a + n)%nat /\ magic_at d i = true /\
  forall j, (a <= j < i)%nat -> magic_at d j = false.
Proof.
  revert a. induction n as [|n IH]; intros a; [done|]. simpl.
  destruct (magic_at d a) eqn:Ha.
  - intros [= <-]. repeat split; try done; lia.
  - intros H. destruct (IH _ H) as (Hi & Hm & Hleast).
    split; [lia|]. split; [done|].
    intros j Hj. destruct (decide (j = a)) as [->|]; [done|]. apply Hleast. lia.
Qed.

Lemma first_magic_seq_none d a n :
  first_magic d (seq a n) = None <->
  forall j, (a <= j < a + n)%nat -> magic_at d j = false.
Proof.
  revert a. induction n as [|n IH]; intros a; simpl.
  - split; [intros _ j Hj; lia|done].
  - destruct (magic_at d a) eqn:Ha.
    + split; [done|]. intros H. rewrite H in Ha by lia. done.
    + rewrite IH. split.
      * intros H j Hj. destruct (decide (j = a)) as [->|]; [done|]. apply H. lia.
      * intros H j Hj. apply H. lia.
Qed.

(** X1. A body is constructed exactly when it starts with [RZ] and a stream
    header ([78 9c] or [78 da]) starts at some offset from 2 to 99; the offset
    kept is the least such offset, and the header lies inside the data. *)
Theorem new_least_offset (membody_data : bytes) (self : t) :
  new membody_data = Ok self <->
  data self = membody_data /\
  slice membody_data 0 2 = RZ /\
  (2 <= compress_offset self < 100)%nat /\
  (compress_offset self + 2 <= length membody_data)%nat /\
  magic_at membody_data (compress_offset self) = true /\
  (forall j, (2 <= j < compress_offset self)%nat -> magic_at membody_data j = false).
Proof.
  unfold new, _find_deflate_start, range. split.
  - case_bool_decide as Hrz; [|done].
    destruct (first_magic _ _) as [off|] eqn:Hoff; [|done].
    simpl. intros [= <-]. simpl.
    apply first_magic_seq_least in Hoff as (Hi & Hm & Hleast).
    pose proof (magic_at_length _ _ Hm).
    repeat split; try done; lia.
  - intros (Hd & Hrz & Hoff & Hlen & Hm & Hleast).
    rewrite bool_decide_eq_true_2 by done.
    rewrite (first_magic_seq membody_data 2 (compress_offset self - 2)).
    + simpl. destruct self as [d o]. simpl in *. subst d. do 2 f_equal. lia.
    + intros i Hi. apply Hleast. lia.
    + rewrite <- Hm. f_equal. lia.
    + lia.
Qed.

(** X2. Construction raises in exactly two ways: [HeaderMismatch] when the
    first two bytes are not [RZ], whatever follows, and [StreamNotFound] when
    they are and no stream header starts at any offset from 2 up to
    [min(100, len) - 1]. *)
Theorem new_errors (membody_data : bytes) (e : exn) :
  new membody_data = Raise e <->
  (e = HeaderMismatch /\ slice membody_data 0 2 <> RZ) \/
  (e = StreamNotFound /\ slice membody_data 0 2 = RZ /\
   forall j, (2 <= j < Nat.min 100 (length membody_data))%nat ->
             magic_at membody_data j = false).
Proof.
  unfold new, _find_deflate_start, range.
  case_bool_decide as Hrz.
  - destruct (first_magic _ _) as [off|] eqn:Hoff; cbn [of_option mbind result_bind bind].
    + split; [done|]. intros [[_ ?]|(_ & _ & Hno)]; [done|].
      apply first_magic_seq_least in Hoff as (Hi & Hm & _).
      rewrite Hno in Hm by lia. done.
    + rewrite first_magic_seq_none in Hoff. split.
      * intros [= <-]. right. repeat split; [done|]. intros j Hj. apply Hoff. lia.
      * intros [[_ ?]|(-> & _ & _)]; done.
  - split.
    + intros [= <-]. by left.
    + intros [[-> _]|(_ & ? & _)]; done.
Qed.

End BodyConstruction.

(** ** More on the scene splitter *)

Section SplitterMore.
Import MemFSParser MemBodyExtractor.
Implicit Types (d : bytes) (files : list IndexEntry).

Lemma opens_scene_out_of_range d k : (length d <= k)%nat -> opens_scene d k = None.
Proof.
  intros Hk. unfold opens_scene. case_bool_decide as Hb; [|done].
  unfold LBRACKET in Hb. apply slice_one, lookup_lt_Some in Hb. lia.
Qed.

Lemma store_empty segs : store segs = ∅ <-> segs = [].
Proof.
  split; [|by intros ->].
  destruct segs as [|s segs _] using rev_ind; [done|].
  rewrite store_snoc. intros H. by apply insert_non_empty in H.
Qed.

(** X3. The splitter returns the empty dict exactly when the payload holds no
    scene header at any offset; in particular this is not an error. *)
Theorem no_scene_empty d files :
  find_file_data d files = ∅ <-> forall k, opens_scene d k = None.
Proof.
  unfold find_file_data.
  destruct (split_run_inv d files) as [(Hpos & Hall & Hres & Hhead) Hend].
  rewrite Hres, store_empty, Hend in *.
  destruct (hd_error (found (split_run d files))) as [s0|] eqn:Hh.
  - destruct Hhead as (_ & _ & _). split.
    + intros Hnil. by rewrite Hnil in Hh.
    + intros Hnone. exfalso.
      assert (s0 ∈ found (split_run d files)) as Hin
        by (destruct (found _); simplify_eq/=; apply list_elem_of_here).
      rewrite list.Forall_forall in Hall.
      destruct (Hall s0 Hin) as (e & Hopen & _). by rewrite Hnone in Hopen.
  - destruct Hhead as [Hnil Hnone]. split; [|done].
    intros _ k. destruct (decide (k < length d)%nat); [by apply Hnone|].
    apply opens_scene_out_of_range. lia.
Qed.

Lemma chain_concat d a segs b :
  chain a segs b -> (b <= length d)%nat ->
  Forall (fun s => rawBytes s = slice d (startOffset s) (endOffset s)) segs ->
  concat (map rawBytes segs) = slice d a b.
Proof.
  induction 1 as [a|s segs b Hlt Hch IH]; intros Hb Hall.
  - unfold slice. by rewrite Nat.sub_diag.
  - apply list.Forall_cons in Hall as [Hs Hall]. simpl.
    rewrite IH, Hs by done. apply chain_le in Hch.
    apply slice_slice_app; lia.
Qed.

(** X4. Joined in order, the bytes of the scenes found by the splitter give
    back the payload from the first scene-boundary marker to its end: nothing
    after the first scene header is lost or duplicated. When no two scenes
    resolve to the same filename, the values of the returned dict, taken in
    the order of the scenes, join to the same bytes. *)
Theorem segments_concat d files (m : nat) :
  first_marker d m ->
  let segs := segments d files in
  concat (map rawBytes segs) = drop m d /\
  (NoDup (map resolvedFilename segs) ->
   concat (omap (fun s => find_file_data d files !! resolvedFilename s) segs) = drop m d).
Proof.
  intros Hm. cbv zeta.
  destruct (first_marker_head d files m Hm) as (s0 & _ & _ & Hch).
  unfold find_file_data, segments in *.
  destruct (split_run_inv d files) as [(_ & Hall & Hres & _) _].
  assert (concat (map rawBytes (found (split_run d files))) = drop m d) as Hcat.
  { rewrite (chain_concat d _ _ _ Hch); [| lia |].
    - unfold slice. apply take_ge. rewrite length_drop. lia.
    - eapply list.Forall_impl; [exact Hall|]. by intros s (e & _ & _ & Hraw & _). }
  split; [done|]. intros Hnd. rewrite <- Hcat. f_equal.
  apply omap_lookup_all. intros s Hs. rewrite Hres. by apply store_nodup.
Qed.

Lemma segments_concat_witness :
  let d := list_byte_of_string "xx[A_TOP]abc[B_END]de" in
  concat (map rawBytes (segments d [])) = drop 2 d /\
  (NoDup (map resolvedFilename (segments d [])) ->
   concat (omap (fun s => find_file_data d [] !! resolvedFilename s) (segments d []))
   = drop 2 d).
Proof.
  cbv zeta. apply (segments_concat (list_byte_of_string "xx[A_TOP]abc[B_END]de") [] 2).
  split; [vm_compute; eauto|].
  intros k Hk. do 2 (destruct k as [|k]; [reflexivity|]). lia.
Defined.

(** X5. Every value of the returned dict is the byte range of one scene of
    the payload: it starts at an open bracket, its first bytes up to the
    close bracket decode to a header ending with [_TOP]], [_START]] or
    [_END]], the key is the filename resolved from that header, and the
    value runs up to the next scene header or the end of the payload. *)
Theorem dict_value_is_scene d files (name : str) (v : bytes) :
  find_file_data d files !! name = Some v ->
  exists start e next_pos header,
    marker d start e header /\ ends_with_scene_suffix header = true /\
    name = resolve_filename header files /\
    (e < next_pos <= length d)%nat /\
    v = slice d start next_pos /\
    utf8_decode_ignore (take (e + 1 - start) v) = header /\
    (forall k, (e < k < next_pos)%nat -> opens_scene d k = None) /\
    ((next_pos < length d)%nat -> is_Some (opens_scene d next_pos)).
Proof.
  unfold find_file_data.
  destruct (split_run_inv d files) as [(Hpos & Hall & Hres & Hhead) Hend].
  rewrite Hres, store_lookup. intros Hv.
  destruct (list.last _) as [s|] eqn:Hlast; [|done]. injection Hv as <-.
  apply last_Some_elem_of, list_elem_of_filter in Hlast as [Hname Hin].
  rewrite list.Forall_forall in Hall.
  destruct (Hall s Hin) as (e & Hopen & Hnext & Hraw & Hfile).
  pose proof (opens_scene_marker _ _ _ _ Hopen) as Hm.
  apply opens_scene_bounds in Hopen as (Hpe & _ & _ & _ & Hhdr & Hsc).
  destruct (scan_next_spec d (e + 1)) as (Hn1 & Hn2 & Hn3); [lia|].
  rewrite <- Hnext in *.
  exists (startOffset s), e, (endOffset s), (headerText s).
  split; [done|]. split; [by rewrite <- (is_scene_header_marker _ _ _ _ Hm)|].
  split; [by rewrite <- Hfile|]. split; [lia|]. split; [done|].
  split.
  - rewrite Hraw, Hhdr. f_equal. unfold slice.
    rewrite take_take. f_equal. lia.
  - split; [|done]. intros k Hk. apply Hn2. lia.
Qed.

Lemma dict_value_is_scene_witness :
  let d := list_byte_of_string "xx[A_TOP]abc[B_END]de" in
  exists start e next_pos header,
    marker d start e header /\ ends_with_scene_suffix header = true /\
    lit "A_TOP.tat" = resolve_filename header [] /\
    (e < next_pos <= length d)%nat /\
    list_byte_of_string "[A_TOP]abc" = slice d start next_pos /\
    utf8_decode_ignore (take (e + 1 - start) (list_byte_of_string "[A_TOP]abc")) = header /\
    (forall k, (e < k < next_pos)%nat -> opens_scene d k = None) /\
    ((next_pos < length d)%nat -> is_Some (opens_scene d next_pos)).
Proof.
  cbv zeta. apply dict_value_is_scene. vm_compute. reflexivity.
Defined.

End SplitterMore.

(** ** Filename resolution *)

Section Filenames.
Import MemFSParser MemBodyExtractor.
Implicit Types (files : list IndexEntry).

Lemma match_files_first token files filename :
  (match_files token files filename = filename /\
   forall f, f ∈ files -> contains token (path f) = false) \/
  (exists pre f post,
     files = pre ++ f :: post /\
     (forall g, g ∈ pre -> contains token (path g) = false) /\
     contains token (path f) = true /\
     match_files token files filename = lstrip_chars (lit "/") (path f)).
Proof.
  induction files as [|f files IH]; simpl.
  - left. split; [done|]. intros f Hf. by apply elem_of_nil in Hf.
  - destruct (contains token (path f)) eqn:Hc.
    + right. exists [], f, files. repeat split; try done.
      intros g Hg. by apply elem_of_nil in Hg.
    + destruct IH as [[Heq Hno]|(pre & g & post & -> & Hpre & Hg & Heq)].
      * left. split; [done|]. intros g Hg.
        apply elem_of_cons in Hg as [->|Hg]; [done|by apply Hno].
      * right. exists (f :: pre), g, post. repeat split; try done.
        intros h Hh. apply elem_of_cons in Hh as [->|Hh]; [done|by apply Hpre].
Qed.

(** X6. The filename of a scene is the header without its brackets followed
    by [.tat], unless some index entry's path contains the first
    underscore-separated token of that name; then it is the path of the first
    such entry, in index order, without its leading slashes. *)
Theorem resolve_filename_first_match (header : str) files :
  let scene_name := strip_chars (lit "[]") header in
  let token := hd [] (split 95 scene_name) in
  (resolve_filename header files = scene_name ++ lit ".tat" /\
   forall f, f ∈ files -> contains token (path f) = false) \/
  (exists pre f post,
     files = pre ++ f :: post /\
     (forall g, g ∈ pre -> contains token (path g) = false) /\
     contains token (path f) = true /\
     resolve_filename header files = lstrip_chars (lit "/") (path f)).
Proof. cbv zeta. unfold resolve_filename. apply match_files_first. Qed.

Lemma split_head_sep sep s : hd [] (split sep (sep :: s)) = [].
Proof.
  simpl. destruct (split sep s) as [|w ws]; [done|].
  by rewrite bool_decide_eq_true_2.
Qed.

Lemma startswith_cons c s : startswith [c] s = true -> exists t, s = c :: t.
Proof. intros H. apply startswith_spec in H as [t ->]. eauto. Qed.

(** X7. When the name of a scene starts with an underscore (as for a header
    [[_END]]), its first token is empty, every path contains it, and the
    scene takes the path of the first index entry. *)
Theorem underscore_header_takes_first_entry (header : str) (f : IndexEntry) files :
  startswith (lit "_") (strip_chars (lit "[]") header) = true ->
  resolve_filename header (f :: files) = lstrip_chars (lit "/") (path f).
Proof.
  intros H. apply (startswith_cons 95) in H as [t Ht].
  unfold resolve_filename. rewrite Ht, split_head_sep. simpl.
  by destruct (path f).
Qed.

Lemma underscore_header_takes_first_entry_witness :
  resolve_filename (lit "[_END]")
    [ {| path := lit "/script/a.tat"; metadata_offset := 0; val1 := 0; val2 := 0;
         path_prefix := 0 |} ]
  = lit "script/a.tat".
Proof.
  apply (underscore_header_takes_first_entry (lit "[_END]")). reflexivity.
Defined.

End Filenames.

(** ** More on the index scan *)

Section IndexScanMore.
Import MemFSParser.
Implicit Types (data : bytes) (paths : list (nat * str)).

(** X8. When the two bytes [2f 00] occur nowhere in the buffer (in
    particular for the empty buffer), parsing succeeds with no entry. *)
Theorem no_slash_no_entries data :
  (forall i, slice data i (i + 2) <> SLASH16) -> _parse data = Ok [].
Proof.
  intros Hno. unfold _parse, find_paths.
  destruct (while_rule (fun st => (fst st <? length data)%nat) (scan_step data)
              (fun st => snd st = [])
              (fun st => (length data - fst st)%nat))
    with (fuel := length data) (s := (0%nat, @nil (nat * str))) as [Hnil _].
  - intros [sp paths] Hp Hc. simpl in *. subst paths. apply Nat.ltb_lt in Hc.
    unfold scan_step. rewrite bool_decide_eq_false_2 by apply Hno.
    simpl. split; [done|lia].
  - done.
  - simpl. lia.
  - by rewrite Hnil.
Qed.

Lemma no_slash_no_entries_witness :
  _parse (list_byte_of_string "RSON header, no path") = Ok [].
Proof.
  apply no_slash_no_entries. intros i H.
  apply (f_equal (fun l => l !! 0%nat)) in H.
  unfold slice in H. rewrite lookup_take_lt in H by lia.
  rewrite lookup_drop, Nat.add_0_r in H.
  do 21 (destruct i as [|i]; [discriminate H|]). discriminate H.
Defined.

Lemma scan_step_ordered data st :
  paths_ordered data st -> (fst st < length data)%nat ->
  paths_ordered data (scan_step data st).
Proof.
  destruct st as [sp paths]. intros [Hadj Hend] Hlt. simpl in *.
  unfold scan_step. case_bool_decide as Hs.
  - destruct (slash_cond data sp Hs) as [Hc Hlen].
    destruct (path_end_spec data sp) as [[He|He] Hc']; [rewrite He in Hc'; congruence|].
    assert (paths_ordered data (path_end data sp, paths)) as Hsame.
    { split; [done|]. simpl. intros P p HP. specialize (Hend P p HP). lia. }
    destruct (utf16le_decode _) as [p|]; [|done].
    destruct (is_content_path p); [|done].
    split; simpl.
    + intros i P0 p0 P' p' Hi Hi'.
      destruct (decide (S i < length paths)%nat).
      * rewrite lookup_app_l in Hi by lia. rewrite lookup_app_l in Hi' by lia. eauto.
      * apply lookup_lt_Some in Hi' as Hlen'. rewrite length_app in Hlen'. simpl in Hlen'.
        assert (S i = length paths) as Heq by lia.
        rewrite lookup_app_l in Hi by lia.
        rewrite Heq, list_lookup_middle in Hi' by done. simplify_eq.
        eapply Hend, list_elem_of_lookup_2, Hi.
    + intros P0 p0 HP. apply elem_of_app in HP as [HP|HP].
      * specialize (Hend _ _ HP). lia.
      * apply list_elem_of_singleton in HP. by simplify_eq.
  - split; [done|]. simpl. intros P p HP. specialize (Hend P p HP). lia.
Qed.

Lemma find_paths_ordered data :
  forall i P p P' p', find_paths data !! i = Some (P, p) ->
                      find_paths data !! S i = Some (P', p') ->
                      (path_end data P <= P')%nat.
Proof.
  unfold find_paths.
  destruct (while_rule (fun st => (fst st <? length data)%nat) (scan_step data)
              (paths_ordered data)
              (fun st => (length data - fst st)%nat))
    with (fuel := length data) (s := (0%nat, @nil (nat * str))) as [[Hadj _] _].
  - intros st Hord Hc. apply Nat.ltb_lt in Hc. split; [by apply scan_step_ordered|].
    destruct st as [sp paths]. simpl in *. unfold scan_step.
    case_bool_decide as Hs; simpl; [|lia].
    destruct (slash_cond data sp Hs) as [Hc1 _].
    destruct (path_end_spec data sp) as [[He|He] Hc']; [rewrite He in Hc'; congruence|lia].
  - split; simpl; [intros i ? ? ? ? Hi; by rewrite lookup_nil in Hi|].
    intros P p HP. by apply elem_of_nil in HP.
  - simpl. lia.
  - done.
Qed.

(** X9. The accepted paths are recorded in increasing offset order and never
    overlap: each one starts at or after the end of the bytes consumed for
    the one before it, which lies at least two bytes after its start. *)
Theorem paths_do_not_overlap data (i P P' : nat) (p p' : str) :
  find_paths data !! i = Some (P, p) ->
  find_paths data !! S i = Some (P', p') ->
  (P + 2 <= path_end data P <= P')%nat.
Proof.
  intros Hi Hi'. split; [|by eapply find_paths_ordered].
  pose proof (find_paths_spec data) as Hall. rewrite list.Forall_forall in Hall.
  destruct (Hall (P, p)) as (Hs & _); [by eapply list_elem_of_lookup_2|].
  destruct (slash_cond data P Hs) as [Hc _].
  destruct (path_end_spec data P) as [[He|He] Hc']; [rewrite He in Hc'; congruence|lia].
Qed.

Lemma paths_do_not_overlap_witness :
  (16 + 2 <= path_end sample_index 16 <= 30)%nat.
Proof.
  apply (paths_do_not_overlap sample_index 0 16 30 (lit "/a.tat") (lit "/b.json"));
    vm_compute; reflexivity.
Defined.

End IndexScanMore.

(** ** The paths of the index entries *)

Section IndexPaths.
Import MemFSParser.
Implicit Types (data : bytes).

(** The bytes consumed for a path: they stay inside the buffer, their number
    is even, and none of their two-byte units is the terminator. *)
Lemma path_end_units data start :
  (start <= length data)%nat ->
  let e := path_end data start in
  (start <= e <= length data)%nat /\
  (exists n, e = start + 2 * n)%nat /\
  (forall j, (start + 2 * j < e)%nat ->
             slice data (start + 2 * j) (start + 2 * j + 2) <> NUL16).
Proof.
  intros Hstart. unfold path_end.
  apply (while_rule (path_end_cond data) (fun e => (e + 2)%nat)
           (fun e => (start <= e <= length data)%nat /\
                     (exists n, e = start + 2 * n)%nat /\
                     (forall j, (start + 2 * j < e)%nat ->
                        slice data (start + 2 * j) (start + 2 * j + 2) <> NUL16))
           (fun e => (length data - e)%nat)).
  - intros e (Hle & [n ->] & Hunits) Hc. unfold path_end_cond in Hc.
    apply andb_true_iff in Hc as [Hlt Hne]. apply Nat.ltb_lt in Hlt.
    apply negb_true_iff, bool_decide_eq_false in Hne.
    split; [|lia]. split; [lia|]. split; [exists (S n); lia|].
    intros j Hj. destruct (decide (j = n)) as [->|]; [done|]. apply Hunits. lia.
  - split; [lia|]. split; [exists 0%nat; lia|]. intros j Hj. lia.
  - lia.
Qed.

Lemma utf16le_decode_no_nul (s : bytes) (p : str) :
  utf16le_decode s = Some p ->
  (forall j, (2 * j < length s)%nat -> slice s (2 * j) (2 * j + 2) <> NUL16) ->
  0 ∉ p.
Proof.
  remember (length s) as len eqn:Hlen. revert s p Hlen.
  induction len as [len IH] using lt_wf_ind. intros s p -> Hdec Hunits.
  destruct s as [|b0 [|b1 rest]]; simpl in Hdec.
  - injection Hdec as <-. apply not_elem_of_nil.
  - done.
  - pose proof (ord_range b0) as R0. pose proof (ord_range b1) as R1.
    assert (ord b0 + 256 * ord b1 <> 0) as Hu.
    { intros H0. apply (Hunits 0%nat); [simpl; lia|].
      assert (ord b0 = 0) as H00 by lia. assert (ord b1 = 0) as H01 by lia.
      apply ord_zero in H00, H01. by subst. }
    assert (forall k, (2 * k < length rest)%nat ->
              slice rest (2 * k) (2 * k + 2) <> NUL16) as Hrest.
    { intros k Hk. specialize (Hunits (S k)).
      replace (2 * S k)%nat with (S (S (2 * k))) in Hunits by lia.
      apply Hunits. simpl. lia. }
    destruct (_ || _) eqn:Hbmp.
    + destruct (utf16le_decode rest) as [p'|] eqn:Hp'; [|done].
      simpl in Hdec. injection Hdec as <-.
      apply not_elem_of_cons. split; [done|].
      apply (IH (length rest)) with (s := rest); [simpl; lia|done|done|done].
    + destruct (_ <? 56320) eqn:Hhigh; [|done].
      destruct rest as [|c0 [|c1 rest']]; try done.
      destruct (_ && _) eqn:Hlow; [|done].
      destruct (utf16le_decode rest') as [p'|] eqn:Hp'; [|done].
      simpl in Hdec. injection Hdec as <-.
      apply orb_false_iff in Hbmp as [Hb1 Hb2].
      apply Z.ltb_ge in Hb1. apply andb_true_iff in Hlow as [Hl1 Hl2].
      apply Z.leb_le in Hl1.
      apply not_elem_of_cons. split; [lia|].
      apply (IH (length rest')) with (s := rest'); [simpl; lia|done|done|].
      intros k Hk. specialize (Hrest (S k)).
      replace (2 * S k)%nat with (S (S (2 * k))) in Hrest by lia.
      apply Hrest. simpl. lia.
Qed.

Lemma utf16le_decode_slash (s : bytes) (p : str) :
  utf16le_decode (x2f :: x00 :: s) = Some p -> exists rest, p = 47 :: rest.
Proof.
  simpl. destruct (utf16le_decode s) as [p'|]; [|done].
  simpl. intros [= <-]. eauto.
Qed.

Lemma path_found_shape data P p :
  path_found data (P, p) -> (exists rest, p = 47 :: rest) /\ 0 ∉ p.
Proof.
  intros (Hs & Hdec & _).
  destruct (slash_cond data P Hs) as [Hc Hlen].
  destruct (path_end_units data P) as (Hle & [n Hn] & Hunits); [lia|].
  destruct (path_end_spec data P) as [[He|He] Hc']; [rewrite He in Hc'; congruence|].
  set (e := path_end data P) in *.
  split.
  - rewrite <- (slice_slice_app data P (P + 2) e) in Hdec by lia.
    rewrite Hs in Hdec. by apply utf16le_decode_slash in Hdec.
  - apply (utf16le_decode_no_nul _ _ Hdec).
    intros j Hj. rewrite slice_length in Hj by lia.
    assert (slice (slice data P e) (2 * j) (2 * j + 2)
            = slice data (P + 2 * j) (P + 2 * j + 2)) as ->.
    { unfold slice. rewrite skipn_firstn_comm, drop_drop, take_take.
      f_equal. lia. }
    apply Hunits. lia.
Qed.

(** X10. Every entry's path starts with a slash, contains one of [.tat],
    [.json], [.armd], and holds no NUL character. *)
Theorem entry_path_shape data (files : list IndexEntry) (f : IndexEntry) :
  _parse data = Ok files -> f ∈ files ->
  (exists rest, path f = 47 :: rest) /\
  is_content_path (path f) = true /\
  0 ∉ path f.
Proof.
  intros Hparse Hf.
  pose proof (find_paths_spec data) as Hfound.
  unfold _parse in Hparse. rewrite entries_spec in Hparse.
  - injection Hparse as <-. simpl in Hf.
    apply list_elem_of_omap in Hf as ([P p] & Hin & Hspec).
    unfold spec_entry in Hspec. destruct (P <? 16)%nat; [done|].
    injection Hspec as <-. simpl.
    rewrite list.Forall_forall in Hfound. specialize (Hfound _ Hin).
    destruct (path_found_shape data P p Hfound) as [Hslash Hnul].
    destruct Hfound as (_ & _ & Hcp). done.
  - eapply list.Forall_impl; [exact Hfound|]. intros [P p] (Hs & _). simpl.
    apply slash_cond in Hs as [_ ?]. lia.
Qed.

Lemma entry_path_shape_witness :
  let f := {| path := lit "/a.tat"; metadata_offset := 0; val1 := 0; val2 := 0;
              path_prefix := 0 |} in
  (exists rest, path f = 47 :: rest) /\
  is_content_path (path f) = true /\
  0 ∉ path f.
Proof.
  cbv zeta. eapply (entry_path_shape sample_index).
  - vm_compute. reflexivity.
  - apply list_elem_of_here.
Defined.

End IndexPaths.

(** ** More on the dialogue extractor *)

Section DialogueMore.
Import TATParser.
Implicit Types (self : t) (lines : list str) (st : state) (r : pydict).

Lemma increasing_snoc ks k :
  increasing ks -> Forall (fun j => (j < k)%nat) ks -> increasing (ks ++ [k]).
Proof.
  intros Hinc Hlt i j a b Hij Hi Hj.
  apply lookup_lt_Some in Hj as Hjlen. rewrite length_app in Hjlen. simpl in Hjlen.
  rewrite lookup_app_l in Hi by lia.
  destruct (decide (j = length ks)) as [->|].
  - rewrite list_lookup_middle in Hj by done. simplify_eq.
    rewrite list.Forall_forall in Hlt. eapply Hlt, list_elem_of_lookup_2, Hi.
  - rewrite lookup_app_l in Hj by lia. eauto.
Qed.

Lemma increasing_ge_index ks i a : increasing ks -> ks !! i = Some a -> (i <= a)%nat.
Proof.
  intros Hinc. revert a. induction i as [|i IH]; intros a Hi; [lia|].
  destruct (lookup_lt_is_Some_2 ks i) as [b Hb]; [apply lookup_lt_Some in Hi; lia|].
  specialize (IH b Hb). specialize (Hinc i (S i) b a (Nat.lt_succ_diag_r i) Hb Hi). lia.
Qed.

Lemma increasing_length ks n :
  increasing ks -> Forall (fun j => (j < n)%nat) ks -> (length ks <= n)%nat.
Proof.
  intros Hinc Hlt. destruct ks as [|k ks _] using rev_ind; [simpl; lia|].
  rewrite length_app. simpl.
  assert ((ks ++ [k]) !! length ks = Some k) as Hk by by apply list_lookup_middle.
  apply increasing_ge_index in Hk; [|done].
  apply Forall_app in Hlt as [_ Hlt]. apply list.Forall_cons in Hlt as [Hlt _]. lia.
Qed.

Lemma state_after_lines self (k : nat) :
  (k <= length (split NEWLINE (text_content self)))%nat ->
  exists ks,
    map (dict_get "line") (results (state_after self k))
    = map (fun j : nat => Some (VInt (Z.of_nat j + 1))) ks /\
    increasing ks /\ Forall (fun j => (j < k)%nat) ks.
Proof.
  set (lines := split NEWLINE (text_content self)).
  induction k as [|k IH]; intros Hk.
  - exists []. split; [done|]. split; [|constructor].
    intros i j a b _ Hi. by rewrite lookup_nil in Hi.
  - destruct IH as (ks & Hks & Hinc & Hlt); [lia|].
    destruct (lookup_lt_is_Some_2 lines k) as [line Hline]; [lia|].
    rewrite (state_after_S self k line Hline), step_results. fold lines.
    destruct (emit self lines k _ line) as [r|] eqn:He; simpl.
    + exists (ks ++ [k]). split; [|split].
      * rewrite !map_app, Hks. simpl.
        by destruct (record_fields _ _ _ _ _ _ He) as [-> _].
      * by apply increasing_snoc.
      * apply Forall_app_2; [|by repeat constructor].
        eapply list.Forall_impl; [exact Hlt|]. simpl. intros; lia.
    + exists ks. repeat split; try done.
      eapply list.Forall_impl; [exact Hlt|]. simpl. intros; lia.
Qed.

(** X11. The records come out in line order: their [line] fields are
    strictly increasing 1-based numbers of lines of the text, so a line
    yields at most one record and there are never more records than lines. *)
Theorem records_in_line_order self :
  exists ks : list nat,
    map (dict_get "line") (extract_dialogue self)
    = map (fun k : nat => Some (VInt (Z.of_nat k + 1))) ks /\
    (forall i j a b, (i < j)%nat -> ks !! i = Some a -> ks !! j = Some b -> (a < b)%nat) /\
    Forall (fun k => (k < length (split NEWLINE (text_content self)))%nat) ks /\
    (length (extract_dialogue self)
     <= length (split NEWLINE (text_content self)))%nat.
Proof.
  unfold extract_dialogue. rewrite <- state_after_all.
  set (n := length (split NEWLINE (text_content self))).
  destruct (state_after_lines self n) as (ks & Hks & Hinc & Hlt); [done|].
  exists ks. split; [done|]. split; [done|]. split; [done|].
  apply (f_equal length) in Hks. rewrite !length_map in Hks. rewrite Hks.
  by apply increasing_length.
Qed.

End DialogueMore.

(** ** The records of the dialogue extractor *)

Section DialogueRecords.
Import TATParser.
Implicit Types (self : t) (lines : list str) (st : state) (r : pydict).

Lemma has_japanese_mono (a b : str) :
  (forall c, c ∈ a -> c ∈ b) -> _has_japanese a = true -> _has_japanese b = true.
Proof.
  rewrite !has_japanese_spec. intros Hsub (c & Hc & Hr). exists c. split; [auto|done].
Qed.

Lemma strip_tags_elem (line : str) c : c ∈ strip_tags line -> c ∈ line.
Proof.
  unfold strip_tags, TAGS. simpl. unfold remove. intros H.
  do 6 apply remove_from_elem in H. done.
Qed.

(** What every appended record holds. *)
Lemma emit_record self lines (k : nat) speaker (line : str) r :
  emit self lines k speaker line = Some r ->
  exists text,
    dict_get "file" r = Some (VStr (filename self)) /\
    dict_get "line" r = Some (VInt (Z.of_nat k + 1)) /\
    dict_get "text" r = Some (VStr text) /\
    dict_get "full_line" r = Some (VStr (rstrip line)) /\
    dict_get "scene" r = Some (VStr (_get_scene_header self)) /\
    _has_japanese text = true /\
    (2 <= length text)%nat /\ strip text = text /\
    (forall c, c ∈ text -> c ∈ line).
Proof.
  unfold emit. destruct (is_speaker_line _); [done|].
  destruct (has_quotes (rstrip line)) eqn:Hq.
  - unfold dialogue_of. destruct (_ && _); [|done].
    destruct (_has_japanese _ && _) eqn:Hok; [|done].
    apply andb_true_iff in Hok as [Hj Hlen]. apply Nat.leb_le in Hlen.
    intros [= <-]. eexists. repeat split; try done.
    + apply strip_by_idemp.
    + intros c Hc. apply strip_by_elem, zslice_elem, rstrip_by_elem in Hc. done.
  - destruct (_ && _); [|done]. unfold narrative_of.
    destruct (_ && _) eqn:Hok; [|done].
    apply andb_true_iff in Hok as [Hok _]. apply andb_true_iff in Hok as [Hok Hj].
    apply andb_true_iff in Hok as [Hlo Hhi].
    apply Nat.leb_le in Hlo. apply Nat.ltb_lt in Hhi.
    intros [= <-]. eexists. repeat split; try done; [lia| |].
    + apply strip_by_idemp.
    + intros c Hc. apply strip_by_elem, strip_tags_elem, rstrip_by_elem in Hc. done.
Qed.

(** X12. Every record names the parser's file and scene header, holds the
    right-trimmed text of its own line as [full_line], and has a [text] of at
    least 2 code points that is trimmed, is made of code points of that line,
    and contains a code point in U+3040..U+9FFF. *)
Theorem record_contents self r :
  r ∈ extract_dialogue self ->
  exists (k : nat) (line text : str),
    split NEWLINE (text_content self) !! k = Some line /\
    dict_get "line" r = Some (VInt (Z.of_nat k + 1)) /\
    dict_get "file" r = Some (VStr (filename self)) /\
    dict_get "scene" r = Some (VStr (_get_scene_header self)) /\
    dict_get "full_line" r = Some (VStr (rstrip line)) /\
    dict_get "text" r = Some (VStr text) /\
    (2 <= length text)%nat /\ strip text = text /\
    (forall c, c ∈ text -> c ∈ line) /\
    _has_japanese text = true.
Proof.
  intros Hr. apply extract_dialogue_emitted in Hr as (k & line & Hline & He).
  apply emit_record in He as (text & ? & ? & ? & ? & ? & ? & ? & ? & ?).
  exists k, line, text. repeat split; done.
Qed.

Lemma record_contents_witness :
  exists r, extract_dialogue (parser_of konnichiwa) = [r] /\
    exists (k : nat) (line text : str),
    split NEWLINE (text_content (parser_of konnichiwa)) !! k = Some line /\
    dict_get "line" r = Some (VInt (Z.of_nat k + 1)) /\
    dict_get "file" r = Some (VStr (filename (parser_of konnichiwa))) /\
    dict_get "scene" r = Some (VStr (_get_scene_header (parser_of konnichiwa))) /\
    dict_get "full_line" r = Some (VStr (rstrip line)) /\
    dict_get "text" r = Some (VStr text) /\
    (2 <= length text)%nat /\ strip text = text /\
    (forall c, c ∈ text -> c ∈ line) /\
    _has_japanese text = true.
Proof.
  eexists. split; [vm_compute; reflexivity|].
  apply record_contents. vm_compute. apply list_elem_of_here.
Defined.

(** X13. A text without any code point in U+3040..U+9FFF (plain ASCII, for
    instance, or the empty text) yields no record at all. *)
Theorem no_japanese_no_records self :
  _has_japanese (text_content self) = false -> extract_dialogue self = [].
Proof.
  intros Hno. destruct (extract_dialogue self) as [|r l] eqn:Hres; [done|]. exfalso.
  assert (r ∈ extract_dialogue self) as Hr by (rewrite Hres; apply list_elem_of_here).
  apply extract_dialogue_emitted in Hr as (k & line & Hline & He).
  apply emit_record in He as (text & _ & _ & _ & _ & _ & Hj & _ & _ & Hsub).
  assert (_has_japanese (text_content self) = true); [|congruence].
  apply (has_japanese_mono text); [|done].
  intros c Hc. apply (split_elem NEWLINE _ line); [|by apply Hsub].
  by eapply list_elem_of_lookup_2.
Qed.

Lemma no_japanese_no_records_witness :
  extract_dialogue (parser_of ascii_script) = [].
Proof. apply no_japanese_no_records. vm_compute. reflexivity. Defined.

(** X14. A dialogue record takes the name of the speaker line just before
    it: when line [k] is a speaker line and line [k + 1], not itself a
    speaker line, contains both quotation glyphs and yields a record, that
    record's [speaker] is the text of line [k] without the enclosing speaker
    glyphs. *)
Theorem speaker_attribution self (k : nat) (l1 l2 : str) r :
  split NEWLINE (text_content self) !! k = Some l1 ->
  split NEWLINE (text_content self) !! S k = Some l2 ->
  is_speaker_line (rstrip l1) = true ->
  is_speaker_line (rstrip l2) = false ->
  has_quotes (rstrip l2) = true ->
  results (state_after self (S (S k))) = results (state_after self (S k)) ++ [r] ->
  dict_get "speaker" r
  = Some (VStr (strip_chars [SPEAKER_OPEN; SPEAKER_CLOSE] (rstrip l1))).
Proof.
  intros H1 H2 Hs1 Hs2 Hq Hr.
  rewrite (state_after_S self (S k) l2 H2), step_results in Hr.
  rewrite (state_after_S self k l1 H1), step_speaker in Hr.
  unfold next_speaker in Hr. rewrite Hs1 in Hr.
  unfold emit in Hr. rewrite Hs2, Hq in Hr. unfold dialogue_of in Hr.
  destruct (_ && _) in Hr;
    [|apply (f_equal length) in Hr; rewrite length_app in Hr; simpl in Hr; lia].
  destruct (_ && _) in Hr;
    [|apply (f_equal length) in Hr; rewrite length_app in Hr; simpl in Hr; lia].
  cbn [append_opt] in Hr. apply app_inv_head in Hr. injection Hr as <-. done.
Qed.

Lemma speaker_attribution_witness :
  exists r, extract_dialogue (parser_of named_greeting) = [r] /\
            dict_get "speaker" r = Some (VStr (lit "Name")) /\
            dict_get "text" r = Some (VStr [0x3053; 0x3093; 0x306B; 0x3061; 0x306F]).
Proof.
  eexists. split; [vm_compute; reflexivity|]. split; [|vm_compute; reflexivity].
  match goal with |- dict_get _ ?r = _ =>
    apply (speaker_attribution (parser_of named_greeting) 0
             ([SPEAKER_OPEN] ++ lit "Name" ++ [SPEAKER_CLOSE])
             (konnichiwa ++ lit "<KW>") r)
  end; vm_compute; reflexivity.
Defined.

Lemma first_header_spec (lines : list str) :
  (first_header lines = [] /\
   Forall (fun line => startswith (lit "[") line && contains (lit "]") line = false) lines) \/
  (exists (i : nat) (line : str),
     lines !! i = Some line /\
     (forall j l, (j < i)%nat -> lines !! j = Some l ->
                  startswith (lit "[") l && contains (lit "]") l = false) /\
     startswith (lit "[") line && contains (lit "]") line = true /\
     first_header lines = strip line).
Proof.
  induction lines as [|line lines IH]; simpl.
  - left. split; [done|constructor].
  - destruct (_ && _) eqn:Hl.
    + right. exists 0%nat, line. repeat split; try done. intros j l Hj. lia.
    + destruct IH as [[Hnil Hall]|(i & l & Hi & Hbefore & Hok & Heq)].
      * left. split; [done|by constructor].
      * right. exists (S i), l. repeat split; try done.
        intros [|j] l' Hj Hl'; simpl in Hl'; [by simplify_eq|].
        apply (Hbefore j); [lia|done].
Qed.

(** X15. The scene header is taken from the first 20 lines only: it is the
    trimmed first line among them that starts with an open bracket and
    contains a close bracket, and then it still starts with [[] and contains
    []]; it is empty when no such line exists. *)
Theorem scene_header_shape self :
  let lines := split NEWLINE (text_content self) in
  let is_header := fun line : str => startswith (lit "[") line && contains (lit "]") line in
  (_get_scene_header self = [] /\
   forall (i : nat) line, (i < 20)%nat -> lines !! i = Some line -> is_header line = false) \/
  (exists (i : nat) (line : str),
     (i < 20)%nat /\ lines !! i = Some line /\ is_header line = true /\
     (forall j l, (j < i)%nat -> lines !! j = Some l -> is_header l = false) /\
     _get_scene_header self = strip line /\
     is_header (_get_scene_header self) = true).
Proof.
  cbv zeta. unfold _get_scene_header.
  set (lines := split NEWLINE (text_content self)).
  destruct (first_header_spec (take 20 lines))
    as [[Hnil Hall]|(i & line & Hi & Hbefore & Hok & Heq)].
  - left. split; [done|]. intros i line Hi Hline.
    rewrite list.Forall_forall in Hall. apply Hall.
    apply elem_of_take. eauto.
  - right. apply lookup_take_Some in Hi as [Hi Hlt].
    exists i, line. repeat split; try done.
    + intros j l Hj Hl. apply (Hbefore j); [done|].
      rewrite lookup_take_lt by lia. done.
    + rewrite Heq. apply andb_true_iff in Hok as [Hs Hc].
      apply startswith_spec in Hs as [post ->].
      change (lit "[") with [91] in *. change (lit "]") with [93] in *.
      apply contains_char in Hc.
      apply andb_true_iff. split.
      * unfold strip, strip_by. simpl.
        rewrite rstrip_by_cons by done. by rewrite bool_decide_eq_true_2.
      * apply contains_char. by apply strip_by_keeps.
Qed.

End DialogueRecords.

(** ** Line endings *)

Section LineEndings.
Import TATParser.
Implicit Types (self : t) (lines : list str) (st : state).

Lemma rstrip_by_snoc f (l : str) c : f c = true -> rstrip_by f (l ++ [c]) = rstrip_by f l.
Proof. intros Hc. unfold rstrip_by. rewrite rev_app_distr. simpl. by rewrite Hc. Qed.

Lemma lstrip_by_snoc_space f (l : str) c :
  f c = true ->
  lstrip_by f (l ++ [c]) = match lstrip_by f l with [] => [] | _ => lstrip_by f l ++ [c] end.
Proof.
  intros Hc. induction l as [|a l IH]; simpl.
  - by rewrite Hc.
  - destruct (f a); [done|]. done.
Qed.

Lemma strip_by_snoc f (l : str) c : f c = true -> strip_by f (l ++ [c]) = strip_by f l.
Proof.
  intros Hc. unfold strip_by. rewrite lstrip_by_snoc_space by done.
  destruct (lstrip_by f l) as [|a t] eqn:Hl; [done|].
  by rewrite rstrip_by_snoc.
Qed.

Lemma same_line_rstrip l' l : same_line l' l -> rstrip l' = rstrip l.
Proof. intros [->| ->]; [done|]. by apply rstrip_by_snoc. Qed.

Lemma same_line_strip l' l : same_line l' l -> strip l' = strip l.
Proof. intros [->| ->]; [done|]. by apply strip_by_snoc. Qed.

Lemma same_line_header l' l :
  same_line l' l ->
  startswith (lit "[") l' && contains (lit "]") l'
  = startswith (lit "[") l && contains (lit "]") l.
Proof.
  intros [->| ->]; [done|]. f_equal.
  - by destruct l.
  - change (lit "]") with [93]. apply eq_true_iff_eq.
    rewrite !contains_char, elem_of_app, list_elem_of_singleton.
    split; [intros [H|H]; [done|discriminate H]|by left].
Qed.

Lemma first_header_same lines' lines :
  Forall2 same_line lines' lines -> first_header lines' = first_header lines.
Proof.
  induction 1 as [|l' l lines' lines Hl Hls IH]; [done|]. cbn [first_header].
  rewrite (same_line_header l' l Hl), (same_line_strip l' l Hl), IH. done.
Qed.

Lemma getitem_same lines' lines (i : Z) :
  Forall2 same_line lines' lines -> strip (getitem lines' i) = strip (getitem lines i).
Proof.
  intros H. unfold getitem. destruct (i <? 0); [done|].
  generalize (Z.to_nat i). clear i. intros n. revert n.
  induction H as [|l' l lines' lines Hl Hls IH]; intros [|n]; simpl; try done.
  by apply same_line_strip.
Qed.

Lemma context_loop_same lines' lines indices ctx count :
  Forall2 same_line lines' lines ->
  context_loop lines' indices ctx count = context_loop lines indices ctx count.
Proof.
  intros H. revert ctx count. induction indices as [|i indices IH]; intros ctx count; [done|].
  cbn [context_loop]. rewrite (getitem_same lines' lines i H).
  destruct (_ && _); destruct (_ <=? _)%nat; try done; apply IH.
Qed.

Lemma step_same self' self lines' lines n l' l st :
  filename self' = filename self ->
  _get_scene_header self' = _get_scene_header self ->
  Forall2 same_line lines' lines -> same_line l' l ->
  step self' lines' n l' st = step self lines n l st.
Proof.
  intros Hf Hh Hls Hl. unfold step.
  rewrite (same_line_rstrip l' l Hl).
  unfold dialogue_of, narrative_of, dialogue_record, narrative_record, build_context.
  by rewrite Hf, Hh, !(context_loop_same lines' lines _ _ _ Hls).
Qed.

Lemma run_same self' self lines' lines n rest' rest st :
  filename self' = filename self ->
  _get_scene_header self' = _get_scene_header self ->
  Forall2 same_line lines' lines -> Forall2 same_line rest' rest ->
  run self' lines' n rest' st = run self lines n rest st.
Proof.
  intros Hf Hh Hls Hrest. revert n st.
  induction Hrest as [|l' l rest' rest Hl Hr IH]; intros n st; [done|].
  simpl. rewrite (step_same self' self lines' lines n l' l st) by done. apply IH.
Qed.

Lemma split_to_crlf (text : str) :
  Forall2 same_line (split NEWLINE (to_crlf text)) (split NEWLINE text).
Proof.
  induction text as [|c text IH]; simpl.
  - constructor; [by left|constructor].
  - pose proof (split_nonempty NEWLINE text) as Hne.
    destruct (split NEWLINE text) as [|w ws] eqn:Hs; [done|].
    apply Forall2_cons_inv_r in IH as (w' & ws' & Hw & Hws & Hs').
    case_bool_decide as Hc.
    + subst c. cbn [app split]. fold (to_crlf text). rewrite Hs'.
      rewrite bool_decide_eq_true_2 by done.
      rewrite bool_decide_eq_false_2 by done.
      constructor; [by right|]. by constructor.
    + cbn [app split]. fold (to_crlf text). rewrite Hs'.
      rewrite bool_decide_eq_false_2 by done.
      constructor; [|done].
      destruct Hw as [->| ->]; [by left|by right].
Qed.

(** X19. Windows line endings change nothing: a text in which every newline
    is preceded by a carriage return yields exactly the records of the text
    without the carriage returns, for the same file name. *)
Theorem crlf_same_records self' self :
  filename self' = filename self ->
  text_content self' = to_crlf (text_content self) ->
  extract_dialogue self' = extract_dialogue self.
Proof.
  intros Hf Ht. unfold extract_dialogue, final_state.
  pose proof (split_to_crlf (text_content self)) as Hls. rewrite <- Ht in Hls.
  assert (_get_scene_header self' = _get_scene_header self) as Hh.
  { unfold _get_scene_header. apply first_header_same.
    by apply Forall2_take. }
  by rewrite (run_same self' self _ _ 0 _ _ init Hf Hh Hls Hls).
Qed.

Lemma crlf_same_records_witness :
  extract_dialogue (parser_of (to_crlf far_context))
  = extract_dialogue (parser_of far_context).
Proof. apply crlf_same_records; vm_compute; reflexivity. Defined.

End LineEndings.

(** ** The computations of [extract_game_files] *)

Section OrchestratorProps.
Import Orchestrator.

Lemma replace_char_absent old new (s : str) : old <> new -> old ∉ replace_char old new s.
Proof.
  intros Hne Hin. unfold replace_char in Hin.
  apply list_elem_of_fmap in Hin as (c & Hc & _).
  case_bool_decide; congruence.
Qed.

Lemma replace_char_keeps_absent old new x (s : str) :
  x <> new -> x ∉ s -> x ∉ replace_char old new s.
Proof.
  intros Hne Hs Hin. unfold replace_char in Hin.
  apply list_elem_of_fmap in Hin as (c & Hc & Hcs).
  case_bool_decide; [done|]. by subst.
Qed.

Lemma replace_char_id old new (s : str) : old ∉ s -> replace_char old new s = s.
Proof.
  induction s as [|c s IH]; [done|]. intros Hs.
  apply not_elem_of_cons in Hs as [Hc Hs]. simpl.
  rewrite bool_decide_eq_false_2 by done. by rewrite IH.
Qed.

Lemma endswith_app p (s : str) : endswith p (s ++ p) = true.
Proof. apply endswith_spec. by exists s. Qed.

(** X16. The name under which a scene is written never contains a slash or a
    backslash and always ends with [.tat]; sanitising a sanitised name
    changes nothing. *)
Theorem safe_filename_flat (filename : str) :
  (47 ∉ safe_filename filename) /\ (92 ∉ safe_filename filename) /\
  endswith (lit ".tat") (safe_filename filename) = true /\
  safe_filename (safe_filename filename) = safe_filename filename.
Proof.
  assert (47 ∉ replace_char 92 95 (replace_char 47 95 filename)) as H47
    by (apply replace_char_keeps_absent; [done|by apply replace_char_absent]).
  assert (92 ∉ replace_char 92 95 (replace_char 47 95 filename)) as H92
    by by apply replace_char_absent.
  assert ((47 ∉ safe_filename filename) /\ (92 ∉ safe_filename filename) /\
          endswith (lit ".tat") (safe_filename filename) = true) as (S47 & S92 & Send).
  { unfold safe_filename. cbv zeta.
    destruct (endswith _ _) eqn:He; [done|].
    rewrite !not_elem_of_app, endswith_app.
    repeat split; try done; change (lit ".tat") with [46; 116; 97; 116];
      rewrite !not_elem_of_cons; repeat split; try done; apply not_elem_of_nil. }
  repeat split; try done.
  unfold safe_filename at 1. cbv zeta.
  rewrite (replace_char_id 47) by done. rewrite (replace_char_id 92) by done.
  by rewrite Send.
Qed.

(** X17. Computing the route of a path never raises: a path with a slash
    always has a second component. The route contains no slash, and for a
    path that starts with a slash it is the text between the first slash and
    the next one (or the end). *)
Theorem route_of_total (path : str) :
  (exists r, route_of path = Some r /\ (47 ∉ r)) /\
  (forall seg rest, path = 47 :: seg ++ rest -> 47 ∉ seg ->
                    (rest = [] \/ exists t, rest = 47 :: t) ->
                    route_of path = Some seg).
Proof.
  unfold route_of. change (lit "/") with [47]. split.
  - destruct (contains [47] path) eqn:Hc.
    + apply contains_char, list_elem_of_split in Hc as (a & t & ->).
      (* cut at the first slash *)
      assert (exists a' t', a ++ 47 :: t = a' ++ 47 :: t' /\ (47 ∉ a')) as (a' & t' & -> & Ha').
      { clear. induction a as [|c a IH].
        - exists [], t. split; [done|apply not_elem_of_nil].
        - destruct (decide (c = 47)) as [->|Hc].
          + exists [], (a ++ 47 :: t). split; [done|apply not_elem_of_nil].
          + destruct IH as (a' & t' & Heq & Ha'). exists (c :: a'), t'.
            split; [simpl; by rewrite Heq|]. by apply not_elem_of_cons. }
      rewrite split_app_sep by done. simpl.
      pose proof (split_nonempty 47 t') as Hne.
      destruct (split 47 t') as [|w ws] eqn:Hs; [done|].
      exists w. split; [done|]. apply (split_parts_no_sep 47 t').
      rewrite Hs. apply list_elem_of_here.
    + exists (lit "(root)"). split; [done|].
      change (lit "(root)") with [40; 114; 111; 111; 116; 41].
      rewrite !not_elem_of_cons. repeat split; try done. apply not_elem_of_nil.
  - intros seg rest -> Hseg Hrest.
    rewrite (proj2 (contains_char 47 _)) by apply list_elem_of_here.
    change (47 :: seg ++ rest) with ([] ++ 47 :: (seg ++ rest)).
    rewrite split_app_sep by apply not_elem_of_nil. simpl.
    destruct Hrest as [->|[t ->]].
    + by rewrite app_nil_r, split_no_sep.
    + by rewrite split_app_sep.
Qed.

End OrchestratorProps.

(** ** The inspection loop *)

Section Inspect.
Import Orchestrator.
Implicit Types (d : bytes).

(** On valid input the strict decoder and the one that ignores errors agree. *)
Lemma utf8_decode_strict_ignore (s : bytes) (t : str) :
  utf8_decode_strict s = Some t -> utf8_decode_ignore s = t.
Proof.
  remember (length s) as len eqn:Hlen. revert s t Hlen.
  induction len as [len IH] using lt_wf_ind. intros s t ->.
  destruct s as [|b1 s1]; [by intros [= <-]|].
  cbn [utf8_decode_strict utf8_decode_ignore]. cbv zeta.
  destruct (ord b1 <? 128).
  { destruct (utf8_decode_strict s1) as [t1|] eqn:H1; [|done].
    simpl. intros [= <-]. f_equal. by apply (IH (length s1)); [simpl; lia| |]. }
  destruct (ord b1 <? 194); [done|].
  destruct (ord b1 <? 224).
  { destruct s1 as [|b2 s2]; [done|].
    destruct (is_cont (ord b2)); [|done].
    destruct (utf8_decode_strict s2) as [t2|] eqn:H2; [|done].
    simpl. intros [= <-]. f_equal. by apply (IH (length s2)); [simpl; lia| |]. }
  destruct (ord b1 <? 240).
  { destruct s1 as [|b2 [|b3 s3]]; [done|done|].
    destruct (negb (is_cont (ord b2)) || _ || _) eqn:Hbad; [done|].
    cbn [orb]. destruct (is_cont (ord b3)); [|done]. cbn [negb].
    destruct (utf8_decode_strict s3) as [t3|] eqn:H3; [|done].
    simpl. intros [= <-]. f_equal. by apply (IH (length s3)); [simpl; lia| |]. }
  destruct (ord b1 <? 245); [|done].
  destruct s1 as [|b2 [|b3 [|b4 s4]]]; [done|done|done|].
  destruct (negb (is_cont (ord b2)) || _ || _) eqn:Hbad; [done|].
  cbn [orb]. destruct (is_cont (ord b3)); [|done]. cbn [negb orb].
  destruct (is_cont (ord b4)); [|done]. cbn [negb].
  destruct (utf8_decode_strict s4) as [t4|] eqn:H4; [|done].
  simpl. intros [= <-]. f_equal. by apply (IH (length s4)); [simpl; lia| |].
Qed.

(** [scan_nul] stops at the first zero byte at or after [start], or at the
    end of the data. *)
Lemma scan_nul_spec d start :
  let e := scan_nul d start in
  (start <= e)%nat /\
  (forall k, (start <= k < e)%nat -> d !! k <> Some x00) /\
  ((e < length d)%nat -> d !! e = Some x00) /\
  ((start <= length d)%nat -> (e <= length d)%nat).
Proof.
  unfold scan_nul.
  set (cond := fun e : nat => _).
  destruct (while_rule cond (fun e => (e + 1)%nat)
              (fun e => (start <= e)%nat /\
                        (forall k, (start <= k < e)%nat -> d !! k <> Some x00) /\
                        ((start <= length d)%nat -> (e <= length d)%nat))
              (fun e => (length d - e)%nat)) with (fuel := length d) (s := start)
    as [(H1 & H2 & H3) Hc].
  - intros e (Hle & Hno & Hlen) Hcond. unfold cond in Hcond.
    apply andb_true_iff in Hcond as [Hlt Hne].
    apply Nat.ltb_lt in Hlt. apply negb_true_iff, bool_decide_eq_false in Hne.
    split; [|lia]. split; [lia|]. split; [|lia].
    intros k Hk. destruct (decide (k = e)) as [->|]; [|apply Hno; lia].
    intros Hk0. apply Hne. by rewrite Hk0.
  - split; [lia|]. split; [intros; lia|done].
  - lia.
  - cbv zeta. set (e := while _ _ _ _) in *.
    split; [done|]. split; [done|]. split; [|done].
    intros Hlt. unfold cond in Hc. apply andb_false_iff in Hc as [Hc|Hc].
    + apply Nat.ltb_ge in Hc. lia.
    + apply negb_false_iff, bool_decide_eq_true in Hc.
      destruct (d !! e) as [b|] eqn:Hb; [|done]. simpl in Hc.
      injection Hc as Hc. by apply ord_zero in Hc as ->.
Qed.

Lemma inspect_step_spec d st :
  Forall (reported d) (snd st) -> (Z.of_nat (fst st) < Z.of_nat (length d) - 20) ->
  Forall (reported d) (snd (inspect_step d st)) /\
  (fst st < fst (inspect_step d st))%nat.
Proof.
  destruct st as [pos written]. simpl. intros Hall Hlt.
  unfold inspect_step.
  destruct (d !! pos) as [b|] eqn:Hb; [|simpl; split; [done|lia]].
  destruct (Z.leb_spec 224 (ord b)) as [Hhi|]; [|simpl; split; [done|lia]].
  destruct (scan_nul_spec d pos) as (H1 & H2 & H3 & H4).
  set (e := scan_nul d pos) in *.
  assert (pos < e)%nat as Hpe.
  { destruct (decide (pos = e)) as [Heq|]; [|lia]. exfalso.
    rewrite <- Heq in H3. rewrite H3 in Hb by lia. injection Hb as <-.
    change (ord x00) with 0 in Hhi. lia. }
  destruct (Z.ltb_spec 3 (Z.of_nat e - Z.of_nat pos)) as [Hlong|]; [|simpl; split; [done|lia]].
  destruct (utf8_decode_strict _) as [text|] eqn:Hdec; simpl; [|split; [done|lia]].
  split; [|lia].
  destruct (any_japanese text) eqn:Hj; [|done].
  apply Forall_app_2; [done|]. constructor; [|constructor].
  exists pos, e, b, text. repeat split; try done; try lia.
  by apply utf8_decode_strict_ignore.
Qed.

(** X18. The inspection loop ends with its cursor within the last 20 bytes
    (or at 0 for a payload of at most 20 bytes, which is not inspected at
    all). Every line it writes reports a run that starts, at an offset more
    than 20 bytes before the end, with a byte of value at least 0xE0, extends
    to the next zero byte or the end of the payload, is at least 4 bytes
    long, is valid UTF-8 (so that the decoder that ignores errors reads the
    same text) and contains a code point in U+3040..U+9FFF. *)
Theorem inspect_lines_reported d :
  Forall (reported d) (inspect_lines d) /\
  Z.of_nat (length d) - 20 <= Z.of_nat (fst (inspect_run d)) /\
  ((length d <= 20)%nat -> inspect_lines d = []).
Proof.
  unfold inspect_lines, inspect_run.
  destruct (while_rule (fun st => Z.of_nat (fst st) <? Z.of_nat (length d) - 20)
              (inspect_step d) (fun st => Forall (reported d) (snd st))
              (fun st => (length d - fst st)%nat))
    with (fuel := length d) (s := (0%nat, @nil str)) as [Hall Hc].
  - intros st Hst Hc. apply Z.ltb_lt in Hc.
    destruct (inspect_step_spec d st Hst Hc). split; [done|lia].
  - constructor.
  - simpl. lia.
  - split; [done|]. split; [by apply Z.ltb_ge in Hc|].
    intros Hshort. destruct (length d) as [|n] eqn:Hn; [done|].
    simpl. destruct (Z.ltb_spec (Z.of_nat 0) (Z.of_nat (S n) - 20)); [lia|done].
Qed.

End Inspect.
